(** * Secure archive extraction (src/infra/archive.ts)

    A shallow embedding of the limit-enforcing variant of the archive
    extraction engine: the path validator, the component stripper, the
    limit resolver, the output-path containment check, the zip extractor
    and the per-entry hook handed to the tar unpacker, together with the
    parts of the JavaScript platform they call (strings, numbers,
    [path.posix], a small file system); then the archive kind read off a
    file name, and the stripper, the zip loop and the tar callback of the
    earlier variant that the same source file keeps. *)

From Stdlib Require Import ZArith QArith Qround String Ascii List Lia Bool.
From stdpp Require Import base option list gmap strings.

Local Open Scope Z_scope.
Local Open Scope string_scope.

(** ** JavaScript strings

    A string is a sequence of code units; only "/", "\", ".", ":" and the
    ASCII letters are ever inspected by the code. *)
Module Js.

Definition CHAR_FORWARD_SLASH : ascii := "/"%char.
Definition CHAR_BACKWARD_SLASH : ascii := "\"%char.
Definition CHAR_DOT : ascii := "."%char.
Definition CHAR_COLON : ascii := ":"%char.

Definition is_slash (c : ascii) : bool := Ascii.eqb c CHAR_FORWARD_SLASH.

(** [s.startsWith(p)] *)
Definition startsWith (s p : string) : bool := String.prefix p s.

(** [s.length === 0], the falsy strings *)
Definition is_empty (s : string) : bool :=
  match s with EmptyString => true | _ => false end.

(** the last code unit, when there is one *)
Fixpoint last_char (s : string) : option ascii :=
  match s with
  | EmptyString => None
  | String c EmptyString => Some c
  | String _ s' => last_char s'
  end.

(** [s.endsWith("/")] *)
Definition endsWith_slash (s : string) : bool :=
  match last_char s with Some c => is_slash c | None => false end.

(** [s.replaceAll(a, b)] for one-character [a] and [b] *)
Fixpoint replaceAll (a b : ascii) (s : string) : string :=
  match s with
  | EmptyString => EmptyString
  | String c s' => String (if Ascii.eqb c a then b else c) (replaceAll a b s')
  end.

(** [s.split("/")]: the pieces between slashes; never the empty list *)
Fixpoint split_slash_aux (cur : string) (s : string) : list string :=
  match s with
  | EmptyString => [cur]
  | String c s' =>
      if is_slash c then cur :: split_slash_aux EmptyString s'
      else split_slash_aux (cur ++ String c EmptyString) s'
  end.

Definition split_slash (s : string) : list string := split_slash_aux EmptyString s.

(** [parts.join("/")] *)
Fixpoint join_slash (parts : list string) : string :=
  match parts with
  | [] => EmptyString
  | [p] => p
  | p :: rest => p ++ "/" ++ join_slash rest
  end.

(** [s.lastIndexOf("/")], [None] standing for -1 *)
Fixpoint lastIndexOf_slash_aux (i : nat) (found : option nat) (s : string) : option nat :=
  match s with
  | EmptyString => found
  | String c s' =>
      lastIndexOf_slash_aux (S i) (if is_slash c then Some i else found) s'
  end.

Definition lastIndexOf_slash (s : string) : option nat :=
  lastIndexOf_slash_aux 0%nat None s.

(** [s.slice(0, n)] for [0 <= n] *)
Definition slice_to (n : nat) (s : string) : string := String.substring 0 n s.

(** [c] is in [[a-zA-Z]] *)
Definition is_ascii_letter (c : ascii) : bool :=
  let n := nat_of_ascii c in
  ((65 <=? n) && (n <=? 90) || (97 <=? n) && (n <=? 122))%nat.

(** [String.prototype.toLowerCase] on one code unit below 256: the ASCII
    capitals and the Latin-1 capitals (U+00C0 to U+00DE, less the
    multiplication sign U+00D7) move up by 32; nothing else changes *)
Definition toLowerCase_unit (c : ascii) : ascii :=
  let n := nat_of_ascii c in
  if ((65 <=? n) && (n <=? 90) || (192 <=? n) && (n <=? 222) && negb (n =? 215))%nat
  then ascii_of_nat (n + 32)
  else c.

(** [s.toLowerCase()] *)
Fixpoint toLowerCase (s : string) : string :=
  match s with
  | EmptyString => EmptyString
  | String c s' => String (toLowerCase_unit c) (toLowerCase s')
  end.

(** [s.endsWith(searchString)]: the search string is looked for at
    [s.length - searchString.length], and not at all when that is
    negative *)
Definition endsWith (s searchString : string) : bool :=
  let len := String.length s in
  let searchLength := String.length searchString in
  (searchLength <=? len)%nat
  && String.eqb (String.substring (len - searchLength) searchLength s) searchString.

End Js.

(** ** [node:path], POSIX flavour

    The lexical path functions of the platform, after their definition in
    the Node.js runtime ([lib/path.js]); none of them touches the file
    system. *)
Module Path.

(** The loop variables of [normalizeString].  The runtime keeps the index
    [lastSlash] of the previous separator and slices the current segment
    out of the input; here the segment read since that separator is
    carried along instead, so [lastSlash === i - 1] reads [seg = ""] and
    [i - lastSlash - 1] reads [length seg]. *)
Record nstate := {
  res : string;
  lastSegmentLength : nat;
  seg : string;
  dots : Z
}.

Definition ns_init : nstate :=
  {| res := ""; lastSegmentLength := 0; seg := ""; dots := 0 |}.

(** does [res] end in ".."? *)
Definition ends_dotdot (r : string) : bool :=
  let n := String.length r in
  match String.get (n - 1) r, String.get (n - 2) r with
  | Some a, Some b => Ascii.eqb a Js.CHAR_DOT && Ascii.eqb b Js.CHAR_DOT
  | _, _ => false
  end.

(** One pass of the loop body on a separator. *)
Definition ns_separator (allowAboveRoot : bool) (st : nstate) : nstate :=
  let closed r l := {| res := r; lastSegmentLength := l; seg := ""; dots := 0 |} in
  if Js.is_empty (seg st) || (dots st =? 1)%Z then
    closed (res st) (lastSegmentLength st)
  else if (dots st =? 2)%Z then
    let above :=
      if allowAboveRoot then
        closed (if (0 <? String.length (res st))%nat then res st ++ "/.." else "..") 2%nat
      else closed (res st) (lastSegmentLength st) in
    if (String.length (res st) <? 2)%nat
       || negb (lastSegmentLength st =? 2)%nat
       || negb (ends_dotdot (res st)) then
      if (2 <? String.length (res st))%nat then
        match Js.lastIndexOf_slash (res st) with
        | None => closed "" 0%nat
        | Some k =>
            let r := Js.slice_to k (res st) in
            let l :=
              match Js.lastIndexOf_slash r with
              | None => String.length r
              | Some j => (String.length r - 1 - j)%nat
              end in
            closed r l
        end
      else if negb (String.length (res st) =? 0)%nat then
        closed "" 0%nat
      else above
    else above
  else
    closed (if (0 <? String.length (res st))%nat then res st ++ "/" ++ seg st else seg st)
           (String.length (seg st)).

(** One pass of the loop body on any code unit. *)
Definition ns_step (allowAboveRoot : bool) (st : nstate) (code : ascii) : nstate :=
  if Js.is_slash code then ns_separator allowAboveRoot st
  else
    let seg' := seg st ++ String code "" in
    if Ascii.eqb code Js.CHAR_DOT && negb (dots st =? -1)%Z then
      {| res := res st; lastSegmentLength := lastSegmentLength st;
         seg := seg'; dots := dots st + 1 |}
    else
      {| res := res st; lastSegmentLength := lastSegmentLength st;
         seg := seg'; dots := -1 |}.

Fixpoint ns_loop (allowAboveRoot : bool) (st : nstate) (path : string) : nstate :=
  match path with
  | EmptyString => st
  | String c rest => ns_loop allowAboveRoot (ns_step allowAboveRoot st c) rest
  end.

(** [normalizeString(path, allowAboveRoot, "/", isPosixPathSeparator)].
    After the last code unit the loop runs once more on a virtual
    separator unless the path already ended in one; in that case the
    current segment is empty and the extra pass would change nothing. *)
Definition normalizeString (path : string) (allowAboveRoot : bool) : string :=
  let st := ns_loop allowAboveRoot ns_init path in
  if Js.endsWith_slash path then res st
  else res (ns_separator allowAboveRoot st).

(** [path.posix.isAbsolute] *)
Definition isAbsolute (path : string) : bool :=
  match path with
  | String c _ => Js.is_slash c
  | EmptyString => false
  end.

(** [path.posix.normalize] *)
Definition normalize (path : string) : string :=
  if Js.is_empty path then "."
  else
    let isAbs := isAbsolute path in
    let trailingSeparator := Js.endsWith_slash path in
    let p := normalizeString path (negb isAbs) in
    if Js.is_empty p then
      if isAbs then "/" else if trailingSeparator then "./" else "."
    else
      let p' := if trailingSeparator then p ++ "/" else p in
      if isAbs then "/" ++ p' else p'.

(** [path.posix.join] *)
Definition join (args : list string) : string :=
  let nonempty := List.filter (fun a => negb (Js.is_empty a)) args in
  match nonempty with
  | [] => "."
  | _ => normalize (Js.join_slash nonempty)
  end.

(** The right-to-left scan of [path.posix.resolve]: the arguments are
    given last first, and the walk stops at the first absolute one. *)
Fixpoint resolve_scan (rev_args : list string) (resolvedPath : string) : string * bool :=
  match rev_args with
  | [] => (resolvedPath, false)
  | p :: more =>
      if Js.is_empty p then resolve_scan more resolvedPath
      else
        let resolvedPath' := p ++ "/" ++ resolvedPath in
        if isAbsolute p then (resolvedPath', true)
        else resolve_scan more resolvedPath'
  end.

(** [path.posix.resolve(...args)] in a process whose working directory
    is [cwd]. *)
Definition resolve (cwd : string) (args : list string) : string :=
  let '(resolvedPath, resolvedAbsolute) := resolve_scan (List.rev (cwd :: args)) "" in
  let p := normalizeString resolvedPath (negb resolvedAbsolute) in
  if resolvedAbsolute then "/" ++ p
  else if (0 <? String.length p)%nat then p else ".".

(** The backwards scan of [path.posix.dirname], here from the last code
    unit down to index 1: [end] is the index of the last separator that
    is followed by a segment. *)
Fixpoint dirname_end (rev_tail : list ascii) (i : nat) (matchedSlash : bool) : option nat :=
  match rev_tail with
  | [] => None
  | c :: more =>
      if Js.is_slash c then
        if matchedSlash then dirname_end more (i - 1) matchedSlash
        else Some i
      else dirname_end more (i - 1) false
  end.

(** [path.posix.dirname] *)
Definition dirname (path : string) : string :=
  match path with
  | EmptyString => "."
  | String c0 tail =>
      let hasRoot := Js.is_slash c0 in
      match dirname_end (List.rev (list_ascii_of_string tail)) (String.length tail) true with
      | None => if hasRoot then "/" else "."
      | Some e =>
          if hasRoot && (e =? 1)%nat then "//" else Js.slice_to e path
      end
  end.

End Path.


(** ** JavaScript numbers

    A number is NaN, an infinity or a finite double.  Finite doubles are
    dyadic rationals and [Math.floor] of one is again a double, so the
    finite values are carried as rationals and every statement over them
    covers the doubles. *)
Module Num.

Inductive number :=
| NaN
| PosInfinity
| NegInfinity
| Fin (q : Q).

Definition of_Z (z : Z) : number := Fin (inject_Z z).

(** [Number.isFinite] *)
Definition isFinite (x : number) : bool :=
  match x with Fin _ => true | _ => false end.

(** [Math.floor] *)
Definition floor (x : number) : number :=
  match x with Fin q => of_Z (Qfloor q) | _ => x end.

(** [Math.max(0, x)] *)
Definition max0 (x : number) : number :=
  match x with
  | NaN => NaN
  | PosInfinity => PosInfinity
  | NegInfinity => of_Z 0
  | Fin q => if Qle_bool q 0 then of_Z 0 else Fin q
  end.

(** [x === 0] *)
Definition is_zero (x : number) : bool :=
  match x with Fin q => Qeq_bool q 0 | _ => false end.

(** ToIntegerOrInfinity on a finite value: truncation toward zero *)
Definition trunc (q : Q) : Z :=
  if Qle_bool 0 q then Qfloor q else Qceiling q.

(** [parts.slice(start)] *)
Definition slice_from {A} (start : number) (parts : list A) : list A :=
  match start with
  | NaN => parts
  | NegInfinity => parts
  | PosInfinity => []
  | Fin q =>
      let k := trunc q in
      if (k <? 0)%Z then drop (Z.to_nat (Z.max (Z.of_nat (length parts) + k) 0)) parts
      else drop (Z.to_nat k) parts
  end.

(** The double nearest to an integer.  Every integer below 2^53 in
    magnitude is a double; a larger one keeps its 53 leading bits, the
    rest rounded to nearest, a tie going to the even significand. *)
Definition nearest_double (z : Z) : Z :=
  let a := Z.abs z in
  if (a <? 2 ^ 53)%Z then z
  else
    let e := (Z.log2 a - 52)%Z in
    let q := (a / 2 ^ e)%Z in
    let r := (a mod 2 ^ e)%Z in
    let half := (2 ^ (e - 1))%Z in
    let q' := if (r <? half)%Z then q
              else if (half <? r)%Z then (q + 1)%Z
              else if Z.even q then q else (q + 1)%Z in
    (Z.sgn z * (q' * 2 ^ e))%Z.

(** [x + y] on two doubles that hold integers: the exact sum, rounded.
    (A sum of 2^1024 is Infinity in JavaScript; like the number kept
    here it is above every finite limit it is compared with.) *)
Definition double_add (x y : Z) : Z := nearest_double (x + y).

#[global] Arguments double_add : simpl never.

End Num.

(** ** The engine: errors and pure helpers *)
Module Archive.

Import Num.

(** The errors the engine throws, one constructor per message. *)
Inductive ArchiveError :=
| ErrUnsupported (archivePath : string)      (* unsupported archive: <path> *)
| ErrDrivePath (entryPath : string)          (* archive entry uses a drive path: <path> *)
| ErrEscapes (entryPath : string)            (* archive entry escapes destination: <path> *)
| ErrAbsolute (entryPath : string)           (* archive entry is absolute: <path> *)
| ErrLink (entryPath : string)               (* tar entry is a link: <path> *)
| ErrArchiveSize                             (* archive size exceeds limit *)
| ErrEntryCount                              (* archive entry count exceeds limit *)
| ErrEntrySize                               (* archive entry extracted size exceeds limit *)
| ErrExtractedSize                           (* archive extracted size exceeds limit *)
| ErrLayoutDirs (dirs : list string)         (* unexpected archive layout (dirs: ...) *)
| ErrLayoutNoPackageDir                      (* unexpected archive layout (no package dir found) *)
| ErrHost (syscall : string) (target : string). (* thrown by node:fs or by the zip reader *)

Inductive result (A : Type) :=
| Ok (a : A)
| Err (e : ArchiveError).
Arguments Ok {A} a.
Arguments Err {A} e.

(** The error classes of the specification's taxonomy. *)
Inductive ErrorKind :=
| UnsupportedArchive
| PathEscape
| DisallowedEntryType
| LimitExceeded
| AmbiguousLayout
| HostFailure.

Definition error_kind (e : ArchiveError) : ErrorKind :=
  match e with
  | ErrUnsupported _ => UnsupportedArchive
  | ErrDrivePath _ | ErrEscapes _ | ErrAbsolute _ => PathEscape
  | ErrLink _ => DisallowedEntryType
  | ErrArchiveSize | ErrEntryCount | ErrEntrySize | ErrExtractedSize => LimitExceeded
  | ErrLayoutDirs _ | ErrLayoutNoPackageDir => AmbiguousLayout
  | ErrHost _ _ => HostFailure
  end.

(** the class of an outcome: [None] for success *)
Definition outcome_kind {A} (r : result A) : option ErrorKind :=
  match r with Ok _ => None | Err e => Some (error_kind e) end.

(** [normalizeArchivePath]: backslashes are separators *)
Definition normalizeArchivePath (raw : string) : string :=
  Js.replaceAll Js.CHAR_BACKWARD_SLASH Js.CHAR_FORWARD_SLASH raw.

(** [isWindowsDrivePath]: the regular expression [^[a-zA-Z]:[\\/]] *)
Definition isWindowsDrivePath (p : string) : bool :=
  match p with
  | String c (String colon (String d _)) =>
      Js.is_ascii_letter c && Ascii.eqb colon Js.CHAR_COLON
      && (Ascii.eqb d Js.CHAR_BACKWARD_SLASH || Ascii.eqb d Js.CHAR_FORWARD_SLASH)
  | _ => false
  end.

(** [!s || s === "." || s === "./"] *)
Definition is_self_reference (s : string) : bool :=
  Js.is_empty s || String.eqb s "." || String.eqb s "./".

(** [validateArchiveEntryPath] *)
Definition validateArchiveEntryPath (entryPath : string) : result unit :=
  if is_self_reference entryPath then Ok tt
  else if isWindowsDrivePath entryPath then Err (ErrDrivePath entryPath)
  else
    let normalized := Path.normalize (normalizeArchivePath entryPath) in
    if String.eqb normalized ".." || Js.startsWith normalized "../" then
      Err (ErrEscapes entryPath)
    else if Path.isAbsolute normalized || Js.startsWith normalized "//" then
      Err (ErrAbsolute entryPath)
    else Ok tt.

(** the filter of [stripArchivePath]: [part.length > 0 && part !== "."] *)
Definition keep_part (part : string) : bool :=
  negb (Js.is_empty part) && negb (String.eqb part ".").

(** [stripArchivePath] *)
Definition stripArchivePath (entryPath : string) (stripComponents : number) : option string :=
  let raw := normalizeArchivePath entryPath in
  if is_self_reference raw then None
  else
    let parts := List.filter keep_part (Js.split_slash raw) in
    let strip := max0 (floor stripComponents) in
    let stripped :=
      if is_zero strip then Js.join_slash parts
      else Js.join_slash (slice_from strip parts) in
    let result := Path.normalize stripped in
    if is_self_reference result then None else Some result.

(** [clampLimit]; [None] is [undefined], on both sides *)
Definition clampLimit (value : option number) : option Z :=
  match value with
  | None => None
  | Some x =>
      if negb (isFinite x) then None
      else
        match x with
        | Fin q => let v := Qfloor q in if (0 <? v)%Z then Some v else None
        | _ => None
        end
  end.

Record ArchiveExtractLimits := {
  maxArchiveBytes : option number;
  maxEntries : option number;
  maxExtractedBytes : option number;
  maxEntryBytes : option number
}.

(** [Required<ArchiveExtractLimits>] as [resolveExtractLimits] returns it *)
Record ResolvedLimits := {
  rMaxArchiveBytes : Z;
  rMaxEntries : Z;
  rMaxExtractedBytes : Z;
  rMaxEntryBytes : Z
}.

(** [resolveExtractLimits]; [limits?.field] of an absent [limits] is
    [undefined] *)
Definition resolveExtractLimits (limits : option ArchiveExtractLimits) : ResolvedLimits :=
  let field (f : ArchiveExtractLimits -> option number) :=
    match limits with Some l => f l | None => None end in
  {| rMaxArchiveBytes := default (256 * 1024 * 1024)%Z (clampLimit (field maxArchiveBytes));
     rMaxEntries := default 50000%Z (clampLimit (field maxEntries));
     rMaxExtractedBytes := default (512 * 1024 * 1024)%Z (clampLimit (field maxExtractedBytes));
     rMaxEntryBytes := default (256 * 1024 * 1024)%Z (clampLimit (field maxEntryBytes)) |}.

(** [Math.max(0, Math.floor(params.stripComponents ?? 0))] *)
Definition resolveStrip (stripComponents : option number) : number :=
  max0 (floor (default (of_Z 0) stripComponents)).

Section Process.

(** [process.cwd()], read by [path.resolve] *)
Variable cwd : string.

(** [resolveSafeBaseDir]; [path.sep] is "/" *)
Definition resolveSafeBaseDir (destDir : string) : string :=
  let resolved := Path.resolve cwd [destDir] in
  if Js.endsWith_slash resolved then resolved else resolved ++ "/".

(** [resolveCheckedOutPath] *)
Definition resolveCheckedOutPath (destDir relPath original : string) : result string :=
  let safeBase := resolveSafeBaseDir destDir in
  let outPath := Path.resolve cwd [destDir; relPath] in
  if negb (Js.startsWith outPath safeBase) then Err (ErrEscapes original)
  else Ok outPath.

End Process.

End Archive.

(** ** A small file system

    Absolute path strings map to nodes.  Only what the extractor can
    observe is kept: whether a path is a directory or a regular file, a
    file's bytes and its permission bits.  There are no symbolic links:
    every path string names its own node.  What is stated of the calls
    the engine makes (which paths it hands to [node:fs], with which bytes)
    does not depend on that; what is stated of the nodes is stated of a
    destination tree without links. *)
Module Fs.

Inductive node :=
| File (data : list Byte.byte) (mode : Z)
| Dir.

(** The calls the engine makes into [node:fs], in order. *)
Inductive call :=
| CMkdir (p : string)                          (* fs.mkdir(p, { recursive: true }) *)
| CWriteFile (p : string) (data : list Byte.byte) (* fs.writeFile(p, data) *)
| COpen (p : string)                           (* createWriteStream(p) *)
| CWrite (p : string) (chunk : list Byte.byte) (* a chunk reaching the write stream *)
| CUnlink (p : string)                         (* fs.unlink(p) *)
| CChmod (p : string) (mode : Z).              (* fs.chmod(p, mode) *)

Record world := {
  nodes : gmap string node;
  calls : list call
}.

Definition is_root (p : string) : bool :=
  String.eqb p "/" || String.eqb p "." || Js.is_empty p.

Definition is_dir (m : gmap string node) (p : string) : bool :=
  is_root p || match m !! p with Some Dir => true | _ => false end.

Definition is_file (m : gmap string node) (p : string) : bool :=
  match m !! p with Some (File _ _) => true | _ => false end.

(** [p] and its ancestors below the root, nearest first *)
Fixpoint lineage (fuel : nat) (p : string) : list string :=
  match fuel with
  | O => []
  | S fuel' => if is_root p then [] else p :: lineage fuel' (Path.dirname p)
  end.

(** recursive mkdir: fails when a regular file is in the way *)
Definition mkdir_p (m : gmap string node) (p : string) : option (gmap string node) :=
  let chain := lineage (S (String.length p)) p in
  if existsb (is_file m) chain then None
  else Some (foldr (fun q acc => <[q := Dir]> acc) m chain).

(** open for writing, creating or truncating; a new file gets
    [create_mode], an existing one keeps its bits *)
Definition open_w (create_mode : Z) (m : gmap string node) (p : string)
    (data : list Byte.byte) : option (gmap string node) :=
  match m !! p with
  | Some Dir => None
  | Some (File _ mode) => Some (<[p := File data mode]> m)
  | None =>
      if is_dir m (Path.dirname p) then Some (<[p := File data create_mode]> m)
      else None
  end.

Definition append (m : gmap string node) (p : string) (chunk : list Byte.byte)
    : gmap string node :=
  match m !! p with
  | Some (File d mode) => <[p := File (d ++ chunk) mode]> m
  | _ => m
  end.

Definition unlink (denied : string -> bool) (m : gmap string node) (p : string)
    : option (gmap string node) :=
  if denied p then None
  else
    match m !! p with
    | Some (File _ _) => Some (delete p m)
    | _ => None
    end.

Definition chmod (denied : string -> bool) (m : gmap string node) (p : string)
    (mode : Z) : option (gmap string node) :=
  if denied p then None
  else
    match m !! p with
    | Some (File d _) => Some (<[p := File d mode]> m)
    | Some Dir => Some m
    | None => None
    end.

(** What [fs.stat] and [fs.readdir(..., { withFileTypes: true })] show of
    an extracted tree; [None] is a rejected promise. *)
Record Dirent := { d_name : string; d_isDirectory : bool }.

Record view := {
  stat_isDirectory : string -> option bool;
  readdir : string -> option (list Dirent)
}.

End Fs.

(** ** The extractors *)
Module Extract.

Import Num Archive Fs.

(** The process and host the extraction runs in. *)
Record Host := {
  cwd : string;                    (* process.cwd() *)
  create_mode : Z;                 (* 0o666 less the umask *)
  chmod_denied : string -> bool;   (* where the host refuses chmod *)
  unlink_denied : string -> bool   (* where the host refuses unlink *)
}.

(** Effectful code: a call either returns or throws, and the file
    system keeps what was done before the throw. *)
Definition M (A : Type) : Type := world -> result A * world.

Definition ret {A} (a : A) : M A := fun w => (Ok a, w).
Definition throw {A} (e : ArchiveError) : M A := fun w => (Err e, w).
Definition bind {A B} (c : M A) (k : A -> M B) : M B :=
  fun w => match c w with
           | (Ok a, w') => k a w'
           | (Err e, w') => (Err e, w')
           end.
Definition lift {A} (r : result A) : M A := fun w => (r, w).

Notation "'let!' x ':=' c 'in' k" := (bind c (fun x => k))
  (at level 10, x name, c at level 100, k at level 200).
Notation "'run!' c 'in' k" := (bind c (fun _ => k))
  (at level 10, c at level 100, k at level 200).

(** [try { body } catch (err) { handler; throw err }] *)
Definition try_cleanup {A} (body : M A) (handler : M unit) : M A :=
  fun w => match body w with
           | (Ok a, w') => (Ok a, w')
           | (Err e, w') => (Err e, snd (handler w'))
           end.

(** [promise.catch(() => undefined)] *)
Definition swallow (c : M unit) : M unit :=
  fun w => (Ok tt, snd (c w)).

(** A call into [node:fs]: logged, then applied; [None] rejects. *)
Definition fs_call (c : call) (syscall target : string)
    (f : gmap string node -> option (gmap string node)) : M unit :=
  fun w =>
    let logged := (calls w ++ [c])%list in
    match f (nodes w) with
    | Some m' => (Ok tt, {| nodes := m'; calls := logged |})
    | None => (Err (ErrHost syscall target), {| nodes := nodes w; calls := logged |})
    end.

Section Host.

Variable host : Host.

Definition fs_mkdir (p : string) : M unit :=
  fs_call (CMkdir p) "mkdir" p (fun m => mkdir_p m p).

Definition fs_writeFile (p : string) (data : list Byte.byte) : M unit :=
  fs_call (CWriteFile p data) "open" p (fun m => open_w (create_mode host) m p data).

Definition fs_open (p : string) : M unit :=
  fs_call (COpen p) "open" p (fun m => open_w (create_mode host) m p []).

Definition fs_write (p : string) (chunk : list Byte.byte) : M unit :=
  fs_call (CWrite p chunk) "write" p (fun m => Some (append m p chunk)).

Definition fs_unlink (p : string) : M unit :=
  fs_call (CUnlink p) "unlink" p (fun m => unlink (unlink_denied host) m p).

Definition fs_chmod (p : string) (mode : Z) : M unit :=
  fs_call (CChmod p mode) "chmod" p (fun m => chmod (chmod_denied host) m p mode).

(** What the zip reader yields for an entry's content: a stream of
    chunks when [entry.nodeStream] is a function, else one buffer. *)
Inductive EntryData :=
| Streamed (chunks : list (list Byte.byte))
| Buffered (buf : list Byte.byte).

Record ZipEntry := {
  name : string;
  dir : bool;
  unixPermissions : option Z;     (* [None]: not a number *)
  content : EntryData
}.

(** The archive file: its size on disk and, when the reader accepts
    it, the entries of [zip.files] in order. *)
Record ZipFile := {
  zf_size : Z;
  zf_files : option (list ZipEntry)
}.

Definition byteLength (b : list Byte.byte) : Z := Z.of_nat (length b).

(** [onChunkBytes]: the two running counts, the entry's first.  They
    count bytes that were really streamed, which stay below 2^53, where
    the sum of two doubles is their exact sum. *)
Definition onChunkBytes (limits : ResolvedLimits) (entryBytes extractedBytes bytes : Z)
    : result (Z * Z) :=
  let entryBytes' := entryBytes + bytes in
  if (rMaxEntryBytes limits <? entryBytes')%Z then Err ErrEntrySize
  else
    let extractedBytes' := extractedBytes + bytes in
    if (rMaxExtractedBytes limits <? extractedBytes')%Z then Err ErrExtractedSize
    else Ok (entryBytes', extractedBytes').

(** The chunks of [pipeline(readable, budgetTransform, writeStream)]:
    each chunk is counted by the transform before it is passed on. *)
Fixpoint pump (limits : ResolvedLimits) (outPath : string)
    (chunks : list (list Byte.byte)) (entryBytes extractedBytes : Z) : M Z :=
  match chunks with
  | [] => ret extractedBytes
  | chunk :: rest =>
      let! counts := lift (onChunkBytes limits entryBytes extractedBytes (byteLength chunk)) in
      run! fs_write outPath chunk in
      pump limits outPath rest (fst counts) (snd counts)
  end.

(** The guarded write of one file entry, with its cleanup. *)
Definition write_entry (limits : ResolvedLimits) (outPath : string)
    (d : EntryData) (extractedBytes : Z) : M Z :=
  try_cleanup
    match d with
    | Buffered buf =>
        let! counts := lift (onChunkBytes limits 0 extractedBytes (byteLength buf)) in
        run! fs_writeFile outPath buf in
        ret (snd counts)
    | Streamed chunks =>
        run! fs_open outPath in
        pump limits outPath chunks 0 extractedBytes
    end
    (swallow (fs_unlink outPath)).

(** ToInt32, the operand conversion of the bitwise operators *)
Definition ToInt32 (z : Z) : Z := (z + 2 ^ 31) mod 2 ^ 32 - 2 ^ 31.

(** [entry.unixPermissions & 0o777] *)
Definition permission_bits (u : Z) : Z := Z.land (ToInt32 u) 511.

(** The best-effort permission restore. *)
Definition restore_mode (outPath : string) (e : ZipEntry) : M unit :=
  match unixPermissions e with
  | Some u =>
      let mode := permission_bits u in
      if negb (mode =? 0)%Z then swallow (fs_chmod outPath mode) else ret tt
  | None => ret tt
  end.

(** One iteration of the loop over the entries; the result is the
    running [extractedBytes]. *)
Definition extract_entry (destDir : string) (strip : number) (limits : ResolvedLimits)
    (extractedBytes : Z) (e : ZipEntry) : M Z :=
  run! lift (validateArchiveEntryPath (name e)) in
  match stripArchivePath (name e) strip with
  | None => ret extractedBytes
  | Some relPath =>
      run! lift (validateArchiveEntryPath relPath) in
      let! outPath := lift (resolveCheckedOutPath (cwd host) destDir relPath (name e)) in
      if dir e then
        (run! fs_mkdir outPath in ret extractedBytes)
      else
        (run! fs_mkdir (Path.dirname outPath) in
         let! extractedBytes' := write_entry limits outPath (content e) extractedBytes in
         run! restore_mode outPath e in
         ret extractedBytes')
  end.

Fixpoint extract_entries (destDir : string) (strip : number) (limits : ResolvedLimits)
    (extractedBytes : Z) (entries : list ZipEntry) : M unit :=
  match entries with
  | [] => ret tt
  | e :: rest =>
      let! extractedBytes' := extract_entry destDir strip limits extractedBytes e in
      extract_entries destDir strip limits extractedBytes' rest
  end.

(** [extractZip]; [archive] is what is found at [archivePath]. *)
Definition extractZip (archivePath : string) (archive : option ZipFile) (destDir : string)
    (stripComponents : option number) (limits : option ArchiveExtractLimits) : M unit :=
  let limits := resolveExtractLimits limits in
  match archive with
  | None => throw (ErrHost "stat" archivePath)
  | Some zf =>
      if (rMaxArchiveBytes limits <? zf_size zf)%Z then throw ErrArchiveSize
      else
        match zf_files zf with
        | None => throw (ErrHost "loadAsync" archivePath)
        | Some entries =>
            let strip := resolveStrip stripComponents in
            if (rMaxEntries limits <? Z.of_nat (length entries))%Z then throw ErrEntryCount
            else extract_entries destDir strip limits 0 entries
        end
  end.

(** *** The tar side: the [onReadEntry] hook *)

(** The fields of a tar [ReadEntry] the hook reads. *)
Record TarEntry := {
  path : string;
  type : string;
  size : option number            (* [None]: not a number *)
}.

(** the hook's [archiveEntrySize] *)
Definition archiveEntrySize (e : TarEntry) : Z :=
  match size e with
  | Some (Fin q) => Z.max 0 (Qfloor q)
  | _ => 0
  end.

Definition is_link_like (t : string) : bool :=
  String.eqb t "SymbolicLink" || String.eqb t "Link" || String.eqb t "BlockDevice"
  || String.eqb t "CharacterDevice" || String.eqb t "FIFO" || String.eqb t "Socket".

(** The closure variables of the tar branch: two numbers, which hold
    integers here and are added as doubles. *)
Record TarCounters := {
  entryCount : Z;
  tarExtractedBytes : Z
}.

Inductive verdict :=
| Skipped                        (* the hook returned early: nothing is left of the path *)
| Passed                         (* the hook ran to its end *)
| Aborted (e : ArchiveError).    (* the hook called [this.abort(e)] *)

(** [onReadEntry] *)
Definition onReadEntry (destDir : string) (strip : number) (limits : ResolvedLimits)
    (c : TarCounters) (e : TarEntry) : TarCounters * verdict :=
  match validateArchiveEntryPath (path e) with
  | Err err => (c, Aborted err)
  | Ok _ =>
  match stripArchivePath (path e) strip with
  | None => (c, Skipped)
  | Some relPath =>
  match validateArchiveEntryPath relPath with
  | Err err => (c, Aborted err)
  | Ok _ =>
  match resolveCheckedOutPath (cwd host) destDir relPath (path e) with
  | Err err => (c, Aborted err)
  | Ok _ =>
      if is_link_like (type e) then (c, Aborted (ErrLink (path e)))
      else
        let c1 := {| entryCount := double_add (entryCount c) 1;
                     tarExtractedBytes := tarExtractedBytes c |} in
        if (rMaxEntries limits <? entryCount c1)%Z then (c1, Aborted ErrEntryCount)
        else if (rMaxEntryBytes limits <? archiveEntrySize e)%Z then (c1, Aborted ErrEntrySize)
        else
          let c2 := {| entryCount := entryCount c1;
                       tarExtractedBytes :=
                         double_add (tarExtractedBytes c1) (archiveEntrySize e) |} in
          if (rMaxExtractedBytes limits <? tarExtractedBytes c2)%Z
          then (c2, Aborted ErrExtractedSize)
          else (c2, Passed)
  end end end end.

(** Modelled from the spec: the entry loop of the tar library (an npm
    dependency, not among the sources), after section 4.5: the hook is
    invoked for every entry, in archive order, before any byte of the
    entry is written, and a failure in it aborts the whole operation at
    once, the extraction rejecting with the error given to [abort].  The
    result lists the entries the hook did not abort on, those it passed and
    those it returned early on alike; what the unpacker writes for them is
    the library's own work. *)
Fixpoint run_hook (destDir : string) (strip : number) (limits : ResolvedLimits)
    (c : TarCounters) (entries : list TarEntry) : list (TarEntry * verdict) * result unit :=
  match entries with
  | [] => ([], Ok tt)
  | e :: rest =>
      match onReadEntry destDir strip limits c e with
      | (_, Aborted err) => ([], Err err)
      | (c', v) =>
          let '(seen, r) := run_hook destDir strip limits c' rest in
          ((e, v) :: seen, r)
      end
  end.

(** The tar branch of [extractArchive], less its timeout. *)
Definition extractTar (entries : list TarEntry) (destDir : string)
    (stripComponents : option number) (limits : option ArchiveExtractLimits)
    : list (TarEntry * verdict) * result unit :=
  run_hook destDir (resolveStrip stripComponents) (resolveExtractLimits limits)
    {| entryCount := 0; tarExtractedBytes := 0 |} entries.

End Host.

(** [resolvePackedRootDir] over what the file system shows. *)
Definition resolvePackedRootDir (v : view) (extractDir : string) : result string :=
  let direct := Path.join [extractDir; "package"] in
  let fallback :=
    match readdir v extractDir with
    | None => Err (ErrHost "scandir" extractDir)
    | Some entries =>
        let dirs := List.map d_name (List.filter d_isDirectory entries) in
        match dirs with
        | [onlyDir] =>
            if Js.is_empty onlyDir then Err ErrLayoutNoPackageDir
            else Ok (Path.join [extractDir; onlyDir])
        | _ => Err (ErrLayoutDirs dirs)
        end
    end in
  match stat_isDirectory v direct with
  | Some true => Ok direct
  | _ => fallback
  end.

End Extract.

(** ** The archive kind *)
Module Kind.

Inductive ArchiveKind :=
| Tar
| Zip.

Definition TAR_SUFFIXES : list string := [".tgz"; ".tar.gz"; ".tar"].

(** [resolveArchiveKind]; [None] is [null] *)
Definition resolveArchiveKind (filePath : string) : option ArchiveKind :=
  let lower := Js.toLowerCase filePath in
  if Js.endsWith lower ".zip" then Some Zip
  else if existsb (fun suffix => Js.endsWith lower suffix) TAR_SUFFIXES then Some Tar
  else None.

End Kind.

(** ** The earlier variant

    The source file also keeps the engine as it was before the limits
    came in (its first 262 lines).  The validator, the containment check
    and the permission restore are the same text in both; the stripper,
    the zip loop and the tar callback differ and are given here. *)
Module Earlier.

Import Num Archive Fs Extract.

(** [stripArchivePath], earlier variant: the path is normalized before
    it is split into parts *)
Definition stripArchivePath (entryPath : string) (stripComponents : number) : option string :=
  let normalized := Path.normalize (normalizeArchivePath entryPath) in
  if is_self_reference normalized then None
  else
    let parts := List.filter keep_part (Js.split_slash normalized) in
    let strip := max0 (floor stripComponents) in
    let stripped :=
      if is_zero strip then Js.join_slash parts
      else Js.join_slash (slice_from strip parts) in
    let result := Path.normalize stripped in
    if is_self_reference result then None else Some result.

(** What the [filter] callback of the tar branch reads of its second
    argument: [type] when it is a string, and what [isSymbolicLink()]
    returns when it is a function. *)
Record FilterEntry := {
  f_type : option string;
  f_isSymbolicLink : option bool
}.

Section Host.

Variable host : Host.

(** the [try] block of the callback: what it returns, or what it throws *)
Definition filter_checks (destDir : string) (strip : number) (entryPath : string)
    (entry : FilterEntry) : result bool :=
  match validateArchiveEntryPath entryPath with
  | Err err => Err err
  | Ok _ =>
      let entryType := f_type entry in
      let isSymlink := default false (f_isSymbolicLink entry) in
      if bool_decide (entryType = Some "SymbolicLink")
         || bool_decide (entryType = Some "Link") || isSymlink
      then Err (ErrLink entryPath)
      else
        match stripArchivePath entryPath strip with
        | None => Ok false
        | Some relPath =>
            match validateArchiveEntryPath relPath with
            | Err err => Err err
            | Ok _ =>
                match resolveCheckedOutPath (cwd host) destDir relPath entryPath with
                | Err err => Err err
                | Ok _ => Ok true
                end
            end
        end
  end.

(** The [filter] callback with its closure variable [firstError]: the
    entry is let through or not, and the first error thrown is kept. *)
Definition filter (destDir : string) (strip : number) (firstError : option ArchiveError)
    (entryPath : string) (entry : FilterEntry) : option ArchiveError * bool :=
  match filter_checks destDir strip entryPath entry with
  | Ok answer => (firstError, answer)
  | Err err =>
      (match firstError with None => Some err | Some _ => firstError end, false)
  end.

(** Modelled from the spec: the unpacker of the tar library (an npm
    dependency, not among the sources) invokes the callback once for
    every entry, in archive order (section 4.5).  The callback over those
    entries: the answers it gives, and [firstError] at the end. *)
Fixpoint filter_all (destDir : string) (strip : number) (firstError : option ArchiveError)
    (entries : list (string * FilterEntry)) : option ArchiveError * list bool :=
  match entries with
  | [] => (firstError, [])
  | (entryPath, entry) :: rest =>
      let '(firstError', answer) := filter destDir strip firstError entryPath entry in
      let '(final, answers) := filter_all destDir strip firstError' rest in
      (final, answer :: answers)
  end.

(** what [entry.async("nodebuffer")] resolves to: all the bytes *)
Definition nodebuffer (d : EntryData) : list Byte.byte :=
  match d with
  | Buffered buf => buf
  | Streamed chunks => List.concat chunks
  end.

(** One iteration of the earlier zip loop. *)
Definition extract_entry (destDir : string) (strip : number) (e : ZipEntry) : M unit :=
  run! lift (validateArchiveEntryPath (name e)) in
  match stripArchivePath (name e) strip with
  | None => ret tt
  | Some relPath =>
      run! lift (validateArchiveEntryPath relPath) in
      let! outPath := lift (resolveCheckedOutPath (cwd host) destDir relPath (name e)) in
      if dir e then fs_mkdir outPath
      else
        (run! fs_mkdir (Path.dirname outPath) in
         run! fs_writeFile host outPath (nodebuffer (content e)) in
         restore_mode host outPath e)
  end.

Fixpoint extract_entries (destDir : string) (strip : number) (entries : list ZipEntry)
    : M unit :=
  match entries with
  | [] => ret tt
  | e :: rest =>
      run! extract_entry destDir strip e in
      extract_entries destDir strip rest
  end.

(** [extractZip], earlier variant: no limit is looked at; [archive] is
    what is found at [archivePath] *)
Definition extractZip (archivePath : string) (archive : option ZipFile) (destDir : string)
    (stripComponents : option number) : M unit :=
  match archive with
  | None => throw (ErrHost "open" archivePath)
  | Some zf =>
      match zf_files zf with
      | None => throw (ErrHost "loadAsync" archivePath)
      | Some entries => extract_entries destDir (resolveStrip stripComponents) entries
      end
  end.

End Host.

End Earlier.

(** ** The specification's algorithms, in its own words

    Section 4.2 (the five steps of the validator) and section 4.3 (the
    stripper) of the specification, kept apart from the code so that the
    two can be compared. *)
Module Spec.

Import Archive.

(** every backslash becomes a forward slash *)
Definition to_forward_slashes (p : string) : string :=
  string_of_list_ascii
    (List.map (fun c => if Ascii.eqb c "\"%char then "/"%char else c)
              (list_ascii_of_string p)).

Definition between (lo hi c : ascii) : bool :=
  (N_of_ascii lo <=? N_of_ascii c)%N && (N_of_ascii c <=? N_of_ascii hi)%N.

(** the Windows drive prefix [^[A-Za-z]:[\\/]] *)
Definition matches_drive_prefix (p : string) : bool :=
  match String.get 0 p, String.get 1 p, String.get 2 p with
  | Some c, Some k, Some d =>
      (between "A" "Z" c || between "a" "z" c)
      && Ascii.eqb k ":"%char
      && (Ascii.eqb d "\"%char || Ascii.eqb d "/"%char)
  | _, _, _ => false
  end.

(** Lexical normalization, segment by segment.  [kept] holds the
    segments kept so far, the last one first: an empty segment or "."
    changes nothing; ".." removes the last kept segment, and where there
    is none to remove (or only ".." before it) it is kept itself when the
    path may climb above its start. *)
Definition collapse_step (allowAboveRoot : bool) (kept : list string) (s : string)
    : list string :=
  if String.eqb s "" || String.eqb s "." then kept
  else if String.eqb s ".." then
    match kept with
    | top :: below =>
        if String.eqb top ".." then (if allowAboveRoot then ".." :: kept else kept)
        else below
    | [] => if allowAboveRoot then [".."] else []
    end
  else s :: kept.

Definition collapse (allowAboveRoot : bool) (segs : list string) : list string :=
  List.rev (fold_left (collapse_step allowAboveRoot) segs []).

(** POSIX lexical normalization of a path: its segments collapsed, a
    leading and a trailing separator kept, "." for the empty path. *)
Definition lexical_normalize (p : string) : string :=
  if String.eqb p "" then "."
  else
    let absolute := String.prefix "/" p in
    let trailing := Js.endsWith_slash p in
    let body := Js.join_slash (collapse (negb absolute) (Js.split_slash p)) in
    if String.eqb body "" then
      if absolute then "/" else if trailing then "./" else "."
    else
      (if absolute then "/" else "") ++ body ++ (if trailing then "/" else "").

(** Steps 1 to 5; [None] accepts, [Some k] fails with an error of
    class [k]. *)
Definition validateEntryPath (p : string) : option ErrorKind :=
  if String.eqb p "" || String.eqb p "." || String.eqb p "./" then None
  else if matches_drive_prefix p then Some PathEscape
  else
    let normalized := lexical_normalize (to_forward_slashes p) in
    if String.eqb normalized ".." || String.prefix "../" normalized then Some PathEscape
    else if String.prefix "/" normalized || String.prefix "//" normalized then Some PathEscape
    else None.

(** Split on "/", discard empty and "." segments, drop the first [n],
    rejoin, normalize again; nothing remains when the normalized
    remainder is the empty relative path ".". *)
Definition stripComponents (p : string) (n : nat) : option string :=
  let segments :=
    List.filter (fun s => negb (String.eqb s "") && negb (String.eqb s "."))
                (Js.split_slash (to_forward_slashes p)) in
  let remaining := lexical_normalize (Js.join_slash (drop n segments)) in
  if String.eqb remaining "." then None else Some remaining.

(** Section 3, ExtractionLimits as the code resolves one of them: the
    floor of a finite value that is at least 1, else the default; never
    less than 1. *)
Definition resolves_to (value : option Num.number) (dflt r : Z) : Prop :=
  (forall q, value = Some (Num.Fin q) -> (1 <= q)%Q -> r = Qfloor q)
  /\ ((forall q, value = Some (Num.Fin q) -> ~ (1 <= q)%Q) -> r = dflt)
  /\ (0 < r)%Z.

End Spec.

(** * The vocabulary of the statements *)

Import Num Archive Fs Extract.

Fixpoint slashfree (s : string) : bool :=
  match s with
  | EmptyString => true
  | String c s' => negb (Js.is_slash c) && slashfree s'
  end.

(** a path segment: not empty and without a separator *)
Definition segment (s : string) : Prop := s <> "" /\ slashfree s = true.

(** segments joined by single separators *)
Definition joined (r : string) : Prop :=
  exists segs, Forall segment segs /\ r = Js.join_slash segs.

(** a run of dots, and the normalizer's count of it: the length of a
    segment made of dots only, else -1 *)
Fixpoint all_dots (s : string) : bool :=
  match s with
  | EmptyString => true
  | String c s' => Ascii.eqb c Js.CHAR_DOT && all_dots s'
  end.

Definition dots_of (s : string) : Z :=
  if all_dots s then Z.of_nat (String.length s) else (-1)%Z.

(** the loop variables of [normalizeString] when the segments in [kept]
    (last first) have been kept and [cur] has been read of the next *)
Definition tracks (st : Path.nstate) (kept : list string) (cur : string) : Prop :=
  Path.res st = Js.join_slash (List.rev kept)
  /\ Forall segment kept
  /\ Path.lastSegmentLength st
     = match kept with top :: _ => String.length top | [] => 0%nat end
  /\ Path.seg st = cur
  /\ slashfree cur = true
  /\ Path.dots st = dots_of cur.

(** the path a call into [node:fs] is aimed at *)
Definition call_target (c : call) : string :=
  match c with
  | CMkdir p | CWriteFile p _ | COpen p | CWrite p _ | CUnlink p | CChmod p _ => p
  end.

(** [p] lies strictly within the directory whose separator-terminated
    path is [base] *)
Definition within (base p : string) : Prop := Js.startsWith p base = true.

(** A call made for the entry stored as [entryName]: the entry's output
    path is [destDir] resolved with the stripped path, it lies within
    [destDir], and the call is aimed at it or creates its parent
    directory. *)
Definition made_for (host : Host) (destDir : string) (strip : number)
    (entryName : string) (c : call) : Prop :=
  exists relPath,
    stripArchivePath entryName strip = Some relPath
    /\ within (resolveSafeBaseDir (cwd host) destDir)
              (Path.resolve (cwd host) [destDir; relPath])
    /\ (call_target c = Path.resolve (cwd host) [destDir; relPath]
        \/ c = CMkdir (Path.dirname (Path.resolve (cwd host) [destDir; relPath]))).

(** the entries of an archive, if it can be read *)
Definition zip_entries (archive : option ZipFile) : list ZipEntry :=
  match archive with
  | Some zf => default [] (zf_files zf)
  | None => []
  end.

(** every call a computation adds to the log satisfies [P] *)
Definition logs {A} (c : M A) (P : call -> Prop) : Prop :=
  forall w, exists new, calls (snd (c w)) = (calls w ++ new)%list /\ Forall P new.

Definition is_chmod (c : call) : bool :=
  match c with CChmod _ _ => true | _ => false end.

Definition is_passed (ev : TarEntry * verdict) : bool :=
  match snd ev with Passed => true | _ => false end.


(** the decompressed size of an entry *)
Definition entry_bytes (d : EntryData) : Z :=
  match d with
  | Buffered buf => byteLength buf
  | Streamed chunks => fold_right (fun chunk acc => byteLength chunk + acc)%Z 0%Z chunks
  end.

(** the bytes a list of calls hands to the file system *)
Definition written_bytes (cs : list call) : Z :=
  fold_right (fun c acc =>
                match c with
                | CWrite _ chunk => byteLength chunk + acc
                | CWriteFile _ buf => byteLength buf + acc
                | _ => acc
                end)%Z 0%Z cs.

(** The output path of an entry that comes through the path steps of
    the loop body: validation, stripping, validation, containment. *)
Definition entry_out_path (host : Host) (destDir : string) (strip : number)
    (entryName : string) : option string :=
  match validateArchiveEntryPath entryName, stripArchivePath entryName strip with
  | Ok _, Some relPath =>
      match validateArchiveEntryPath relPath,
            resolveCheckedOutPath (cwd host) destDir relPath entryName with
      | Ok _, Ok outPath => Some outPath
      | _, _ => None
      end
  | _, _ => None
  end.

(** a node without its permission bits *)
Definition erase_mode (n : node) : node :=
  match n with File d _ => File d 0 | Dir => Dir end.

(** two file systems with the same directories and the same files
    holding the same bytes *)
Definition same_data (m1 m2 : gmap string node) : Prop :=
  erase_mode <$> m1 = erase_mode <$> m2.

(** two worlds that differ in permission bits at most *)
Definition same_world (w1 w2 : world) : Prop :=
  calls w1 = calls w2 /\ same_data (nodes w1) (nodes w2).

(** two computations that return the same and keep worlds the same *)
Definition agree {A} (c1 c2 : M A) : Prop :=
  forall w1 w2, same_world w1 w2 ->
    fst (c1 w1) = fst (c2 w2) /\ same_world (snd (c1 w1)) (snd (c2 w2)).

(** two computations that keep worlds the same, whatever they return *)
Definition agree_world {A} (c1 c2 : M A) : Prop :=
  forall w1 w2, same_world w1 w2 -> same_world (snd (c1 w1)) (snd (c2 w2)).

(** an operation of the file system that does not look at permission bits *)
Definition blind (f1 f2 : gmap string node -> option (gmap string node)) : Prop :=
  forall m1 m2, same_data m1 m2 ->
    match f1 m1, f2 m2 with
    | Some a, Some b => same_data a b
    | None, None => True
    | _, _ => False
    end.


(** The file-type bits of a stored Unix mode: [S_IFMT] is 0o170000 and
    [S_IFLNK], a symbolic link, is 0o120000. *)
Definition declares_symlink (e : ZipEntry) : bool :=
  match unixPermissions e with
  | Some u => (Z.land u 61440 =? 40960)%Z
  | None => false
  end.

(** a host for the examples: working directory /home/u, umask 0o022
    (new files get 0o644), no call refused *)
Definition example_host : Host :=
  {| cwd := "/home/u"; create_mode := 420;
     chmod_denied := fun _ => false; unlink_denied := fun _ => false |}.

(** the bytes of an entry *)
Definition entry_data (d : EntryData) : list Byte.byte :=
  match d with
  | Buffered buf => buf
  | Streamed chunks => List.concat chunks
  end.

(** the permission bits a write leaves on [p]: those of the file it
    replaces, else the mode new files get *)
Definition written_mode (host : Host) (m : gmap string node) (p : string) : Z :=
  match m !! p with
  | Some (File _ mode) => mode
  | _ => create_mode host
  end.

(** ** Further vocabulary *)

Import Kind.

(** a segment that names something: neither "." nor ".." *)
Definition plain (s : string) : Prop := segment s /\ s <> "." /\ s <> "..".

(** [k] times "..", then names: the segments of a normalized relative
    path *)
Definition climbing (k : nat) (names : list string) : list string :=
  (List.repeat ".." k ++ names)%list.

(** the segments the normalizer has kept, last first: names on top of
    [k] times "..", the names all satisfying [Q] *)
Definition kept_shape (Q : string -> Prop) (allowAboveRoot : bool) (kept : list string)
    : Prop :=
  exists k rnames,
    kept = (rnames ++ List.repeat ".." k)%list
    /\ Forall plain rnames /\ Forall Q rnames
    /\ (allowAboveRoot = false -> k = 0%nat).

(** a string without a backslash *)
Definition backslashfree (s : string) : Prop := normalizeArchivePath s = s.

(** the raw segments of a stored path, as the stripper counts them *)
Definition raw_parts (entryPath : string) : list string :=
  List.filter keep_part (Js.split_slash (normalizeArchivePath entryPath)).

(** a verdict of the validator with the path it quotes replaced *)
Definition quoting (entryPath : string) (r : result unit) : result unit :=
  match r with
  | Err (ErrDrivePath _) => Err (ErrDrivePath entryPath)
  | Err (ErrEscapes _) => Err (ErrEscapes entryPath)
  | Err (ErrAbsolute _) => Err (ErrAbsolute entryPath)
  | other => other
  end.

(** what both variants of the stripper do with the parts they have:
    drop, rejoin, normalize *)
Definition strip_tail (parts : list string) (stripComponents : number) : option string :=
  let strip := max0 (floor stripComponents) in
  let stripped :=
    if is_zero strip then Js.join_slash parts
    else Js.join_slash (slice_from strip parts) in
  let result := Path.normalize stripped in
  if is_self_reference result then None else Some result.

(** a stored path none of whose raw parts is ".." *)
Definition no_dotdot (entryPath : string) : Prop :=
  Forall (fun s => s <> "..") (raw_parts entryPath).

(** every run of [c] adds calls to the log, and its result and the calls
    it adds are related by [R] *)
Definition adds {A} (c : M A) (R : result A -> list call -> Prop) : Prop :=
  forall w, exists new, calls (snd (c w)) = (calls w ++ new)%list /\ R (fst (c w)) new.

(** The byte counts of one run: with [entryBytes] and [extractedBytes]
    counted before it, the bytes it hands to the file system keep both
    counts within their limits, and on success it returns the new
    [extractedBytes]. *)
Definition within_budget (limits : ResolvedLimits) (entryBytes extractedBytes : Z)
    (r : result Z) (new : list call) : Prop :=
  ((entryBytes <= rMaxEntryBytes limits)%Z ->
   (entryBytes + written_bytes new <= rMaxEntryBytes limits)%Z)
  /\ ((extractedBytes <= rMaxExtractedBytes limits)%Z ->
      (extractedBytes + written_bytes new <= rMaxExtractedBytes limits)%Z)
  /\ (forall extractedBytes', r = Ok extractedBytes' ->
        extractedBytes' = (extractedBytes + written_bytes new)%Z).

Definition is_unlink (c : call) : bool :=
  match c with CUnlink _ => true | _ => false end.

(** The calls of a run that deletes nothing unless it fails, and then
    at most one file, as its last call. *)
Definition deletes_last {A} (r : result A) (new : list call) : Prop :=
  match r with
  | Ok _ => Forall (fun c => is_unlink c = false) new
  | Err _ =>
      exists init last,
        new = (init ++ last)%list
        /\ Forall (fun c => is_unlink c = false) init
        /\ (last = [] \/ exists p, last = [CUnlink p])
  end.

(** A call that, if it deletes, deletes at the output path of a file
    entry of the archive. *)
Definition cleanup_unlink (host : Host) (destDir : string) (strip : number)
    (entries : list ZipEntry) (c : call) : Prop :=
  match c with
  | CUnlink p =>
      exists e, In e entries /\ dir e = false
                /\ entry_out_path host destDir strip (name e) = Some p
  | _ => True
  end.

(** A call that, if it changes permissions, sets some of the nine
    permission bits and nothing else, on the file written for a file
    entry of the archive. *)
Definition modest_chmod (host : Host) (destDir : string) (strip : number)
    (entries : list ZipEntry) (c : call) : Prop :=
  match c with
  | CChmod p mode =>
      (1 <= mode <= 511)%Z
      /\ exists e, In e entries /\ dir e = false
                   /\ entry_out_path host destDir strip (name e) = Some p
  | _ => True
  end.

(** the calls that hand an entry's content to the file at [out]: one
    [writeFile] of a buffer, or the opening of a write stream and one
    write for every chunk *)
Definition content_calls (out : string) (d : EntryData) : list call :=
  match d with
  | Buffered buf => [CWriteFile out buf]
  | Streamed chunks => COpen out :: List.map (CWrite out) chunks
  end.

(** the [chmod] of the permission restore, if there is one *)
Definition mode_calls (out : string) (e : ZipEntry) : list call :=
  match unixPermissions e with
  | Some u =>
      if negb (permission_bits u =? 0)%Z then [CChmod out (permission_bits u)] else []
  | None => []
  end.

(** the calls of the loop body for an entry that is extracted *)
Definition entry_calls (host : Host) (destDir : string) (strip : number) (e : ZipEntry)
    : list call :=
  match entry_out_path host destDir strip (name e) with
  | None => []
  | Some out =>
      if dir e then [CMkdir out]
      else (CMkdir (Path.dirname out) :: content_calls out (content e)
            ++ mode_calls out e)%list
  end.

(** the bytes a list of calls hands to the file system, in order *)
Definition bytes_handed (cs : list call) : list Byte.byte :=
  fold_right (fun c acc =>
                match c with
                | CWrite _ chunk => chunk ++ acc
                | CWriteFile _ buf => buf ++ acc
                | _ => acc
                end)%list [] cs.

(** the sizes declared by the entries of a run that the hook passed *)
Definition passed_bytes (seen : list (TarEntry * verdict)) : Z :=
  fold_right (fun ev acc => if is_passed ev then archiveEntrySize (fst ev) + acc else acc)%Z
             0%Z seen.

(** what the earlier callback answers for one entry on its own: [true]
    when its checks pass and something is left of the path *)
Definition lets_through (host : Host) (destDir : string) (strip : number)
    (item : string * Earlier.FilterEntry) : bool :=
  match Earlier.filter_checks host destDir strip (fst item) (snd item) with
  | Ok answer => answer
  | Err _ => false
  end.

(** what the earlier callback throws for one entry on its own *)
Definition thrown (host : Host) (destDir : string) (strip : number)
    (item : string * Earlier.FilterEntry) : option ArchiveError :=
  match Earlier.filter_checks host destDir strip (fst item) (snd item) with
  | Ok _ => None
  | Err err => Some err
  end.

(** the first error the earlier callback throws over a list of entries *)
Fixpoint first_thrown (host : Host) (destDir : string) (strip : number)
    (entries : list (string * Earlier.FilterEntry)) : option ArchiveError :=
  match entries with
  | [] => None
  | item :: rest =>
      match thrown host destDir strip item with
      | Some err => Some err
      | None => first_thrown host destDir strip rest
      end
  end.

(** a computation that, when it fails, fails with an error in [P] *)
Definition raises {A} (c : M A) (P : ArchiveError -> Prop) : Prop :=
  forall w err, fst (c w) = Err err -> P err.

(** the errors of the zip loop: a path error, a failure of the host, or
    one of the two byte limits *)
Definition loop_error (err : ArchiveError) : Prop :=
  error_kind err = PathEscape \/ error_kind err = HostFailure
  \/ err = ErrEntrySize \/ err = ErrExtractedSize.

(** a computation that keeps a property of the file system *)
Definition preserves (I : gmap string node -> Prop) {A} (c : M A) : Prop :=
  forall w, I (nodes w) -> I (nodes (snd (c w))).

(** * Properties *)

(** ** The platform model on examples *)

Example normalize_collapses_dotdot : Path.normalize "a/../../b" = "../b".
Proof. reflexivity. Qed.

Example normalize_absolute : Path.normalize "/a//b/./c/../d/" = "/a/b/d/".
Proof. reflexivity. Qed.

Example normalize_to_dot : Path.normalize "a/.." = ".".
Proof. reflexivity. Qed.

Example normalize_dot_slash : Path.normalize "./" = "./".
Proof. reflexivity. Qed.

Example normalize_keeps_leading_dotdot :
  Path.normalize "../../etc/passwd" = "../../etc/passwd".
Proof. reflexivity. Qed.

Example normalize_root_parent : Path.normalize "/.." = "/".
Proof. reflexivity. Qed.

Example normalize_dotted_names : Path.normalize "..a/.b/..." = "..a/.b/...".
Proof. reflexivity. Qed.

Example resolve_relative_dest :
  Path.resolve "/home/u" ["out"; "a/../b"] = "/home/u/out/b".
Proof. reflexivity. Qed.

Example resolve_absolute_dest : Path.resolve "/home/u" ["/tmp/x/"; "../y"] = "/tmp/y".
Proof. reflexivity. Qed.

Example dirname_nested : Path.dirname "/a/b/c" = "/a/b".
Proof. reflexivity. Qed.

Example dirname_top : Path.dirname "/a" = "/".
Proof. reflexivity. Qed.

Example join_package : Path.join ["/x/out"; "package"] = "/x/out/package".
Proof. reflexivity. Qed.

Example validate_rejects_traversal :
  validateArchiveEntryPath "../../etc/passwd" = Err (ErrEscapes "../../etc/passwd")
  /\ validateArchiveEntryPath "a/../../b" = Err (ErrEscapes "a/../../b").
Proof. split; reflexivity. Qed.

Example validate_rejects_drive :
  validateArchiveEntryPath "C:\Windows\System32\x"
  = Err (ErrDrivePath "C:\Windows\System32\x").
Proof. reflexivity. Qed.

Example validate_rejects_unc :
  validateArchiveEntryPath "\\server\share" = Err (ErrAbsolute "\\server\share").
Proof. reflexivity. Qed.

Example strip_cancelling_segments : stripArchivePath "a/.." (of_Z 0) = None.
Proof. reflexivity. Qed.

Example checked_path_inside :
  resolveCheckedOutPath "/home/u" "/tmp/x" "a/b" "pkg/a/b" = Ok "/tmp/x/a/b".
Proof. reflexivity. Qed.

Example checked_path_sibling :
  resolveCheckedOutPath "/home/u" "/tmp/x" "../xy" "pkg/../xy" = Err (ErrEscapes "pkg/../xy").
Proof. reflexivity. Qed.

(** ** Strings *)

Lemma is_empty_true (s : string) : Js.is_empty s = true <-> s = "".
Proof. destruct s; simpl; split; congruence. Qed.

Lemma is_empty_false (s : string) : Js.is_empty s = false <-> s <> "".
Proof. destruct s; simpl; split; congruence. Qed.

Lemma is_empty_eqb (s : string) : Js.is_empty s = String.eqb s "".
Proof. destruct s; reflexivity. Qed.

Lemma append_nil_l (t : string) : "" ++ t = t.
Proof. reflexivity. Qed.

Lemma append_cons (a : ascii) (s t : string) : String a s ++ t = String a (s ++ t).
Proof. reflexivity. Qed.

Lemma append_empty_r (s : string) : s ++ "" = s.
Proof. induction s; rewrite ?append_nil_l, ?append_cons; congruence. Qed.

Lemma append_assoc (a b c : string) : (a ++ b) ++ c = a ++ (b ++ c).
Proof. induction a; rewrite ?append_nil_l, ?append_cons; congruence. Qed.

Lemma length_append (a b : string) :
  String.length (a ++ b) = (String.length a + String.length b)%nat.
Proof. induction a; rewrite ?append_nil_l, ?append_cons; simpl; congruence. Qed.

Lemma length_zero (s : string) : String.length s = 0%nat <-> s = "".
Proof. destruct s; simpl; split; congruence. Qed.

Lemma replaceAll_as_map (a b : ascii) (s : string) :
  Js.replaceAll a b s =
  string_of_list_ascii
    (List.map (fun c => if Ascii.eqb c a then b else c) (list_ascii_of_string s)).
Proof. induction s; simpl; congruence. Qed.

Lemma normalizeArchivePath_spec (p : string) :
  normalizeArchivePath p = Spec.to_forward_slashes p.
Proof. apply replaceAll_as_map. Qed.

Lemma is_ascii_letter_between (c : ascii) :
  Js.is_ascii_letter c = (Spec.between "A" "Z" c || Spec.between "a" "z" c).
Proof.
  destruct c as [[] [] [] [] [] [] [] []]; reflexivity.
Qed.

Lemma isWindowsDrivePath_spec (p : string) :
  isWindowsDrivePath p = Spec.matches_drive_prefix p.
Proof.
  unfold isWindowsDrivePath, Spec.matches_drive_prefix.
  destruct p as [|c [|k [|d rest]]]; simpl; try reflexivity.
  now rewrite is_ascii_letter_between.
Qed.

Lemma prefix_cons (a b : ascii) (s t : string) :
  String.prefix (String a s) (String b t) =
  if ascii_dec a b then String.prefix s t else false.
Proof. reflexivity. Qed.

Lemma prefix_nil (t : string) : String.prefix "" t = true.
Proof. now destruct t. Qed.

Lemma isAbsolute_prefix (s : string) : Path.isAbsolute s = String.prefix "/" s.
Proof.
  destruct s as [|c s]; [reflexivity|].
  rewrite prefix_cons, prefix_nil. unfold Path.isAbsolute, Js.is_slash.
  destruct (ascii_dec "/" c) as [<-|Hne]; [reflexivity|].
  apply Ascii.eqb_neq. intros ->. now apply Hne.
Qed.

(** ** Segments and the normalizer's result *)

Lemma slashfree_app (a b : string) :
  slashfree (a ++ b) = slashfree a && slashfree b.
Proof.
  induction a as [|c a IH]; rewrite ?append_nil_l, ?append_cons; simpl.
  - reflexivity.
  - rewrite IH. now rewrite andb_assoc.
Qed.

Lemma last_char_app (a b : string) : b <> "" -> Js.last_char (a ++ b) = Js.last_char b.
Proof.
  intros Hb. induction a as [|c a IH]; rewrite ?append_nil_l, ?append_cons.
  - reflexivity.
  - simpl. rewrite IH. destruct (a ++ b) eqn:E; [|reflexivity].
    destruct a; [now rewrite append_nil_l in E | now rewrite append_cons in E].
Qed.

Lemma slashfree_no_trailing (s : string) :
  slashfree s = true -> Js.endsWith_slash s = false.
Proof.
  unfold Js.endsWith_slash. induction s as [|c s IH]; simpl; [reflexivity|].
  intros [Hc Hs]%andb_true_iff. destruct s as [|d s'].
  - now apply negb_true_iff.
  - now apply IH.
Qed.

Lemma split_slash_aux_slashfree (s cur : string) :
  slashfree cur = true ->
  Forall (fun x => slashfree x = true) (Js.split_slash_aux cur s).
Proof.
  revert cur. induction s as [|c s IH]; intros cur Hcur; simpl.
  - now constructor.
  - destruct (Js.is_slash c) eqn:E.
    + constructor; [exact Hcur | now apply IH].
    + apply IH. rewrite slashfree_app, Hcur. simpl. now rewrite E.
Qed.

Lemma join_slash_cons (p q : string) (rest : list string) :
  Js.join_slash (p :: q :: rest) = p ++ "/" ++ Js.join_slash (q :: rest).
Proof. reflexivity. Qed.

Lemma join_slash_snoc (segs : list string) (x : string) :
  segs <> [] -> Js.join_slash (segs ++ [x]) = Js.join_slash segs ++ "/" ++ x.
Proof.
  induction segs as [|p [|q rest] IH]; intros Hne; [congruence | reflexivity |].
  rewrite <- !app_comm_cons, join_slash_cons, app_comm_cons.
  rewrite IH by discriminate. rewrite join_slash_cons.
  now rewrite !append_assoc.
Qed.

Lemma join_slash_empty (segs : list string) :
  Forall segment segs -> Js.join_slash segs = "" -> segs = [].
Proof.
  destruct segs as [|p [|q rest]]; intros Hs Hj; [reflexivity | |].
  - simpl in Hj. apply Forall_cons in Hs as [[Hp _] _]. congruence.
  - rewrite join_slash_cons in Hj. apply Forall_cons in Hs as [[Hp _] _].
    destruct p; [congruence | now rewrite append_cons in Hj].
Qed.

Lemma joined_no_trailing (r : string) : joined r -> Js.endsWith_slash r = false.
Proof.
  intros (segs & Hs & ->).
  induction segs as [|p [|q rest] IH]; [reflexivity | |].
  - simpl. apply Forall_cons in Hs as [[_ Hp] _]. now apply slashfree_no_trailing.
  - apply Forall_cons in Hs as [_ Hs]. specialize (IH Hs).
    rewrite join_slash_cons. unfold Js.endsWith_slash in *.
    rewrite <- append_assoc, last_char_app; [exact IH|].
    intros E. now apply join_slash_empty in E.
Qed.

Lemma lastIndexOf_aux_slashfree (x : string) (i : nat) (found : option nat) :
  slashfree x = true -> Js.lastIndexOf_slash_aux i found x = found.
Proof.
  revert i found. induction x as [|c x IH]; intros i found; simpl; [reflexivity|].
  intros [Hc Hx]%andb_true_iff. apply negb_true_iff in Hc. rewrite Hc. now apply IH.
Qed.

Lemma lastIndexOf_aux_app (a b : string) (i : nat) (found : option nat) :
  Js.lastIndexOf_slash_aux i found (a ++ b) =
  Js.lastIndexOf_slash_aux (i + String.length a) (Js.lastIndexOf_slash_aux i found a) b.
Proof.
  revert i found. induction a as [|c a IH]; intros i found;
    rewrite ?append_nil_l, ?append_cons; simpl.
  - now rewrite Nat.add_0_r.
  - rewrite IH. now rewrite Nat.add_succ_r.
Qed.

Lemma lastIndexOf_last_separator (a x : string) :
  slashfree x = true -> Js.lastIndexOf_slash (a ++ "/" ++ x) = Some (String.length a).
Proof.
  intros Hx. unfold Js.lastIndexOf_slash.
  rewrite lastIndexOf_aux_app. rewrite append_cons, append_nil_l. simpl.
  now apply lastIndexOf_aux_slashfree.
Qed.

Lemma slice_to_app (a b : string) : Js.slice_to (String.length a) (a ++ b) = a.
Proof.
  unfold Js.slice_to. induction a as [|c a IH]; rewrite ?append_nil_l, ?append_cons; simpl.
  - now destruct b.
  - now rewrite IH.
Qed.

Lemma joined_nil : joined "".
Proof. exists []. split; [constructor | reflexivity]. Qed.

Lemma joined_push (r x : string) :
  joined r -> segment x ->
  joined (if (0 <? String.length r)%nat then r ++ "/" ++ x else x).
Proof.
  intros (segs & Hs & ->) Hx. exists (segs ++ [x])%list. split.
  - apply Forall_app. split; [exact Hs | now constructor].
  - destruct segs as [|p rest].
    + reflexivity.
    + rewrite join_slash_snoc by discriminate.
      destruct (String.length (Js.join_slash (p :: rest))) eqn:E; [|reflexivity].
      apply length_zero, join_slash_empty in E; [discriminate | exact Hs].
Qed.

Lemma joined_pop (r : string) :
  joined r ->
  match Js.lastIndexOf_slash r with
  | None => True
  | Some k => joined (Js.slice_to k r)
  end.
Proof.
  intros (segs & Hs & ->).
  induction segs as [|x init _] using rev_ind; [exact I|].
  apply Forall_app in Hs as [Hinit Hx]. apply Forall_cons in Hx as [[_ Hx] _].
  destruct init as [|p rest].
  - simpl. unfold Js.lastIndexOf_slash. now rewrite lastIndexOf_aux_slashfree.
  - rewrite join_slash_snoc by discriminate.
    rewrite lastIndexOf_last_separator by exact Hx.
    rewrite slice_to_app. now exists (p :: rest).
Qed.

Lemma segment_dotdot : segment "..".
Proof. split; [discriminate | reflexivity]. Qed.

Lemma ns_separator_joined (allow : bool) (st : Path.nstate) :
  joined (Path.res st) -> slashfree (Path.seg st) = true ->
  joined (Path.res (Path.ns_separator allow st))
  /\ Path.seg (Path.ns_separator allow st) = "".
Proof.
  intros Hres Hseg. unfold Path.ns_separator.
  assert (Habove : joined (Path.res
            (if allow
             then {| Path.res := if (0 <? String.length (Path.res st))%nat
                                 then Path.res st ++ "/.." else "..";
                     Path.lastSegmentLength := 2; Path.seg := ""; Path.dots := 0 |}
             else {| Path.res := Path.res st;
                     Path.lastSegmentLength := Path.lastSegmentLength st;
                     Path.seg := ""; Path.dots := 0 |}))).
  { destruct allow; simpl; [|exact Hres].
    apply (joined_push _ ".."); [exact Hres | exact segment_dotdot]. }
  destruct (Js.is_empty (Path.seg st)) eqn:Eempty; simpl; [now split|].
  destruct (Path.dots st =? 1)%Z; simpl; [now split|].
  destruct (Path.dots st =? 2)%Z.
  - destruct (_ || _ || _).
    + destruct (2 <? String.length (Path.res st))%nat.
      * pose proof (joined_pop _ Hres) as Hpop.
        destruct (Js.lastIndexOf_slash (Path.res st)); simpl;
          [now split | split; [exact joined_nil | reflexivity]].
      * destruct (negb _); simpl; [split; [exact joined_nil | reflexivity]|].
        split; [exact Habove | now destruct allow].
    + split; [exact Habove | now destruct allow].
  - simpl. split; [|reflexivity].
    apply joined_push; [exact Hres|].
    split; [now apply is_empty_false | exact Hseg].
Qed.

Lemma ns_step_joined (allow : bool) (st : Path.nstate) (c : ascii) :
  joined (Path.res st) -> slashfree (Path.seg st) = true ->
  joined (Path.res (Path.ns_step allow st c))
  /\ slashfree (Path.seg (Path.ns_step allow st c)) = true.
Proof.
  intros Hres Hseg. unfold Path.ns_step.
  destruct (Js.is_slash c) eqn:E.
  - destruct (ns_separator_joined allow st Hres Hseg) as [H1 H2].
    split; [exact H1 | now rewrite H2].
  - assert (slashfree (Path.seg st ++ String c "") = true) as Hs.
    { rewrite slashfree_app, Hseg. simpl. now rewrite E. }
    destruct (_ && _); simpl; now split.
Qed.

Lemma ns_loop_joined (allow : bool) (path : string) (st : Path.nstate) :
  joined (Path.res st) -> slashfree (Path.seg st) = true ->
  joined (Path.res (Path.ns_loop allow st path))
  /\ slashfree (Path.seg (Path.ns_loop allow st path)) = true.
Proof.
  revert st. induction path as [|c path IH]; intros st Hres Hseg; simpl.
  - now split.
  - destruct (ns_step_joined allow st c Hres Hseg) as [H1 H2]. now apply IH.
Qed.

(** The result of [normalizeString] is a join of segments: it has no
    empty segment and neither starts nor ends with a separator. *)
Lemma normalizeString_joined (path : string) (allow : bool) :
  joined (Path.normalizeString path allow).
Proof.
  unfold Path.normalizeString.
  destruct (ns_loop_joined allow path Path.ns_init joined_nil eq_refl) as [H1 H2].
  destruct (Js.endsWith_slash path); [exact H1|].
  now apply ns_separator_joined.
Qed.

Lemma normalize_nonempty (x : string) : Path.normalize x <> "".
Proof.
  unfold Path.normalize.
  destruct (Js.is_empty x); [discriminate|].
  destruct (Js.is_empty (Path.normalizeString x _)) eqn:E.
  - destruct (Path.isAbsolute x); [discriminate|].
    destruct (Js.endsWith_slash x); discriminate.
  - apply is_empty_false in E.
    destruct (Path.isAbsolute x); [discriminate|].
    destruct (Js.endsWith_slash x); [|exact E].
    destruct (Path.normalizeString x _); [congruence | discriminate].
Qed.

Lemma normalize_not_dot_slash (x : string) :
  Js.endsWith_slash x = false -> Path.normalize x <> "./".
Proof.
  intros Hx. unfold Path.normalize. rewrite Hx.
  destruct (Js.is_empty x); [discriminate|].
  destruct (Js.is_empty (Path.normalizeString x _)) eqn:E.
  - destruct (Path.isAbsolute x); discriminate.
  - destruct (Path.isAbsolute x); [discriminate|].
    intros Heq. pose proof (joined_no_trailing _ (normalizeString_joined x (negb false))) as Hn.
    simpl negb in *. rewrite Heq in Hn. discriminate Hn.
Qed.

(** ** The normalizer against the segment-wise definition *)

Lemma all_dots_snoc (s : string) (c : ascii) :
  all_dots (s ++ String c "") = all_dots s && Ascii.eqb c Js.CHAR_DOT.
Proof.
  induction s as [|a s IH]; rewrite ?append_nil_l, ?append_cons; simpl.
  - now rewrite andb_true_r.
  - rewrite IH. now rewrite andb_assoc.
Qed.

Lemma dots_of_nonneg (s : string) : dots_of s = (-1)%Z <-> all_dots s = false.
Proof. unfold dots_of. destruct (all_dots s); split; try congruence; lia. Qed.

Lemma dots_of_snoc (s : string) (c : ascii) :
  dots_of (s ++ String c "") =
  if Ascii.eqb c Js.CHAR_DOT && negb (dots_of s =? -1)%Z then (dots_of s + 1)%Z else (-1)%Z.
Proof.
  unfold dots_of. rewrite all_dots_snoc, length_append. simpl.
  destruct (all_dots s), (Ascii.eqb c Js.CHAR_DOT); simpl; try reflexivity.
  destruct (Z.eqb_spec (Z.of_nat (String.length s)) (-1)); simpl; lia.
Qed.

Lemma dots_of_one (s : string) : dots_of s = 1%Z <-> s = ".".
Proof.
  unfold dots_of. destruct s as [|a [|b s]]; simpl.
  - split; [lia | discriminate].
  - destruct (Ascii.eqb_spec a Js.CHAR_DOT) as [->|Hne]; simpl.
    + split; reflexivity.
    + split; [lia | intros [= ->]; now destruct Hne].
  - split; [|discriminate]. destruct (_ && _); lia.
Qed.

Lemma dots_of_two (s : string) : dots_of s = 2%Z <-> s = "..".
Proof.
  unfold dots_of. destruct s as [|a [|b [|c s]]]; simpl.
  - split; [lia | discriminate].
  - split; [|discriminate]. destruct (_ && _); lia.
  - destruct (Ascii.eqb_spec a Js.CHAR_DOT) as [->|Ha]; simpl.
    + destruct (Ascii.eqb_spec b Js.CHAR_DOT) as [->|Hb]; simpl.
      * split; reflexivity.
      * split; [lia | intros [= ->]; now destruct Hb].
    + split; [lia | intros [= -> _]; now destruct Ha].
  - split; [|discriminate]. destruct (_ && _); lia.
Qed.

Lemma join_rev_cons (top : string) (below : list string) :
  Js.join_slash (List.rev (top :: below)) =
  match below with
  | [] => top
  | _ :: _ => Js.join_slash (List.rev below) ++ "/" ++ top
  end.
Proof.
  simpl List.rev. destruct below as [|b below']; [reflexivity|].
  apply join_slash_snoc. simpl. now destruct (List.rev below').
Qed.

Lemma segment_length (s : string) : segment s -> (1 <= String.length s)%nat.
Proof. intros [Hne _]. destruct s; [congruence | simpl; lia]. Qed.

Lemma join_rev_length (top : string) (below : list string) :
  Forall segment (top :: below) ->
  (String.length top <= String.length (Js.join_slash (List.rev (top :: below))))%nat
  /\ (below <> [] ->
      (String.length top + 2 <= String.length (Js.join_slash (List.rev (top :: below))))%nat).
Proof.
  intros Hall. rewrite join_rev_cons. destruct below as [|b below'].
  - split; [lia | congruence].
  - rewrite !length_append. change (String.length "/") with 1%nat.
    apply Forall_cons in Hall as [_ Hall].
    assert (1 <= String.length (Js.join_slash (List.rev (b :: below'))))%nat.
    { destruct (Js.join_slash (List.rev (b :: below'))) eqn:E; [|simpl; lia].
      apply join_slash_empty in E; [|now apply Forall_rev].
      apply (f_equal (@List.rev string)) in E. rewrite rev_involutive in E. discriminate E. }
    split; intros; lia.
Qed.

Lemma ends_dotdot_app (P : string) (a b : ascii) :
  Path.ends_dotdot (P ++ String a (String b "")) =
  Ascii.eqb b Js.CHAR_DOT && Ascii.eqb a Js.CHAR_DOT.
Proof.
  unfold Path.ends_dotdot. rewrite length_append. simpl String.length.
  replace (String.length P + 2 - 1)%nat with (1 + String.length P)%nat by lia.
  replace (String.length P + 2 - 2)%nat with (0 + String.length P)%nat by lia.
  rewrite <- !append_correct2. reflexivity.
Qed.

Lemma join_rev_suffix (top : string) (below : list string) :
  exists P, Js.join_slash (List.rev (top :: below)) = P ++ top.
Proof.
  rewrite join_rev_cons. destruct below as [|b below'].
  - now exists "".
  - exists (Js.join_slash (List.rev (b :: below')) ++ "/"). now rewrite append_assoc.
Qed.

Lemma length_two (s : string) :
  String.length s = 2%nat -> exists a b, s = String a (String b "").
Proof. destruct s as [|a [|b [|c s]]]; try discriminate. now eauto. Qed.

(** is the last kept segment ".."?  The normalizer's three-way test. *)
Lemma top_is_dotdot (st : Path.nstate) (top : string) (below : list string) :
  Path.res st = Js.join_slash (List.rev (top :: below)) ->
  Forall segment (top :: below) ->
  Path.lastSegmentLength st = String.length top ->
  (String.length (Path.res st) <? 2)%nat
  || negb (Path.lastSegmentLength st =? 2)%nat
  || negb (Path.ends_dotdot (Path.res st))
  = negb (String.eqb top "..").
Proof.
  intros Hres Hall Hlsl. rewrite Hlsl.
  destruct (Nat.eqb_spec (String.length top) 2) as [H2|H2].
  - destruct (length_two _ H2) as (a & b & ->).
    destruct (join_rev_suffix (String a (String b "")) below) as [P HP].
    pose proof (proj1 (join_rev_length _ _ Hall)) as Hlen. rewrite <- Hres in Hlen.
    simpl String.length in Hlen.
    destruct (Nat.ltb_spec (String.length (Path.res st)) 2) as [?|_]; [lia|].
    rewrite Hres, HP, ends_dotdot_app.
    destruct (String.eqb_spec (String a (String b "")) "..") as [E|E].
    + injection E as -> ->. reflexivity.
    + destruct (Ascii.eqb_spec a Js.CHAR_DOT) as [->|Ha],
               (Ascii.eqb_spec b Js.CHAR_DOT) as [->|Hb]; simpl; try reflexivity.
      exfalso. now apply E.
  - destruct (String.eqb_spec top "..") as [->|E]; [now destruct H2|].
    simpl. now rewrite orb_true_r.
Qed.

Lemma tracks_closed (r : string) (l : nat) (kept : list string) :
  r = Js.join_slash (List.rev kept) ->
  Forall segment kept ->
  l = match kept with top :: _ => String.length top | [] => 0%nat end ->
  tracks {| Path.res := r; Path.lastSegmentLength := l; Path.seg := ""; Path.dots := 0 |}
         kept "".
Proof. intros H1 H2 H3. repeat split; assumption. Qed.

Lemma last_segment_length (b : string) (below : list string) :
  Forall segment (b :: below) ->
  match Js.lastIndexOf_slash (Js.join_slash (List.rev (b :: below))) with
  | None => String.length (Js.join_slash (List.rev (b :: below)))
  | Some j => (String.length (Js.join_slash (List.rev (b :: below))) - 1 - j)%nat
  end = String.length b.
Proof.
  intros Hall. rewrite join_rev_cons. apply Forall_cons in Hall as [[_ Hb] _].
  destruct below as [|c below'].
  - unfold Js.lastIndexOf_slash. now rewrite lastIndexOf_aux_slashfree.
  - rewrite lastIndexOf_last_separator by exact Hb.
    rewrite !length_append. change (String.length "/") with 1%nat. lia.
Qed.

Lemma tracked_res_nonempty (st : Path.nstate) (kept : list string) :
  Path.res st = Js.join_slash (List.rev kept) -> Forall segment kept ->
  (0 <? String.length (Path.res st))%nat
  = match kept with [] => false | _ :: _ => true end.
Proof.
  intros Hres Hall. destruct kept as [|top below].
  - now rewrite Hres.
  - pose proof (proj1 (join_rev_length _ _ Hall)) as Hlen. rewrite <- Hres in Hlen.
    apply Forall_cons in Hall as [Htop _]. apply segment_length in Htop.
    apply Nat.ltb_lt. lia.
Qed.

(** On a separator the normalizer does to its result what
    [collapse_step] does to the kept segments. *)
Lemma separator_tracks (allow : bool) (st : Path.nstate) (kept : list string)
    (cur : string) :
  tracks st kept cur ->
  tracks (Path.ns_separator allow st) (Spec.collapse_step allow kept cur) "".
Proof.
  intros (Hres & Hall & Hlsl & Hseg & Hsf & Hdots).
  unfold Path.ns_separator, Spec.collapse_step. rewrite Hseg, Hdots.
  rewrite is_empty_eqb.
  destruct (String.eqb_spec cur "") as [Hempty|Hnonempty]; simpl orb.
  { now apply tracks_closed. }
  destruct (String.eqb_spec cur ".") as [Hdot|Hnotdot].
  { assert ((dots_of cur =? 1)%Z = true) as -> by now apply Z.eqb_eq, dots_of_one.
    now apply tracks_closed. }
  assert ((dots_of cur =? 1)%Z = false) as ->.
  { apply Z.eqb_neq. intros H. now apply dots_of_one in H. }
  destruct (String.eqb_spec cur "..") as [Hdotdot|Hnotdotdot].
  - assert ((dots_of cur =? 2)%Z = true) as -> by now apply Z.eqb_eq, dots_of_two.
    rewrite (tracked_res_nonempty st kept Hres Hall).
    destruct kept as [|top below].
    + (* nothing kept: the result is empty *)
      assert (Path.res st = "") as Hnil by exact Hres. rewrite Hnil. simpl.
      destruct allow.
      * apply tracks_closed;
          [reflexivity | constructor; [exact segment_dotdot | constructor] | reflexivity].
      * apply tracks_closed; [reflexivity | constructor | exact Hlsl].
    + rewrite (top_is_dotdot st top below Hres Hall Hlsl).
      destruct (String.eqb_spec top "..") as [Htop|Htop]; simpl negb.
      * (* the last kept segment is "..": one more is kept, or nothing changes *)
        destruct allow; apply tracks_closed; try assumption; try reflexivity.
        -- rewrite Hres. symmetry. apply (join_rev_cons ".." (top :: below)).
        -- constructor; [exact segment_dotdot | exact Hall].
      * (* the last kept segment is removed *)
        pose proof (join_rev_length _ _ Hall) as [Hlen1 Hlen2].
        rewrite <- Hres in Hlen1, Hlen2.
        pose proof (Forall_cons_1 _ _ _ Hall) as [Htopseg Hbelow].
        pose proof (segment_length _ Htopseg) as Htoplen.
        destruct below as [|b below'].
        -- (* it was the only one *)
           assert (Js.lastIndexOf_slash (Path.res st) = None) as Hno.
           { rewrite Hres. simpl. unfold Js.lastIndexOf_slash.
             apply lastIndexOf_aux_slashfree, Htopseg. }
           rewrite Hno.
           destruct (2 <? String.length (Path.res st))%nat;
             [now apply tracks_closed|].
           destruct (Nat.eqb_spec (String.length (Path.res st)) 0) as [?|_]; [lia|].
           now apply tracks_closed.
        -- (* others remain *)
           specialize (Hlen2 ltac:(discriminate)).
           destruct (Nat.ltb_spec 2 (String.length (Path.res st))) as [_|?]; [|lia].
           assert (Path.res st = Js.join_slash (List.rev (b :: below')) ++ "/" ++ top)
             as Hshape by (rewrite Hres; apply join_rev_cons).
           rewrite Hshape, lastIndexOf_last_separator by apply Htopseg.
           rewrite slice_to_app.
           apply tracks_closed; [reflexivity | exact Hbelow |].
           now apply last_segment_length.
  - assert ((dots_of cur =? 2)%Z = false) as ->.
    { apply Z.eqb_neq. intros H. now apply dots_of_two in H. }
    rewrite (tracked_res_nonempty st kept Hres Hall).
    apply tracks_closed.
    + rewrite join_rev_cons, Hres. now destruct kept.
    + constructor; [now split | exact Hall].
    + reflexivity.
Qed.

Lemma step_tracks (allow : bool) (st : Path.nstate) (kept : list string)
    (cur : string) (c : ascii) :
  tracks st kept cur ->
  if Js.is_slash c
  then tracks (Path.ns_step allow st c) (Spec.collapse_step allow kept cur) ""
  else tracks (Path.ns_step allow st c) kept (cur ++ String c "").
Proof.
  intros Ht. unfold Path.ns_step. destruct (Js.is_slash c) eqn:Ec.
  - now apply separator_tracks.
  - destruct Ht as (Hres & Hall & Hlsl & Hseg & Hsf & Hdots).
    assert (slashfree (cur ++ String c "") = true) as Hsf'.
    { rewrite slashfree_app, Hsf. simpl. now rewrite Ec. }
    rewrite Hseg, Hdots.
    destruct (Ascii.eqb c Js.CHAR_DOT && negb (dots_of cur =? -1)%Z) eqn:E;
      repeat split; try assumption; simpl; rewrite dots_of_snoc, E; reflexivity.
Qed.

Lemma loop_tracks (allow : bool) (path : string) :
  forall st kept cur,
    tracks st kept cur ->
    Path.res (Path.ns_separator allow (Path.ns_loop allow st path))
    = Js.join_slash
        (List.rev (fold_left (Spec.collapse_step allow)
                             (Js.split_slash_aux cur path) kept)).
Proof.
  induction path as [|c path IH]; intros st kept cur Ht; simpl.
  - now destruct (separator_tracks allow st kept cur Ht) as (Hres & _).
  - pose proof (step_tracks allow st kept cur c Ht) as Hstep.
    destruct (Js.is_slash c); simpl; now apply IH.
Qed.

Lemma loop_ends_on_separator (allow : bool) (path : string) (st : Path.nstate) :
  Js.endsWith_slash path = true ->
  Path.seg (Path.ns_loop allow st path) = "".
Proof.
  unfold Js.endsWith_slash. revert st.
  induction path as [|c path IH]; intros st; simpl; [discriminate|].
  destruct path as [|d path'].
  - intros Hc. simpl. unfold Path.ns_step. rewrite Hc.
    unfold Path.ns_separator.
    repeat match goal with |- context [if ?b then _ else _] => destruct b end;
      try reflexivity.
    destruct (Js.lastIndexOf_slash _); reflexivity.
  - intros H. now apply IH.
Qed.

Lemma separator_on_empty_segment (allow : bool) (st : Path.nstate) :
  Path.seg st = "" -> Path.res (Path.ns_separator allow st) = Path.res st.
Proof. intros H. unfold Path.ns_separator. now rewrite H. Qed.

(** The normalizer computes the segment-wise collapse of the path. *)
Lemma normalizeString_collapse (path : string) (allow : bool) :
  Path.normalizeString path allow
  = Js.join_slash (Spec.collapse allow (Js.split_slash path)).
Proof.
  unfold Path.normalizeString, Spec.collapse, Js.split_slash.
  rewrite <- (loop_tracks allow path Path.ns_init [] "").
  - destruct (Js.endsWith_slash path) eqn:E; [|reflexivity].
    symmetry. apply separator_on_empty_segment. now apply loop_ends_on_separator.
  - repeat split. constructor.
Qed.

(** [path.posix.normalize] is the lexical normalization of the
    specification. *)
Lemma normalize_lexical (p : string) : Path.normalize p = Spec.lexical_normalize p.
Proof.
  unfold Path.normalize, Spec.lexical_normalize.
  rewrite is_empty_eqb. destruct (String.eqb p ""); [reflexivity|].
  rewrite !normalizeString_collapse, is_empty_eqb, <- isAbsolute_prefix.
  destruct (String.eqb _ ""); [reflexivity|].
  destruct (Path.isAbsolute p), (Js.endsWith_slash p);
    rewrite ?append_nil_l, ?append_empty_r; reflexivity.
Qed.

(** ** The validator *)

(** C1. For every entry path, [validateArchiveEntryPath] behaves as the
    five-step algorithm of the specification: "", "." and "./" are
    accepted; a Windows drive prefix fails; otherwise backslashes become
    slashes, the path is normalized lexically (its segments collapsed
    one by one), and it fails with a
    PathEscape error exactly when the normalized path is "..", starts
    with "../", starts with "/" or starts with "//". *)
Theorem validateArchiveEntryPath_refines_spec (p : string) :
  outcome_kind (validateArchiveEntryPath p) = Spec.validateEntryPath p
  /\ (validateArchiveEntryPath p = Ok tt <->
      (p = "" \/ p = "." \/ p = "./")
      \/ (Spec.matches_drive_prefix p = false
          /\ let n := Spec.lexical_normalize (Spec.to_forward_slashes p) in
             n <> ".." /\ String.prefix "../" n = false
             /\ String.prefix "/" n = false /\ String.prefix "//" n = false)).
Proof.
  assert (Hk : outcome_kind (validateArchiveEntryPath p) = Spec.validateEntryPath p).
  { unfold validateArchiveEntryPath, Spec.validateEntryPath, is_self_reference.
    rewrite is_empty_eqb, isWindowsDrivePath_spec, normalizeArchivePath_spec,
      isAbsolute_prefix, normalize_lexical.
    unfold Js.startsWith.
    destruct (_ || _ || _); [reflexivity|].
    destruct (Spec.matches_drive_prefix p); [reflexivity|].
    destruct (_ || _); [reflexivity|].
    destruct (_ || _); reflexivity. }
  split; [exact Hk|].
  assert (Hok : validateArchiveEntryPath p = Ok tt <-> Spec.validateEntryPath p = None).
  { rewrite <- Hk. destruct (validateArchiveEntryPath p) as [[]|e]; simpl;
      split; congruence. }
  rewrite Hok. unfold Spec.validateEntryPath. cbv zeta.
  destruct (String.eqb_spec p ""), (String.eqb_spec p "."), (String.eqb_spec p "./");
    simpl; try (split; [intros _; tauto | reflexivity]).
  destruct (Spec.matches_drive_prefix p).
  { split; [discriminate | intros [[?|[?|?]]|[? _]]; congruence]. }
  destruct (String.eqb_spec (Spec.lexical_normalize (Spec.to_forward_slashes p)) "..");
    simpl.
  { split; [discriminate | intros [[?|[?|?]]|(_ & ? & _)]; congruence]. }
  destruct (String.prefix "../" _); simpl.
  { split; [discriminate | intros [[?|[?|?]]|(_ & _ & ? & _)]; congruence]. }
  destruct (String.prefix "/" _); simpl.
  { split; [discriminate | intros [[?|[?|?]]|(_ & _ & _ & ? & _)]; congruence]. }
  destruct (String.prefix "//" _); simpl.
  { split; [discriminate | intros [[?|[?|?]]|(_ & _ & _ & _ & ?)]; congruence]. }
  split; [intros _; right; repeat split; congruence | reflexivity].
Qed.

(** ** The component stripper *)

Lemma floor_of_Z (z : Z) : floor (of_Z z) = of_Z z.
Proof. unfold floor, of_Z. now rewrite Qfloor_Z. Qed.

Lemma max0_of_nat (n : nat) : max0 (of_Z (Z.of_nat n)) = of_Z (Z.of_nat n).
Proof.
  unfold max0, of_Z. destruct (Qle_bool (inject_Z (Z.of_nat n)) 0) eqn:E; [|reflexivity].
  apply Qle_bool_iff in E. change 0%Q with (inject_Z 0) in E. rewrite <- Zle_Qle in E.
  now replace (Z.of_nat n) with 0%Z by lia.
Qed.

Lemma is_zero_of_Z (z : Z) : is_zero (of_Z z) = (z =? 0)%Z.
Proof.
  unfold is_zero, of_Z. destruct (z =? 0)%Z eqn:E.
  - apply Z.eqb_eq in E. now subst.
  - apply not_true_is_false. intros H. apply Qeq_bool_iff in H.
    unfold Qeq in H. simpl in H. apply Z.eqb_neq in E. lia.
Qed.

Lemma slice_from_of_nat {A} (n : nat) (l : list A) :
  slice_from (of_Z (Z.of_nat n)) l = drop n l.
Proof.
  unfold slice_from, of_Z, trunc.
  assert (Qle_bool 0 (inject_Z (Z.of_nat n)) = true) as ->.
  { apply Qle_bool_iff. change 0%Q with (inject_Z 0). rewrite <- Zle_Qle. lia. }
  rewrite Qfloor_Z. destruct (Z.of_nat n <? 0)%Z eqn:E; [apply Z.ltb_lt in E; lia|].
  now rewrite Nat2Z.id.
Qed.

Lemma resolveStrip_of_nat (n : nat) :
  resolveStrip (Some (of_Z (Z.of_nat n))) = of_Z (Z.of_nat n).
Proof.
  change (resolveStrip (Some (of_Z (Z.of_nat n))))
    with (max0 (floor (of_Z (Z.of_nat n)))).
  now rewrite floor_of_Z, max0_of_nat.
Qed.

Lemma keep_part_segment (part : string) :
  keep_part part = negb (String.eqb part "") && negb (String.eqb part ".").
Proof. unfold keep_part. now rewrite is_empty_eqb. Qed.

Lemma kept_parts_segments (raw : string) :
  Forall segment (List.filter keep_part (Js.split_slash raw)).
Proof.
  apply List.Forall_forall. intros x [Hin Hkeep]%filter_In. split.
  - unfold keep_part in Hkeep. apply andb_true_iff in Hkeep as [H _].
    now apply is_empty_false, negb_true_iff.
  - pose proof (split_slash_aux_slashfree raw "" eq_refl) as Hall.
    rewrite List.Forall_forall in Hall. now apply Hall.
Qed.

Lemma is_self_reference_iff (s : string) :
  is_self_reference s = true <-> s = "" \/ s = "." \/ s = "./".
Proof.
  unfold is_self_reference. rewrite !orb_true_iff, is_empty_true, !String.eqb_eq. tauto.
Qed.

(** After stripping, the three-way test of the code reduces to one: the
    normalized remainder is "." or it is a path to write. *)
Lemma stripped_self_reference (parts : list string) :
  Forall segment parts ->
  is_self_reference (Path.normalize (Js.join_slash parts))
  = String.eqb (Path.normalize (Js.join_slash parts)) ".".
Proof.
  intros Hparts.
  assert (joined (Js.join_slash parts)) as Hj by now exists parts.
  apply joined_no_trailing in Hj.
  pose proof (normalize_nonempty (Js.join_slash parts)) as Hne.
  pose proof (normalize_not_dot_slash _ Hj) as Hnd.
  unfold is_self_reference.
  apply is_empty_false in Hne. rewrite Hne. apply String.eqb_neq in Hnd. rewrite Hnd.
  now rewrite orb_false_r.
Qed.

(** C5. For every entry path and every non-negative integer [n],
    [stripArchivePath] turns backslashes into slashes, splits on "/",
    discards empty and "." segments, drops the first [n] segments, rejoins
    with "/" and normalizes; it returns nothing exactly when the
    normalized remainder is the empty relative path, which is the case
    whenever no segment is left.  "pkg/src/index.js" stripped by 1 is
    "src/index.js", and stripped by 3 it is nothing. *)
Theorem stripArchivePath_refines_spec (p : string) (n : nat) :
  stripArchivePath p (of_Z (Z.of_nat n)) = Spec.stripComponents p n
  /\ (stripArchivePath p (of_Z (Z.of_nat n)) = None <->
      Path.normalize
        (Js.join_slash
           (drop n (List.filter keep_part (Js.split_slash (normalizeArchivePath p))))) = ".")
  /\ (drop n (List.filter keep_part (Js.split_slash (normalizeArchivePath p))) = [] ->
      stripArchivePath p (of_Z (Z.of_nat n)) = None)
  /\ stripArchivePath "pkg/src/index.js" (of_Z 1) = Some "src/index.js"
  /\ stripArchivePath "pkg/src/index.js" (of_Z 3) = None.
Proof.
  assert (Hcode : stripArchivePath p (of_Z (Z.of_nat n)) =
    let r := Path.normalize (Js.join_slash
      (drop n (List.filter keep_part (Js.split_slash (normalizeArchivePath p))))) in
    if String.eqb r "." then None else Some r).
  { unfold stripArchivePath. cbv zeta.
    rewrite floor_of_Z, max0_of_nat, is_zero_of_Z, slice_from_of_nat.
    destruct (is_self_reference (normalizeArchivePath p)) eqn:Eself.
    - apply is_self_reference_iff in Eself as [-> | [-> | ->]];
        destruct n as [|[|n]]; reflexivity.
    - assert (Js.join_slash (List.filter keep_part (Js.split_slash (normalizeArchivePath p)))
              = Js.join_slash (drop 0
                  (List.filter keep_part (Js.split_slash (normalizeArchivePath p)))))
        as H0 by reflexivity.
      assert ((if (Z.of_nat n =? 0)%Z
               then Js.join_slash
                      (List.filter keep_part (Js.split_slash (normalizeArchivePath p)))
               else Js.join_slash
                      (drop n (List.filter keep_part
                                 (Js.split_slash (normalizeArchivePath p)))))
              = Js.join_slash
                  (drop n (List.filter keep_part
                             (Js.split_slash (normalizeArchivePath p))))) as ->.
      { destruct (Z.of_nat n =? 0)%Z eqn:E; [|reflexivity].
        apply Z.eqb_eq in E. now replace n with 0%nat by lia. }
      rewrite stripped_self_reference; [reflexivity|].
      apply Forall_drop, kept_parts_segments. }
  split; [|split; [|split; [|split; reflexivity]]].
  - rewrite Hcode. unfold Spec.stripComponents. cbv zeta.
    rewrite <- normalizeArchivePath_spec, <- normalize_lexical.
    now rewrite (filter_ext _ _ keep_part_segment).
  - rewrite Hcode. cbv zeta. destruct (String.eqb_spec (Path.normalize
      (Js.join_slash (drop n (List.filter keep_part
         (Js.split_slash (normalizeArchivePath p)))))) ".") as [E|E];
      split; congruence.
  - intros Hnil. rewrite Hcode, Hnil. reflexivity.
Qed.

(** ** Limits *)

Lemma Qfloor_pos_iff (q : Q) : (0 <? Qfloor q)%Z = true <-> (1 <= q)%Q.
Proof.
  rewrite Z.ltb_lt. split; intros H.
  - apply Qle_trans with (inject_Z (Qfloor q)); [|apply Qfloor_le].
    change 1%Q with (inject_Z 1). rewrite <- Zle_Qle. lia.
  - apply Qfloor_resp_le in H. change 1%Q with (inject_Z 1) in H.
    rewrite Qfloor_Z in H. lia.
Qed.

Lemma clampLimit_spec (value : option number) (dflt : Z) :
  (0 < dflt)%Z -> Spec.resolves_to value dflt (default dflt (clampLimit value)).
Proof.
  intros Hd. unfold Spec.resolves_to, clampLimit.
  destruct value as [[| | |q]|]; simpl;
    try (repeat split; [intros q' Hq; discriminate Hq | exact Hd]).
  destruct (0 <? Qfloor q)%Z eqn:E; simpl.
  - repeat split.
    + intros q' [= <-] _. reflexivity.
    + intros Hno. exfalso. apply (Hno q eq_refl). now apply Qfloor_pos_iff.
    + now apply Z.ltb_lt.
  - repeat split; [|exact Hd].
    intros q' [= <-] Hq. apply Qfloor_pos_iff in Hq. congruence.
Qed.

(** C8, as the code has it. Each of the four limits resolves to the
    floor of the given value when that value is a finite number that is
    at least 1 (so that its floor is positive), and to its default (256
    MiB, 50,000, 512 MiB, 256 MiB) in every other case: unset, not
    finite, zero, negative, or strictly between 0 and 1.  Every resolved
    limit is a positive integer, so no input disables a check. *)
Theorem resolveExtractLimits_floor_or_default (limits : option ArchiveExtractLimits) :
  let given f := match limits with Some l => f l | None => None end in
  let r := resolveExtractLimits limits in
  Spec.resolves_to (given maxArchiveBytes) 268435456 (rMaxArchiveBytes r)
  /\ Spec.resolves_to (given maxEntries) 50000 (rMaxEntries r)
  /\ Spec.resolves_to (given maxExtractedBytes) 536870912 (rMaxExtractedBytes r)
  /\ Spec.resolves_to (given maxEntryBytes) 268435456 (rMaxEntryBytes r).
Proof.
  cbv zeta. unfold resolveExtractLimits; simpl.
  repeat split; apply clampLimit_spec; reflexivity.
Qed.

Lemma resolveExtractLimits_floor_or_default_witness :
  rMaxEntries
    (resolveExtractLimits
       (Some {| maxArchiveBytes := None; maxEntries := Some (Fin (7 # 2));
                maxExtractedBytes := Some NaN; maxEntryBytes := Some (Fin (-3)) |})) = 3%Z
  /\ rMaxEntryBytes
       (resolveExtractLimits
          (Some {| maxArchiveBytes := None; maxEntries := Some (Fin (7 # 2));
                   maxExtractedBytes := Some NaN; maxEntryBytes := Some (Fin (-3)) |}))
     = 268435456%Z.
Proof.
  pose proof (resolveExtractLimits_floor_or_default
    (Some {| maxArchiveBytes := None; maxEntries := Some (Fin (7 # 2));
             maxExtractedBytes := Some NaN; maxEntryBytes := Some (Fin (-3)) |}))
    as (_ & (Hfloor & _ & _) & _ & (_ & Hdefault & _)).
  split.
  - apply (Hfloor (7 # 2)); [reflexivity | discriminate].
  - apply Hdefault. intros q [= <-] Hq. now apply Hq.
Defined.

(** C8, as the claim states it, fails: 0.5 is a finite number strictly
    greater than 0, yet [maxEntries = 0.5] resolves to the default
    50,000 and not to its floor 0. *)
Lemma clampLimit_half_counterexample :
  let l := {| maxArchiveBytes := None; maxEntries := Some (Fin (1 # 2));
              maxExtractedBytes := None; maxEntryBytes := None |} in
  (0 < 1 # 2)%Q
  /\ rMaxEntries (resolveExtractLimits (Some l)) = 50000%Z
  /\ rMaxEntries (resolveExtractLimits (Some l)) <> Qfloor (1 # 2)
  /\ ~ (forall (limits : ArchiveExtractLimits) (q : Q),
          maxEntries limits = Some (Fin q) -> (0 < q)%Q ->
          rMaxEntries (resolveExtractLimits (Some limits)) = Qfloor q).
Proof.
  cbv zeta. repeat split; try discriminate.
  intros H.
  specialize (H {| maxArchiveBytes := None; maxEntries := Some (Fin (1 # 2));
                   maxExtractedBytes := None; maxEntryBytes := None |}
                (1 # 2) eq_refl eq_refl).
  discriminate H.
Qed.

(** ** The packed root *)

(** C9. [resolvePackedRootDir] returns the "package" directory when it
    exists; otherwise it returns the only top-level directory, and it
    fails with an ambiguous-layout error exactly when the number of
    top-level directories is zero or more than one.  One top-level
    directory named "package" is returned; two top-level directories
    without a "package" directory fail. *)
Theorem resolvePackedRootDir_layout (v : view) (extractDir : string)
    (entries : list Dirent) :
  readdir v extractDir = Some entries ->
  Forall (fun e => d_name e <> "") entries ->
  let direct := Path.join [extractDir; "package"] in
  let dirs := List.map d_name (List.filter d_isDirectory entries) in
  (stat_isDirectory v direct = Some true ->
   resolvePackedRootDir v extractDir = Ok direct)
  /\ (stat_isDirectory v direct <> Some true ->
      (forall d, dirs = [d] ->
         resolvePackedRootDir v extractDir = Ok (Path.join [extractDir; d]))
      /\ (outcome_kind (resolvePackedRootDir v extractDir) = Some AmbiguousLayout
          <-> (length dirs = 0 \/ 1 < length dirs)%nat)
      /\ (forall a b, dirs = [a; b] ->
            resolvePackedRootDir v extractDir = Err (ErrLayoutDirs [a; b])))
  /\ (dirs = ["package"] -> resolvePackedRootDir v extractDir = Ok direct).
Proof.
  intros Hread Hnames direct dirs.
  assert (Hnonempty : forall d, In d dirs -> Js.is_empty d = false).
  { intros d Hin. apply in_map_iff in Hin as (e & <- & He).
    apply filter_In in He as [He _].
    rewrite List.Forall_forall in Hnames. now apply is_empty_false, Hnames. }
  assert (Hfallback : stat_isDirectory v direct <> Some true ->
    resolvePackedRootDir v extractDir =
    match dirs with
    | [onlyDir] => Ok (Path.join [extractDir; onlyDir])
    | _ => Err (ErrLayoutDirs dirs)
    end).
  { intros Hstat. unfold resolvePackedRootDir. fold direct. rewrite Hread. fold dirs.
    destruct (stat_isDirectory v direct) as [[|]|]; try congruence;
      destruct dirs as [|d [|d' rest]]; try reflexivity;
      now rewrite (Hnonempty d (or_introl eq_refl)). }
  split; [|split].
  - intros Hstat. unfold resolvePackedRootDir. fold direct. now rewrite Hstat.
  - intros Hstat. rewrite (Hfallback Hstat). split; [|split].
    + intros d ->. reflexivity.
    + destruct dirs as [|d [|d' rest]]; simpl.
      * split; [intros _; now left | reflexivity].
      * split; [discriminate | intros [H|H]; [discriminate H | lia]].
      * split; [intros _; right; lia | reflexivity].
    + intros a b ->. reflexivity.
  - intros Hdirs.
    destruct (stat_isDirectory v direct) as [[|]|] eqn:Hstat.
    + unfold resolvePackedRootDir. fold direct. now rewrite Hstat.
    + rewrite Hfallback by congruence. now rewrite Hdirs.
    + rewrite Hfallback by congruence. now rewrite Hdirs.
Qed.

Lemma resolvePackedRootDir_layout_witness :
  resolvePackedRootDir
    {| stat_isDirectory := fun p => if String.eqb p "/x/package" then Some true else None;
       readdir := fun _ =>
         Some [ {| d_name := "package"; d_isDirectory := true |};
                {| d_name := "README.md"; d_isDirectory := false |} ] |}
    "/x" = Ok "/x/package".
Proof.
  refine (proj1 (resolvePackedRootDir_layout
    {| stat_isDirectory := fun p => if String.eqb p "/x/package" then Some true else None;
       readdir := fun _ =>
         Some [ {| d_name := "package"; d_isDirectory := true |};
                {| d_name := "README.md"; d_isDirectory := false |} ] |}
    "/x"
    [ {| d_name := "package"; d_isDirectory := true |};
      {| d_name := "README.md"; d_isDirectory := false |} ] eq_refl _) eq_refl).
  repeat constructor; discriminate.
Defined.

(** ** Stripping and the second validation *)

(** C4. Stripping works on the raw segments and both extractors validate
    the stripped path again: "a/../b" passes validation, its stripped
    form under one component is "../b", which fails validation, and the
    entry is rejected by the zip extractor and by the tar hook before
    anything is written.  Whenever a stripped path fails validation the
    entry is rejected with that error. *)
Theorem stripped_path_is_validated_again :
  validateArchiveEntryPath "a/../b" = Ok tt
  /\ stripArchivePath "a/../b" (of_Z 1) = Some "../b"
  /\ validateArchiveEntryPath "../b" = Err (ErrEscapes "../b")
  /\ (forall host destDir limits xb isDir perms data w,
        extract_entry host destDir (of_Z 1) limits xb
          {| name := "a/../b"; dir := isDir; unixPermissions := perms; content := data |} w
        = (Err (ErrEscapes "../b"), w))
  /\ (forall host destDir limits c ty sz,
        onReadEntry host destDir (of_Z 1) limits c
          {| path := "a/../b"; type := ty; size := sz |}
        = (c, Aborted (ErrEscapes "../b")))
  /\ (forall host destDir strip limits xb e w rel err,
        validateArchiveEntryPath (name e) = Ok tt ->
        stripArchivePath (name e) strip = Some rel ->
        validateArchiveEntryPath rel = Err err ->
        extract_entry host destDir strip limits xb e w = (Err err, w))
  /\ (forall host destDir strip limits c e rel err,
        validateArchiveEntryPath (path e) = Ok tt ->
        stripArchivePath (path e) strip = Some rel ->
        validateArchiveEntryPath rel = Err err ->
        onReadEntry host destDir strip limits c e = (c, Aborted err)).
Proof.
  assert (Hzip : forall host destDir strip limits xb e w rel err,
        validateArchiveEntryPath (name e) = Ok tt ->
        stripArchivePath (name e) strip = Some rel ->
        validateArchiveEntryPath rel = Err err ->
        extract_entry host destDir strip limits xb e w = (Err err, w)).
  { intros host destDir strip limits xb e w rel err H1 H2 H3.
    unfold extract_entry, bind, lift. now rewrite H1, H2, H3. }
  assert (Htar : forall host destDir strip limits c e rel err,
        validateArchiveEntryPath (path e) = Ok tt ->
        stripArchivePath (path e) strip = Some rel ->
        validateArchiveEntryPath rel = Err err ->
        onReadEntry host destDir strip limits c e = (c, Aborted err)).
  { intros host destDir strip limits c e rel err H1 H2 H3.
    unfold onReadEntry. now rewrite H1, H2, H3. }
  repeat split; try reflexivity; try assumption.
Qed.

Lemma stripped_path_is_validated_again_witness :
  onReadEntry example_host
    "/dest" (of_Z 2) (resolveExtractLimits None)
    {| entryCount := 0; tarExtractedBytes := 0 |}
    {| path := "pkg/lib/../../x"; type := "File"; size := None |}
  = ({| entryCount := 0; tarExtractedBytes := 0 |}, Aborted (ErrEscapes "../../x")).
Proof.
  refine (proj2 (proj2 (proj2 (proj2 (proj2 (proj2
    stripped_path_is_validated_again))))) _ _ _ _ _ _ "../../x" _ _ _ _);
    reflexivity.
Defined.

(** ** Sums of doubles *)

Lemma nearest_double_small (z : Z) : (Z.abs z < 2 ^ 53)%Z -> nearest_double z = z.
Proof.
  intros H. unfold nearest_double. cbv zeta.
  destruct (Z.ltb_spec (Z.abs z) (2 ^ 53)); [reflexivity | lia].
Qed.

Lemma nearest_double_large (z : Z) : (2 ^ 53 <= z)%Z -> (2 ^ 53 <= nearest_double z)%Z.
Proof.
  intros H. unfold nearest_double. cbv zeta.
  assert (Hz : (0 < z)%Z) by (pose proof (Z.pow_pos_nonneg 2 53); lia).
  rewrite (Z.abs_eq z) by lia.
  destruct (Z.ltb_spec z (2 ^ 53)) as [Hlt|_]; [lia|].
  rewrite (Z.sgn_pos z) by lia. rewrite Z.mul_1_l.
  pose proof (Z.log2_spec z Hz) as [Hlow _].
  assert (Hlog : (53 <= Z.log2 z)%Z).
  { apply Z.log2_le_pow2; [exact Hz | exact H]. }
  set (e := (Z.log2 z - 52)%Z) in *.
  assert (Hpow : (2 ^ Z.log2 z = 2 ^ 52 * 2 ^ e)%Z).
  { rewrite <- Z.pow_add_r by lia. f_equal. lia. }
  assert (He : (2 <= 2 ^ e)%Z).
  { change 2%Z with (2 ^ 1)%Z at 1. apply Z.pow_le_mono_r; lia. }
  assert (Hq : (2 ^ 52 <= z / 2 ^ e)%Z).
  { apply Z.div_le_lower_bound; [lia|]. rewrite Z.mul_comm. lia. }
  assert (Hq' : (2 ^ 52 * 2 ^ e
                 <= (if (z mod 2 ^ e <? 2 ^ (e - 1))%Z then (z / 2 ^ e)%Z
                     else if (2 ^ (e - 1) <? z mod 2 ^ e)%Z then (z / 2 ^ e + 1)%Z
                     else if Z.even (z / 2 ^ e) then (z / 2 ^ e)%Z
                     else (z / 2 ^ e + 1)%Z) * 2 ^ e)%Z).
  { apply Z.mul_le_mono_nonneg_r; [lia|].
    destruct (_ <? _)%Z; [exact Hq|].
    destruct (_ <? _)%Z; [lia|]. destruct (Z.even _); lia. }
  change (2 ^ 53)%Z with (2 ^ 52 * 2)%Z.
  eapply Z.le_trans; [|exact Hq'].
  apply Z.mul_le_mono_nonneg_l; [apply Z.pow_nonneg; lia | exact He].
Qed.

(** Below 2^53 a sum that stays within a limit is the exact sum ... *)
Lemma double_add_within (x y limit : Z) :
  (0 <= x + y)%Z -> (limit < 2 ^ 53)%Z -> (double_add x y <= limit)%Z ->
  double_add x y = (x + y)%Z.
Proof.
  intros Hpos Hlimit Hle. unfold double_add in *.
  destruct (Z.lt_ge_cases (x + y) (2 ^ 53)) as [Hsmall|Hlarge].
  - apply nearest_double_small. now rewrite Z.abs_eq.
  - apply nearest_double_large in Hlarge. lia.
Qed.


Example nearest_double_ties :
  nearest_double (2 ^ 53 - 1) = (2 ^ 53 - 1)%Z
  /\ nearest_double (2 ^ 53 + 1) = (2 ^ 53)%Z
  /\ nearest_double (2 ^ 53 + 3) = (2 ^ 53 + 4)%Z
  /\ nearest_double (2 ^ 54 + 3) = (2 ^ 54 + 4)%Z
  /\ nearest_double (- (2 ^ 53 + 1)) = (- 2 ^ 53)%Z
  /\ double_add 2 (2 ^ 53 - 1) = (2 ^ 53)%Z.
Proof. repeat split; vm_compute; reflexivity. Qed.

(** ** What an extraction logs and touches *)

Lemma logs_ret {A} (a : A) P : logs (ret a) P.
Proof. intros w. exists []. simpl. now rewrite app_nil_r. Qed.

Lemma logs_throw {A} e P : logs (@throw A e) P.
Proof. intros w. exists []. simpl. now rewrite app_nil_r. Qed.

Lemma logs_lift {A} (r : result A) P : logs (lift r) P.
Proof. intros w. exists []. simpl. now rewrite app_nil_r. Qed.

Lemma logs_bind {A B} (c : M A) (k : A -> M B) P :
  logs c P -> (forall a, logs (k a) P) -> logs (bind c k) P.
Proof.
  intros Hc Hk w. unfold bind. destruct (Hc w) as (n1 & E1 & F1).
  destruct (c w) as [[a|e] w1]; simpl in *.
  - destruct (Hk a w1) as (n2 & E2 & F2). exists (n1 ++ n2)%list.
    rewrite E2, E1, app_assoc. split; [reflexivity | now apply Forall_app].
  - now exists n1.
Qed.

Lemma logs_bind_lift {A B} (r : result A) (k : A -> M B) P :
  (forall a, r = Ok a -> logs (k a) P) -> logs (bind (lift r) k) P.
Proof.
  intros Hk w. unfold bind, lift. destruct r as [a|e].
  - now apply Hk.
  - exists []. simpl. now rewrite app_nil_r.
Qed.

Lemma logs_swallow (c : M unit) P : logs c P -> logs (swallow c) P.
Proof. intros Hc w. unfold swallow. simpl. apply Hc. Qed.

Lemma logs_try_cleanup {A} (body : M A) (handler : M unit) P :
  logs body P -> logs handler P -> logs (try_cleanup body handler) P.
Proof.
  intros Hb Hh w. unfold try_cleanup. destruct (Hb w) as (n1 & E1 & F1).
  destruct (body w) as [[a|e] w1]; simpl in *.
  - now exists n1.
  - destruct (Hh w1) as (n2 & E2 & F2). exists (n1 ++ n2)%list.
    rewrite E2, E1, app_assoc. split; [reflexivity | now apply Forall_app].
Qed.

Lemma logs_fs_call (c : call) sc tg f (P : call -> Prop) : P c -> logs (fs_call c sc tg f) P.
Proof.
  intros Hc w. exists [c]. unfold fs_call.
  destruct (f (nodes w)); simpl; (split; [reflexivity | now repeat constructor]).
Qed.

Lemma logs_pump limits out chunks eb xb (P : call -> Prop) :
  (forall chunk, P (CWrite out chunk)) -> logs (pump limits out chunks eb xb) P.
Proof.
  intros HP. revert eb xb. induction chunks as [|chunk rest IH]; intros eb xb; simpl.
  - apply logs_ret.
  - apply logs_bind; [apply logs_lift|]. intros counts.
    apply logs_bind; [now apply logs_fs_call|]. intros _. apply IH.
Qed.

Lemma logs_write_entry host limits out d xb (P : call -> Prop) :
  (forall c, call_target c = out -> is_chmod c = false -> P c) ->
  logs (write_entry host limits out d xb) P.
Proof.
  intros HP. unfold write_entry. apply logs_try_cleanup.
  - destruct d as [chunks|buf].
    + apply logs_bind; [apply logs_fs_call; now apply HP|]. intros _.
      apply logs_pump. intros chunk. now apply HP.
    + apply logs_bind; [apply logs_lift|]. intros counts.
      apply logs_bind; [apply logs_fs_call; now apply HP|]. intros _. apply logs_ret.
  - apply logs_swallow, logs_fs_call. now apply HP.
Qed.

Lemma logs_restore_mode host out e (P : call -> Prop) :
  (forall c, call_target c = out -> P c) -> logs (restore_mode host out e) P.
Proof.
  intros HP. unfold restore_mode. destruct (unixPermissions e) as [u|]; [|apply logs_ret].
  destruct (negb _); [|apply logs_ret].
  apply logs_swallow, logs_fs_call. now apply HP.
Qed.

(** ** The output path stays inside the destination *)

Lemma resolveCheckedOutPath_spec (cwd destDir relPath original : string) :
  let outPath := Path.resolve cwd [destDir; relPath] in
  let safeBase := resolveSafeBaseDir cwd destDir in
  (within safeBase outPath ->
   resolveCheckedOutPath cwd destDir relPath original = Ok outPath)
  /\ (~ within safeBase outPath ->
      resolveCheckedOutPath cwd destDir relPath original = Err (ErrEscapes original))
  /\ (forall p, resolveCheckedOutPath cwd destDir relPath original = Ok p ->
        p = outPath /\ within safeBase p).
Proof.
  cbv zeta. unfold resolveCheckedOutPath, within.
  destruct (Js.startsWith _ _) eqn:E; simpl; repeat split; congruence.
Qed.

Lemma resolveSafeBaseDir_spec (cwd destDir : string) :
  let resolved := Path.resolve cwd [destDir] in
  Js.endsWith_slash (resolveSafeBaseDir cwd destDir) = true
  /\ (resolveSafeBaseDir cwd destDir = resolved
      \/ resolveSafeBaseDir cwd destDir = resolved ++ "/").
Proof.
  cbv zeta. unfold resolveSafeBaseDir.
  destruct (Js.endsWith_slash (Path.resolve cwd [destDir])) eqn:E.
  - split; [exact E | now left].
  - split; [|now right]. unfold Js.endsWith_slash.
    now rewrite last_char_app by discriminate.
Qed.

Lemma logs_mono {A} (c : M A) (P Q : call -> Prop) :
  (forall x, P x -> Q x) -> logs c P -> logs c Q.
Proof.
  intros HPQ Hc w. destruct (Hc w) as (new & E & F). exists new.
  split; [exact E | now apply (Forall_impl P)].
Qed.

Lemma logs_extract_entry host destDir strip limits xb e :
  logs (extract_entry host destDir strip limits xb e)
       (made_for host destDir strip (name e)).
Proof.
  unfold extract_entry.
  apply logs_bind; [apply logs_lift|]. intros _.
  destruct (stripArchivePath (name e) strip) as [relPath|] eqn:Hstrip; [|apply logs_ret].
  apply logs_bind; [apply logs_lift|]. intros _.
  apply logs_bind_lift. intros outPath Hout.
  apply resolveCheckedOutPath_spec in Hout as [-> Hin].
  assert (Hat : forall c, call_target c = Path.resolve (cwd host) [destDir; relPath] ->
                          made_for host destDir strip (name e) c).
  { intros c Hc. exists relPath. rewrite Hstrip. repeat split; [exact Hin | now left]. }
  destruct (dir e).
  - apply logs_bind; [|intros; apply logs_ret].
    apply logs_fs_call. now apply Hat.
  - apply logs_bind.
    { apply logs_fs_call. exists relPath. rewrite Hstrip.
      repeat split; [exact Hin | now right]. }
    intros _. apply logs_bind.
    { apply logs_write_entry. intros c Hc _. now apply Hat. }
    intros xb'. apply logs_bind; [|intros; apply logs_ret].
    apply logs_restore_mode. intros c Hc. now apply Hat.
Qed.

Lemma logs_extract_entries host destDir strip limits entries xb :
  logs (extract_entries host destDir strip limits xb entries)
       (fun c => exists e, In e entries /\ made_for host destDir strip (name e) c).
Proof.
  revert xb. induction entries as [|e rest IH]; intros xb; simpl.
  - apply logs_ret.
  - apply logs_bind.
    + eapply logs_mono; [|apply logs_extract_entry].
      intros c Hc. exists e. split; [now left | exact Hc].
    + intros xb'. eapply logs_mono; [|apply IH].
      intros c (e' & Hin & Hc). exists e'. split; [now right | exact Hc].
Qed.

Lemma logs_extractZip host archivePath archive destDir stripComponents limits :
  logs (extractZip host archivePath archive destDir stripComponents limits)
       (fun c => exists e,
          In e (zip_entries archive)
          /\ made_for host destDir (resolveStrip stripComponents) (name e) c).
Proof.
  unfold extractZip, zip_entries. destruct archive as [zf|]; [|apply logs_throw].
  destruct (_ <? _)%Z; [apply logs_throw|].
  destruct (zf_files zf) as [entries|]; [|apply logs_throw].
  destruct (_ <? _)%Z; [apply logs_throw|].
  apply logs_extract_entries.
Qed.

(** the entries the tar hook lets through have passed the same check *)
Lemma onReadEntry_passed host destDir strip limits c e c' :
  onReadEntry host destDir strip limits c e = (c', Passed) ->
  exists relPath,
    validateArchiveEntryPath (path e) = Ok tt
    /\ stripArchivePath (path e) strip = Some relPath
    /\ validateArchiveEntryPath relPath = Ok tt
    /\ resolveCheckedOutPath (cwd host) destDir relPath (path e)
       = Ok (Path.resolve (cwd host) [destDir; relPath])
    /\ within (resolveSafeBaseDir (cwd host) destDir)
              (Path.resolve (cwd host) [destDir; relPath])
    /\ is_link_like (type e) = false
    /\ entryCount c' = double_add (entryCount c) 1
    /\ (entryCount c' <= rMaxEntries limits)%Z.
Proof.
  unfold onReadEntry.
  destruct (validateArchiveEntryPath (path e)) as [[]|] eqn:E1; [|discriminate].
  destruct (stripArchivePath (path e) strip) as [relPath|] eqn:E2; [|discriminate].
  destruct (validateArchiveEntryPath relPath) as [[]|] eqn:E3; [|discriminate].
  destruct (resolveCheckedOutPath _ _ _ _) as [out|] eqn:E4; [|discriminate].
  destruct (is_link_like (type e)) eqn:E5; [discriminate|].
  simpl. destruct (rMaxEntries limits <? _)%Z eqn:E6; [discriminate|].
  destruct (rMaxEntryBytes limits <? _)%Z; [discriminate|].
  destruct (rMaxExtractedBytes limits <? _)%Z; [discriminate|].
  intros [= <-]. exists relPath. simpl.
  destruct (proj2 (proj2 (resolveCheckedOutPath_spec _ _ _ _)) _ E4) as [-> Hin].
  apply Z.ltb_ge in E6. repeat split; try assumption; reflexivity.
Qed.

Lemma resolve_trailing_separator (cwd : string) (args : list string) :
  Js.endsWith_slash (Path.resolve cwd args) = true -> Path.resolve cwd args = "/".
Proof.
  unfold Path.resolve.
  destruct (Path.resolve_scan _ _) as [resolvedPath resolvedAbsolute].
  pose proof (joined_no_trailing _
    (normalizeString_joined resolvedPath (negb resolvedAbsolute))) as Hn.
  destruct resolvedAbsolute.
  - destruct (Path.normalizeString resolvedPath _) as [|c p] eqn:E; [reflexivity|].
    unfold Js.endsWith_slash in *. rewrite last_char_app by discriminate.
    intros H. rewrite H in Hn. discriminate Hn.
  - destruct (0 <? String.length _)%nat; [congruence | discriminate].
Qed.

Lemma run_hook_seen host destDir strip limits entries c :
  Forall (fun ev => exists c1 c2,
            onReadEntry host destDir strip limits c1 (fst ev) = (c2, snd ev))
         (fst (run_hook host destDir strip limits c entries)).
Proof.
  revert c. induction entries as [|e rest IH]; intros c; simpl; [constructor|].
  destruct (onReadEntry host destDir strip limits c e) as [c' v] eqn:E.
  specialize (IH c').
  destruct (run_hook host destDir strip limits c' rest) as [seen r].
  destruct v; simpl in *; try constructor; try assumption; now exists c, c'.
Qed.

(** ** The parent directory of an output path *)

Lemma prefix_app (a r : string) : String.prefix a (a ++ r) = true.
Proof.
  induction a as [|c a IH]; rewrite ?append_nil_l, ?append_cons.
  - apply prefix_nil.
  - rewrite prefix_cons. now destruct (ascii_dec c c).
Qed.

Lemma prefix_split (a b : string) :
  String.prefix a b = true -> exists r, b = a ++ r.
Proof.
  revert b. induction a as [|c a IH]; intros b H.
  - now exists b.
  - destruct b as [|d b]; [discriminate H|]. rewrite prefix_cons in H.
    destruct (ascii_dec c d) as [->|]; [|discriminate H].
    destruct (IH b H) as [r ->]. now exists r.
Qed.

Lemma chars_app (a b : string) :
  list_ascii_of_string (a ++ b)
  = (list_ascii_of_string a ++ list_ascii_of_string b)%list.
Proof.
  induction a as [|c a IH]; rewrite ?append_nil_l, ?append_cons; simpl; congruence.
Qed.

Lemma chars_length (s : string) : length (list_ascii_of_string s) = String.length s.
Proof. induction s; simpl; congruence. Qed.

Lemma slashfree_chars (s : string) :
  slashfree s = true -> Forall (fun c => Js.is_slash c = false) (list_ascii_of_string s).
Proof.
  induction s as [|c s IH]; simpl; [constructor|].
  intros [Hc Hs]%andb_true_iff. constructor; [now apply negb_true_iff | now apply IH].
Qed.

Lemma dirname_end_none (l : list ascii) (i : nat) (m : bool) :
  Forall (fun c => Js.is_slash c = false) l -> Path.dirname_end l i m = None.
Proof.
  revert i m. induction l as [|c l IH]; intros i m Hl; simpl; [reflexivity|].
  apply Forall_cons in Hl as [Hc Hl]. rewrite Hc. now apply IH.
Qed.

Lemma dirname_end_after (l rest : list ascii) (i : nat) :
  Forall (fun c => Js.is_slash c = false) l ->
  Path.dirname_end (l ++ "/"%char :: rest) i false = Some (i - length l)%nat.
Proof.
  revert i. induction l as [|c l IH]; intros i Hl; simpl.
  - now rewrite Nat.sub_0_r.
  - apply Forall_cons in Hl as [Hc Hl]. rewrite Hc, IH by exact Hl. f_equal. lia.
Qed.

Lemma dirname_end_segment (l rest : list ascii) (i : nat) (m : bool) :
  l <> [] -> Forall (fun c => Js.is_slash c = false) l ->
  Path.dirname_end (l ++ "/"%char :: rest) i m = Some (i - length l)%nat.
Proof.
  intros Hne Hl. destruct l as [|c l]; [congruence|]. simpl.
  apply Forall_cons in Hl as [Hc Hl]. rewrite Hc, dirname_end_after by exact Hl.
  f_equal. lia.
Qed.

(** [dirname] of a path that ends in a segment after a separator *)
Lemma dirname_last_segment (x s : string) :
  x <> "" -> x <> "/" -> segment s ->
  Path.dirname (x ++ "/" ++ s) = Js.slice_to (String.length x) (x ++ "/" ++ s)
  /\ Js.slice_to (String.length x) (x ++ "/" ++ s) = x.
Proof.
  intros Hx Hroot [Hs Hsf]. split; [|apply slice_to_app].
  destruct x as [|c0 x']; [congruence|]. rewrite append_cons. unfold Path.dirname.
  rewrite chars_app, rev_app_distr, chars_app, rev_app_distr.
  simpl (List.rev (list_ascii_of_string "/")). rewrite <- app_assoc. cbn [app].
  rewrite !length_append. change (String.length "/") with 1%nat.
  rewrite dirname_end_segment.
  - rewrite length_rev, chars_length.
    replace (String.length x' + (1 + String.length s) - String.length s)%nat
      with (S (String.length x')) by lia.
    destruct (Js.is_slash c0) eqn:Ec; simpl andb; [|reflexivity].
    destruct x' as [|c1 x'']; [|reflexivity].
    exfalso. apply Hroot. f_equal. unfold Js.is_slash in Ec.
    now apply Ascii.eqb_eq in Ec.
  - intros E. apply (f_equal (@length ascii)) in E. rewrite length_rev, chars_length in E.
    destruct s; [congruence | discriminate E].
  - apply Forall_rev. now apply slashfree_chars.
Qed.

Lemma dirname_single (pre s : string) :
  (pre = "/" \/ pre = "") -> slashfree s = true ->
  (pre = "" -> s <> "") ->
  Path.dirname (pre ++ s) = if String.eqb pre "/" then "/" else ".".
Proof.
  intros [-> | ->] Hsf Hne.
  - rewrite append_cons, append_nil_l. unfold Path.dirname.
    rewrite dirname_end_none; [reflexivity|]. apply Forall_rev. now apply slashfree_chars.
  - rewrite append_nil_l. destruct s as [|c s]; [now destruct Hne|].
    simpl in Hsf. apply andb_true_iff in Hsf as [Hc Hs]. unfold Path.dirname.
    rewrite dirname_end_none; [|apply Forall_rev; now apply slashfree_chars].
    apply negb_true_iff in Hc. now rewrite Hc.
Qed.

Lemma resolve_shape (cwd : string) (args : list string) :
  exists pre segs,
    Path.resolve cwd args = pre ++ Js.join_slash segs
    /\ Forall segment segs
    /\ (pre = "/" \/ (pre = "" /\ segs <> [])).
Proof.
  unfold Path.resolve.
  destruct (Path.resolve_scan _ _) as [resolvedPath resolvedAbsolute].
  destruct (normalizeString_joined resolvedPath (negb resolvedAbsolute))
    as (segs & Hsegs & E).
  destruct resolvedAbsolute.
  - exists "/", segs. rewrite E. split; [reflexivity|]. split; [exact Hsegs | now left].
  - destruct (Nat.ltb_spec 0 (String.length (Path.normalizeString resolvedPath (negb false))))
      as [Hlen|Hlen].
    + exists "", segs. rewrite E. split; [reflexivity|]. split; [exact Hsegs|].
      right. split; [reflexivity|].
      intros ->. rewrite E in Hlen. simpl in Hlen. lia.
    + exists "", ["."]. split; [reflexivity|]. split.
      * constructor; [split; [discriminate | reflexivity] | constructor].
      * right. split; [reflexivity | discriminate].
Qed.

Lemma resolveSafeBaseDir_cases (cwd destDir : string) :
  resolveSafeBaseDir cwd destDir
  = if String.eqb (Path.resolve cwd [destDir]) "/" then "/"
    else Path.resolve cwd [destDir] ++ "/".
Proof.
  unfold resolveSafeBaseDir.
  destruct (Js.endsWith_slash (Path.resolve cwd [destDir])) eqn:E.
  - apply resolve_trailing_separator in E. now rewrite E.
  - destruct (String.eqb_spec (Path.resolve cwd [destDir]) "/") as [H|H]; [|reflexivity].
    rewrite H in E. discriminate E.
Qed.

Lemma first_separator_unique (s t x y : string) :
  slashfree s = true -> slashfree t = true ->
  s ++ "/" ++ x = t ++ "/" ++ y -> s = t /\ x = y.
Proof.
  revert t. induction s as [|a s IH]; intros t Hs Ht E.
  - destruct t as [|b t].
    + rewrite !append_nil_l in E. now injection E.
    + rewrite append_nil_l, !append_cons in E. injection E as <- _.
      discriminate Ht.
  - destruct t as [|b t].
    + rewrite append_nil_l, !append_cons in E. injection E as -> _. discriminate Hs.
    + rewrite !append_cons in E. injection E as -> E.
      simpl in Hs, Ht. apply andb_true_iff in Hs as [_ Hs]. apply andb_true_iff in Ht as [_ Ht].
      destruct (IH t Hs Ht E) as [-> ->]. now split.
Qed.

Lemma slashfree_without_separator (t x y : string) :
  slashfree t = true -> t <> x ++ "/" ++ y.
Proof.
  intros Ht ->. rewrite !slashfree_app in Ht.
  apply andb_true_iff in Ht as [_ Ht]. apply andb_true_iff in Ht as [Ht _]. discriminate Ht.
Qed.

Lemma join_slash_first (segs : list string) :
  Forall segment segs -> segs <> [] ->
  exists c r, Js.join_slash segs = String c r /\ Js.is_slash c = false.
Proof.
  intros Hall Hne. destruct segs as [|s rest]; [congruence|].
  apply Forall_cons in Hall as [[Hs Hsf] _].
  destruct s as [|c s']; [congruence|]. simpl in Hsf.
  apply andb_true_iff in Hsf as [Hc _]. apply negb_true_iff in Hc.
  destruct rest as [|q rest'].
  - now exists c, s'.
  - rewrite join_slash_cons, append_cons. now eauto.
Qed.

Lemma join_slash_app (a b : list string) :
  a <> [] -> b <> [] ->
  Js.join_slash (a ++ b) = Js.join_slash a ++ "/" ++ Js.join_slash b.
Proof.
  intros Ha Hb. induction a as [|x [|y a'] IH]; [congruence | |].
  - destruct b as [|q b']; [congruence | reflexivity].
  - rewrite <- !app_comm_cons, join_slash_cons, app_comm_cons, IH by discriminate.
    rewrite join_slash_cons. now rewrite !append_assoc.
Qed.

Lemma join_prefix_segments (dsegs : list string) :
  forall osegs rest,
    dsegs <> [] -> Forall segment dsegs -> Forall segment osegs ->
    Js.join_slash dsegs ++ "/" ++ rest = Js.join_slash osegs ->
    exists more, more <> [] /\ osegs = (dsegs ++ more)%list.
Proof.
  induction dsegs as [|d [|d2 t] IH]; intros osegs rest Hne Hd Ho E; [congruence | |].
  - apply Forall_cons in Hd as [[Hdne Hdsf] _]. simpl in E.
    destruct osegs as [|o [|o2 t']].
    + destruct d; [congruence | discriminate E].
    + apply Forall_cons in Ho as [[_ Hosf] _]. simpl in E. symmetry in E.
      now apply slashfree_without_separator in E.
    + apply Forall_cons in Ho as [[_ Hosf] _]. rewrite join_slash_cons in E.
      destruct (first_separator_unique _ _ _ _ Hdsf Hosf E) as [-> _].
      exists (o2 :: t'). split; [discriminate | reflexivity].
  - pose proof (Forall_cons_1 _ _ _ Hd) as [[Hdne Hdsf] Hd'].
    rewrite join_slash_cons, !append_assoc in E.
    destruct osegs as [|o [|o2 t']].
    + destruct d; [congruence | discriminate E].
    + apply Forall_cons in Ho as [[_ Hosf] _]. simpl in E. symmetry in E.
      now apply slashfree_without_separator in E.
    + pose proof (Forall_cons_1 _ _ _ Ho) as [[_ Hosf] Ho'].
      rewrite join_slash_cons in E.
      destruct (first_separator_unique _ _ _ _ Hdsf Hosf E) as [-> E'].
      destruct (IH (o2 :: t') rest ltac:(discriminate) Hd' Ho' E') as (more & Hmore & Heq).
      exists more. split; [exact Hmore|]. rewrite Heq. reflexivity.
Qed.

Lemma dirname_of_shape (pre : string) (init : list string) (s : string) :
  (pre = "/" \/ pre = "") -> Forall segment init -> segment s ->
  Path.dirname (pre ++ Js.join_slash (init ++ [s]))
  = match init with
    | [] => if String.eqb pre "/" then "/" else "."
    | _ :: _ => pre ++ Js.join_slash init
    end.
Proof.
  intros Hpre Hinit Hs. destruct init as [|i0 init'].
  - simpl. apply dirname_single; [exact Hpre | apply Hs | intros _; apply Hs].
  - rewrite join_slash_snoc by discriminate. rewrite <- append_assoc.
    destruct (join_slash_first (i0 :: init') Hinit ltac:(discriminate))
      as (c & r & Hj & Hc).
    destruct (dirname_last_segment (pre ++ Js.join_slash (i0 :: init')) s) as [H1 H2].
    + rewrite Hj. destruct Hpre as [-> | ->]; discriminate.
    + rewrite Hj. destruct Hpre as [-> | ->].
      * discriminate.
      * rewrite append_nil_l. intros [= -> _]. discriminate Hc.
    + exact Hs.
    + now rewrite H1, H2.
Qed.

(** The parent directory of a contained output path is [destDir] itself
    or lies within it. *)
Lemma parent_stays_inside (cwd destDir relPath : string) :
  within (resolveSafeBaseDir cwd destDir) (Path.resolve cwd [destDir; relPath]) ->
  Path.dirname (Path.resolve cwd [destDir; relPath]) = Path.resolve cwd [destDir]
  \/ within (resolveSafeBaseDir cwd destDir)
            (Path.dirname (Path.resolve cwd [destDir; relPath])).
Proof.
  unfold within, Js.startsWith. rewrite resolveSafeBaseDir_cases.
  destruct (resolve_shape cwd [destDir]) as (pd & dsegs & Hd & Hdseg & Hdpre).
  destruct (resolve_shape cwd [destDir; relPath]) as (po & osegs & Ho & Hoseg & Hopre).
  rewrite Ho. intros Hin.
  (* the last segment of the output path *)
  assert (Hpo : po = "/" \/ po = "") by (destruct Hopre as [?|[? _]]; auto).
  destruct (String.eqb_spec (Path.resolve cwd [destDir]) "/") as [Hroot|Hroot].
  - (* the destination is the root *)
    assert (po = "/") as ->.
    { destruct Hopre as [?|[-> Hne]]; [assumption|]. rewrite append_nil_l in Hin.
      destruct (join_slash_first osegs Hoseg Hne) as (c & r & Hj & Hc).
      rewrite Hj, prefix_cons in Hin. destruct (ascii_dec "/" c) as [<-|]; discriminate. }
    induction osegs as [|s init _] using rev_ind.
    + left. now rewrite Hroot.
    + apply Forall_app in Hoseg as [Hinit Hs]. apply Forall_cons in Hs as [Hs _].
      rewrite dirname_of_shape by (auto; now left).
      destruct init; [left; now rewrite Hroot | right; apply (prefix_app "/")].
  - (* the destination is below the root *)
    assert (Hdne : dsegs <> []).
    { intros ->. destruct Hdpre as [-> | [_ H]]; [|congruence]. now apply Hroot. }
    apply prefix_split in Hin as [rest Hrest]. rewrite Hd in Hrest.
    destruct (join_slash_first dsegs Hdseg Hdne) as (cd & rd & Hjd & Hcd).
    assert (po = pd /\ Js.join_slash osegs = Js.join_slash dsegs ++ "/" ++ rest)
      as [-> Hjoin].
    { rewrite !append_assoc in Hrest.
      destruct Hdpre as [-> | [-> _]], Hopre as [-> | [-> Hone]].
      - rewrite !append_cons, !append_nil_l in Hrest. now injection Hrest.
      - rewrite append_cons, !append_nil_l in Hrest.
        destruct (join_slash_first osegs Hoseg Hone) as (c & r & Hj & Hc).
        rewrite Hj in Hrest. injection Hrest as -> _. discriminate Hc.
      - rewrite append_nil_l, Hjd, !append_cons in Hrest. injection Hrest as <- _.
        discriminate Hcd.
      - now rewrite !append_nil_l in Hrest. }
    destruct (join_prefix_segments dsegs osegs rest Hdne Hdseg Hoseg (eq_sym Hjoin))
      as (more & Hmore & ->).
    induction more as [|s minit _] using rev_ind; [congruence|].
    apply Forall_app in Hoseg as [_ Hmoreseg].
    apply Forall_app in Hmoreseg as [Hminit Hs]. apply Forall_cons in Hs as [Hs _].
    rewrite app_assoc.
    assert (Hpd : pd = "/" \/ pd = "") by (destruct Hdpre as [?|[? _]]; auto).
    rewrite dirname_of_shape; [|exact Hpd | now apply Forall_app | exact Hs].
    destruct (dsegs ++ minit)%list as [|i0 init'] eqn:Einit.
    { apply app_eq_nil in Einit as [-> _]. congruence. }
    rewrite <- Einit. destruct minit as [|m0 minit'].
    + left. now rewrite app_nil_r, Hd.
    + right. rewrite join_slash_app by (auto; discriminate).
      rewrite Hd, <- !append_assoc. apply prefix_app.
Qed.

(** C2. The candidate output path of an entry is [destDir] resolved with
    the stripped relative path; [resolveCheckedOutPath] fails with a
    PathEscape error unless that path starts with the resolved [destDir]
    followed by the path separator.  The check is made again from
    [destDir] for every entry: every call the zip extractor makes into
    the file system is made for an entry of the archive, at the entry's
    output path inside [destDir] or to create the parent directory of that
    path, which is [destDir] itself or inside it; and the output path of
    every entry the tar hook lets pass is inside [destDir] too. *)
Theorem every_write_stays_under_destDir (host : Host) (destDir : string) :
  let safeBase := resolveSafeBaseDir (cwd host) destDir in
  let resolved := Path.resolve (cwd host) [destDir] in
  (safeBase = if String.eqb resolved "/" then "/" else resolved ++ "/")
  /\ (forall relPath original,
        let outPath := Path.resolve (cwd host) [destDir; relPath] in
        (within safeBase outPath ->
         resolveCheckedOutPath (cwd host) destDir relPath original = Ok outPath)
        /\ (~ within safeBase outPath ->
            resolveCheckedOutPath (cwd host) destDir relPath original
            = Err (ErrEscapes original)
            /\ error_kind (ErrEscapes original) = PathEscape))
  /\ (forall archivePath archive stripComponents limits w,
        exists new,
          calls (snd (extractZip host archivePath archive destDir stripComponents limits w))
          = (calls w ++ new)%list
          /\ Forall (fun c => exists e,
                       In e (zip_entries archive)
                       /\ made_for host destDir (resolveStrip stripComponents) (name e) c)
                    new)
  /\ (forall relPath,
        let outPath := Path.resolve (cwd host) [destDir; relPath] in
        within safeBase outPath ->
        Path.dirname outPath = resolved \/ within safeBase (Path.dirname outPath))
  /\ (forall entries stripComponents limits,
        Forall (fun ev =>
                  snd ev = Passed ->
                  exists relPath,
                    stripArchivePath (path (fst ev)) (resolveStrip stripComponents)
                    = Some relPath
                    /\ within safeBase (Path.resolve (cwd host) [destDir; relPath]))
               (fst (extractTar host entries destDir stripComponents limits))).
Proof.
  cbv zeta. split; [|split; [|split; [|split]]].
  - apply resolveSafeBaseDir_cases.
  - intros relPath original.
    destruct (resolveCheckedOutPath_spec (cwd host) destDir relPath original)
      as (H1 & H2 & _).
    split; [exact H1 | intros H; split; [now apply H2 | reflexivity]].
  - intros. apply logs_extractZip.
  - intros relPath. apply parent_stays_inside.
  - intros entries stripComponents limits. unfold extractTar.
    eapply Forall_impl; [apply run_hook_seen|].
    intros [e v] (c1 & c2 & Hhook) Hv. simpl in *. subst v.
    apply onReadEntry_passed in Hhook as (relPath & _ & H2 & _ & _ & H5 & _).
    now exists relPath.
Qed.

(** ** Entry types *)

Lemma onReadEntry_link host destDir strip limits c e relPath out :
  validateArchiveEntryPath (path e) = Ok tt ->
  stripArchivePath (path e) strip = Some relPath ->
  validateArchiveEntryPath relPath = Ok tt ->
  resolveCheckedOutPath (cwd host) destDir relPath (path e) = Ok out ->
  is_link_like (type e) = true ->
  onReadEntry host destDir strip limits c e = (c, Aborted (ErrLink (path e))).
Proof.
  intros H1 H2 H3 H4 H5. unfold onReadEntry. now rewrite H1, H2, H3, H4, H5.
Qed.

Lemma bind_pointwise {A B} (c : M A) (k1 k2 : A -> M B) (w : world) :
  (forall a w', k1 a w' = k2 a w') -> bind c k1 w = bind c k2 w.
Proof. intros H. unfold bind. destruct (c w) as [[a|e] w']; [apply H | reflexivity]. Qed.

Lemma restore_mode_low_bits host out e1 e2 :
  option_map permission_bits (unixPermissions e1)
  = option_map permission_bits (unixPermissions e2) ->
  restore_mode host out e1 = restore_mode host out e2.
Proof.
  unfold restore_mode.
  destruct (unixPermissions e1) as [u1|], (unixPermissions e2) as [u2|];
    intros H; try discriminate H; [|reflexivity].
  injection H as H. cbv zeta. now rewrite H.
Qed.

(** The type test of the hook, where the hook reaches it: an entry of
    type SymbolicLink, Link, BlockDevice, CharacterDevice, FIFO or Socket
    whose path checks have passed makes the hook abort the run with the
    link error, and no entry the hook passes has such a type.  The zip
    extractor has no check of an entry's type: what it does with an entry
    depends on the stored mode only through its low nine bits. *)
Lemma hook_type_test_where_reached (host : Host) (destDir : string) (strip : number)
    (limits : ResolvedLimits) :
  (forall c e rest relPath out,
     validateArchiveEntryPath (path e) = Ok tt ->
     stripArchivePath (path e) strip = Some relPath ->
     validateArchiveEntryPath relPath = Ok tt ->
     resolveCheckedOutPath (cwd host) destDir relPath (path e) = Ok out ->
     is_link_like (type e) = true ->
     onReadEntry host destDir strip limits c e = (c, Aborted (ErrLink (path e)))
     /\ run_hook host destDir strip limits c (e :: rest) = ([], Err (ErrLink (path e)))
     /\ error_kind (ErrLink (path e)) = DisallowedEntryType)
  /\ (forall c entries,
        Forall (fun ev => snd ev = Passed -> is_link_like (type (fst ev)) = false)
               (fst (run_hook host destDir strip limits c entries)))
  /\ (forall xb nm isDir data u u' w,
        permission_bits u = permission_bits u' ->
        extract_entry host destDir strip limits xb
          {| name := nm; dir := isDir; unixPermissions := Some u; content := data |} w
        = extract_entry host destDir strip limits xb
            {| name := nm; dir := isDir; unixPermissions := Some u'; content := data |} w).
Proof.
  split; [|split].
  - intros c e rest relPath out H1 H2 H3 H4 H5.
    pose proof (onReadEntry_link host destDir strip limits c e relPath out
                  H1 H2 H3 H4 H5) as Hhook.
    repeat split; [exact Hhook|]. simpl. now rewrite Hhook.
  - intros c entries. eapply Forall_impl; [apply run_hook_seen|].
    intros [e v] (c1 & c2 & Hhook) Hv. simpl in *. subst v.
    now apply onReadEntry_passed in Hhook as (relPath & _ & _ & _ & _ & _ & H6 & _).
  - intros xb nm isDir data u u' w Hbits. unfold extract_entry.
    cbn [name dir content].
    apply bind_pointwise. intros _ w1.
    destruct (stripArchivePath nm strip) as [relPath|]; [|reflexivity].
    apply bind_pointwise. intros _ w2.
    apply bind_pointwise. intros outPath w3.
    destruct isDir; [reflexivity|].
    apply bind_pointwise. intros _ w4.
    apply bind_pointwise. intros xb' w5.
    rewrite (restore_mode_low_bits host outPath
      {| name := nm; dir := false; unixPermissions := Some u; content := data |}
      {| name := nm; dir := false; unixPermissions := Some u'; content := data |});
      [reflexivity|].
    simpl. now rewrite Hbits.
Qed.

Lemma hook_type_test_where_reached_example :
  run_hook example_host
    "/dest" (of_Z 1) (resolveExtractLimits None)
    {| entryCount := 0; tarExtractedBytes := 0 |}
    [ {| path := "pkg/evil"; type := "SymbolicLink"; size := None |};
      {| path := "pkg/a.txt"; type := "File"; size := Some (of_Z 3) |} ]
  = ([], Err (ErrLink "pkg/evil")).
Proof.
  refine (proj1 (proj2 (proj1 (hook_type_test_where_reached
    example_host
    "/dest" (of_Z 1) (resolveExtractLimits None))
    {| entryCount := 0; tarExtractedBytes := 0 |}
    {| path := "pkg/evil"; type := "SymbolicLink"; size := None |}
    [ {| path := "pkg/a.txt"; type := "File"; size := Some (of_Z 3) |} ]
    "evil" "/dest/evil" _ _ _ _ _)));
    reflexivity.
Defined.

(** A zip entry whose stored mode declares a symbolic link (0o120777)
    is not rejected: the extraction succeeds and the entry is written as
    a regular file holding the link's target. *)
Lemma zip_symlink_entry_written_as_file :
  let host := example_host in
  let e := {| name := "pkg/link"; dir := false; unixPermissions := Some 41471;
              content := Buffered [Byte.x2f; Byte.x65; Byte.x74; Byte.x63] |} in
  let w := {| nodes := {[ "/dest" := Dir ]}; calls := [] |} in
  let r := extractZip host "plugin.zip" (Some {| zf_size := 200; zf_files := Some [e] |})
             "/dest" (Some (of_Z 1)) None w in
  declares_symlink e = true
  /\ fst r = Ok tt
  /\ nodes (snd r) !! "/dest/link"
     = Some (File [Byte.x2f; Byte.x65; Byte.x74; Byte.x63] 511)
  /\ calls (snd r)
     = [ CMkdir "/dest";
         CWriteFile "/dest/link" [Byte.x2f; Byte.x65; Byte.x74; Byte.x63];
         CChmod "/dest/link" 511 ].
Proof. cbv zeta. repeat split; vm_compute; reflexivity. Qed.

(** C3, at the failing input.  The claim has every entry of a link-like
    type rejected, whatever its path.  The hook looks at the type only
    after its early return for a path of which stripping leaves nothing
    (lines 574-577, the test at 581-590): for the SymbolicLink entry
    "./evil" under [stripComponents = 1] it returns early, neither
    rejecting the entry nor aborting, and the run goes on with the next
    entry and succeeds.  The callback of the earlier variant tests the
    type before it strips (lines 212-218) and throws the link error for
    the same entry. *)
Theorem tar_link_entry_skips_type_test :
  let link := {| path := "./evil"; type := "SymbolicLink"; size := Some (of_Z 0) |} in
  let file := {| path := "pkg/a.txt"; type := "File"; size := Some (of_Z 3) |} in
  let c := {| entryCount := 0; tarExtractedBytes := 0 |} in
  is_link_like (type link) = true
  /\ validateArchiveEntryPath (path link) = Ok tt
  /\ stripArchivePath (path link) (of_Z 1) = None
  /\ onReadEntry example_host "/dest" (of_Z 1) (resolveExtractLimits None) c link
     = (c, Skipped)
  /\ extractTar example_host [link; file] "/dest" (Some (of_Z 1)) None
     = ([(link, Skipped); (file, Passed)], Ok tt)
  /\ Earlier.filter_checks example_host "/dest" (of_Z 1) "./evil"
       {| Earlier.f_type := Some "SymbolicLink"; Earlier.f_isSymbolicLink := None |}
     = Err (ErrLink "./evil").
Proof. cbv zeta. repeat split; vm_compute; reflexivity. Qed.

(** ** The entry count *)










(** ** Byte limits in the zip extractor *)

Lemma byteLength_nonneg (b : list Byte.byte) : (0 <= byteLength b)%Z.
Proof. unfold byteLength. lia. Qed.

Lemma written_bytes_app (a b : list call) :
  written_bytes (a ++ b) = (written_bytes a + written_bytes b)%Z.
Proof.
  induction a as [|c a IH]; simpl; [reflexivity|].
  destruct c; rewrite ?IH; lia.
Qed.

Lemma fs_call_run (c : call) sc tg f (w : world) :
  fs_call c sc tg f w =
  match f (nodes w) with
  | Some m' => (Ok tt, {| nodes := m'; calls := (calls w ++ [c])%list |})
  | None => (Err (ErrHost sc tg), {| nodes := nodes w; calls := (calls w ++ [c])%list |})
  end.
Proof. reflexivity. Qed.

Lemma append_lookup (m : gmap string node) (p : string) chunk d mode :
  m !! p = Some (File d mode) ->
  Fs.append m p chunk !! p = Some (File (d ++ chunk) mode).
Proof. intros H. unfold Fs.append. rewrite H. apply lookup_insert_eq. Qed.

(** What the pump leaves behind, whether it ends or throws: the chunks
    it wrote kept the entry's running count within the limit, and the
    output file is still there. *)
Lemma pump_spec limits out chunks :
  forall eb xb w d mode,
    nodes w !! out = Some (File d mode) ->
    (eb <= rMaxEntryBytes limits)%Z ->
    exists new d',
      calls (snd (pump limits out chunks eb xb w)) = (calls w ++ new)%list
      /\ Forall (fun c => call_target c = out) new
      /\ (eb + written_bytes new <= rMaxEntryBytes limits)%Z
      /\ nodes (snd (pump limits out chunks eb xb w)) !! out = Some (File d' mode).
Proof.
  induction chunks as [|chunk rest IH]; intros eb xb w d mode Hfile Heb.
  - exists [], d. simpl. rewrite app_nil_r. repeat split; [constructor | lia | exact Hfile].
  - simpl. unfold bind at 1. unfold lift, onChunkBytes.
    destruct (Z.ltb_spec (rMaxEntryBytes limits) (eb + byteLength chunk)) as [H1|H1].
    { exists [], d. simpl. rewrite app_nil_r.
      repeat split; [constructor | lia | exact Hfile]. }
    destruct (Z.ltb_spec (rMaxExtractedBytes limits) (xb + byteLength chunk)) as [H2|H2].
    { exists [], d. simpl. rewrite app_nil_r.
      repeat split; [constructor | lia | exact Hfile]. }
    unfold bind at 1. unfold fs_write. rewrite fs_call_run. cbn [fst snd].
    set (w1 := {| nodes := Fs.append (nodes w) out chunk;
                  calls := (calls w ++ [CWrite out chunk])%list |}).
    destruct (IH (eb + byteLength chunk)%Z (xb + byteLength chunk)%Z w1
                 (d ++ chunk)%list mode) as (new & d' & Hc & Hall & Hw & Hn).
    { now apply append_lookup. }
    { exact H1. }
    exists (CWrite out chunk :: new), d'. rewrite Hc. subst w1. cbn [calls].
    rewrite <- app_assoc. repeat split.
    + constructor; [reflexivity | exact Hall].
    + cbn [written_bytes fold_right]. fold (written_bytes new). lia.
    + exact Hn.
Qed.

(** An entry larger than the limit makes the pump throw a limit error;
    while the entry limit is the tighter one, it is the entry error. *)
Lemma pump_over limits out chunks :
  forall eb xb w,
    (eb <= rMaxEntryBytes limits)%Z ->
    (rMaxEntryBytes limits < eb + entry_bytes (Streamed chunks))%Z ->
    exists err,
      fst (pump limits out chunks eb xb w) = Err err
      /\ (err = ErrEntrySize \/ err = ErrExtractedSize)
      /\ ((xb - eb + rMaxEntryBytes limits <= rMaxExtractedBytes limits)%Z ->
          err = ErrEntrySize).
Proof.
  induction chunks as [|chunk rest IH]; intros eb xb w Heb Hover.
  - simpl in Hover. lia.
  - simpl. unfold bind at 1. unfold lift, onChunkBytes.
    destruct (Z.ltb_spec (rMaxEntryBytes limits) (eb + byteLength chunk)) as [H1|H1].
    { exists ErrEntrySize. simpl. repeat split; auto. }
    destruct (Z.ltb_spec (rMaxExtractedBytes limits) (xb + byteLength chunk)) as [H2|H2].
    { exists ErrExtractedSize. simpl. repeat split; auto. intros. lia. }
    unfold bind at 1. unfold fs_write. rewrite fs_call_run. cbn [fst snd].
    cbn [entry_bytes fold_right] in Hover. fold (entry_bytes (Streamed rest)) in Hover.
    destruct (IH (eb + byteLength chunk)%Z (xb + byteLength chunk)%Z
                {| nodes := Fs.append (nodes w) out chunk;
                   calls := (calls w ++ [CWrite out chunk])%list |})
      as (err & Herr & Hkind & Htight); [exact H1 | lia |].
    exists err. repeat split; [exact Herr | exact Hkind |].
    intros Hd. apply Htight. lia.
Qed.

Lemma unlink_gone host out (w : world) :
  unlink_denied host out = false ->
  nodes w !! out <> Some Dir ->
  nodes (snd (swallow (fs_unlink host out) w)) !! out = None
  /\ calls (snd (swallow (fs_unlink host out) w)) = (calls w ++ [CUnlink out])%list.
Proof.
  intros Hfree Hnd. unfold swallow, fs_unlink. rewrite fs_call_run. unfold unlink.
  rewrite Hfree.
  destruct (nodes w !! out) as [[d mode|]|] eqn:E; cbn [snd nodes calls].
  - split; [apply lookup_delete_eq | reflexivity].
  - congruence.
  - split; [exact E | reflexivity].
Qed.

Lemma mkdir_p_is_dir (m m' : gmap string node) (p : string) :
  mkdir_p m p = Some m' -> is_dir m' p = true.
Proof.
  unfold mkdir_p, is_dir. cbn [lineage].
  destruct (is_root p) eqn:E; [reflexivity|].
  destruct (existsb _ _); [discriminate|]. intros [= <-].
  cbn [foldr]. now rewrite lookup_insert_eq.
Qed.

(** The guarded write of an entry that is larger than the entry limit. *)
Lemma write_entry_over host limits out d xb (w : world) :
  unlink_denied host out = false ->
  nodes w !! out <> Some Dir ->
  is_dir (nodes w) (Path.dirname out) = true ->
  (0 <= rMaxEntryBytes limits)%Z ->
  (rMaxEntryBytes limits < entry_bytes d)%Z ->
  (exists err,
     fst (write_entry host limits out d xb w) = Err err
     /\ (err = ErrEntrySize \/ err = ErrExtractedSize)
     /\ ((xb + rMaxEntryBytes limits <= rMaxExtractedBytes limits)%Z -> err = ErrEntrySize))
  /\ nodes (snd (write_entry host limits out d xb w)) !! out = None
  /\ exists new,
       calls (snd (write_entry host limits out d xb w))
       = (calls w ++ new ++ [CUnlink out])%list
       /\ Forall (fun c => call_target c = out) new
       /\ (written_bytes new <= rMaxEntryBytes limits)%Z.
Proof.
  intros Hfree Hnd Hparent Hlim Hover. destruct d as [chunks|buf].
  - assert (exists m1 mode, open_w (create_mode host) (nodes w) out [] = Some m1
                            /\ m1 !! out = Some (File [] mode)) as (m1 & mode & Hopen & Hm1).
    { unfold open_w. destruct (nodes w !! out) as [[d0 mode0|]|] eqn:E.
      - eexists _, mode0. split; [reflexivity | apply lookup_insert_eq].
      - congruence.
      - rewrite Hparent. eexists _, _. split; [reflexivity | apply lookup_insert_eq]. }
    set (w1 := {| nodes := m1; calls := (calls w ++ [COpen out])%list |}).
    assert (Hrun : write_entry host limits out (Streamed chunks) xb w =
                   match pump limits out chunks 0 xb w1 with
                   | (Ok a, w') => (Ok a, w')
                   | (Err e, w') => (Err e, snd (swallow (fs_unlink host out) w'))
                   end).
    { unfold write_entry, try_cleanup, bind, fs_open. rewrite fs_call_run, Hopen.
      reflexivity. }
    rewrite Hrun. clear Hrun.
    destruct (pump_over limits out chunks 0 xb w1 Hlim ltac:(lia))
      as (err & Herr & Hkind & Htight).
    destruct (pump_spec limits out chunks 0 xb w1 [] mode Hm1 Hlim)
      as (new & d' & Hcalls & Hall & Hwritten & Hnode).
    destruct (pump limits out chunks 0 xb w1) as [r w2]. cbn [fst snd] in *. subst r.
    destruct (unlink_gone host out w2 Hfree) as [Hgone Hlog]; [congruence|].
    cbn [fst snd]. split; [|split].
    + exists err. repeat split; [exact Hkind | intros; apply Htight; lia].
    + exact Hgone.
    + exists (COpen out :: new). rewrite Hlog, Hcalls. subst w1. cbn [calls].
      rewrite <- !app_assoc. repeat split.
      * constructor; [reflexivity | exact Hall].
      * cbn [written_bytes fold_right]. fold (written_bytes new). lia.
  - cbn [entry_bytes] in Hover.
    assert (Hrun : write_entry host limits out (Buffered buf) xb w =
                   (Err ErrEntrySize, snd (swallow (fs_unlink host out) w))).
    { unfold write_entry, try_cleanup, bind, lift, onChunkBytes.
      destruct (Z.ltb_spec (rMaxEntryBytes limits) (0 + byteLength buf)) as [H1|H1];
        [reflexivity | lia]. }
    rewrite Hrun. clear Hrun.
    destruct (unlink_gone host out w Hfree Hnd) as [Hgone Hlog].
    cbn [fst snd]. split; [|split].
    + exists ErrEntrySize. repeat split; auto.
    + exact Hgone.
    + exists []. rewrite Hlog. repeat split; [constructor | simpl; lia].
Qed.

Lemma extract_entry_file_run host destDir strip limits xb e out (w : world) :
  dir e = false ->
  entry_out_path host destDir strip (name e) = Some out ->
  extract_entry host destDir strip limits xb e w =
  bind (fs_mkdir (Path.dirname out))
       (fun _ => bind (write_entry host limits out (content e) xb)
                      (fun xb' => bind (restore_mode host out e) (fun _ => ret xb'))) w.
Proof.
  intros Hdir Hout. unfold entry_out_path in Hout. unfold extract_entry.
  destruct (validateArchiveEntryPath (name e)) as [[]|] eqn:E1; [|discriminate].
  destruct (stripArchivePath (name e) strip) as [relPath|]; [|discriminate].
  destruct (validateArchiveEntryPath relPath) as [[]|] eqn:E3; [|discriminate].
  destruct (resolveCheckedOutPath _ _ _ _) as [o|] eqn:E4; [|discriminate].
  injection Hout as ->. rewrite Hdir. reflexivity.
Qed.

Lemma resolved_limits_positive (limits : option ArchiveExtractLimits) :
  (0 < rMaxArchiveBytes (resolveExtractLimits limits))%Z
  /\ (0 < rMaxEntries (resolveExtractLimits limits))%Z
  /\ (0 < rMaxExtractedBytes (resolveExtractLimits limits))%Z
  /\ (0 < rMaxEntryBytes (resolveExtractLimits limits))%Z.
Proof.
  unfold resolveExtractLimits; simpl.
  repeat split; apply clampLimit_spec; reflexivity.
Qed.

(** C6. With [maxEntryBytes = 1000], a zip archive whose single file
    entry decompresses to 1001 bytes: the extraction fails with a
    LimitExceeded error (the entry-size error when no smaller total limit
    is given), raised by the count made before each chunk is passed on,
    so that at most 1000 bytes were ever handed to the file; the file is
    unlinked before the error leaves, and, the host not refusing the
    unlink, no file is left at the entry's output path. *)
Theorem zip_entry_over_limit_is_removed (host : Host) (archivePath : string) (size : Z)
    (e : ZipEntry) (destDir : string) (stripComponents : option number)
    (limits : ArchiveExtractLimits) (w : world) (outPath : string)
    (m1 : gmap string node) :
  maxEntryBytes limits = Some (of_Z 1000) ->
  entry_bytes (content e) = 1001%Z ->
  dir e = false ->
  (size <= rMaxArchiveBytes (resolveExtractLimits (Some limits)))%Z ->
  entry_out_path host destDir (resolveStrip stripComponents) (name e) = Some outPath ->
  mkdir_p (nodes w) (Path.dirname outPath) = Some m1 ->
  m1 !! outPath <> Some Dir ->
  unlink_denied host outPath = false ->
  let r := extractZip host archivePath
             (Some {| zf_size := size; zf_files := Some [e] |})
             destDir stripComponents (Some limits) w in
  (exists err, fst r = Err err /\ error_kind err = LimitExceeded
               /\ (maxExtractedBytes limits = None -> err = ErrEntrySize))
  /\ nodes (snd r) !! outPath = None
  /\ exists new,
       calls (snd r)
       = (calls w ++ CMkdir (Path.dirname outPath) :: new ++ [CUnlink outPath])%list
       /\ Forall (fun c => call_target c = outPath) new
       /\ (written_bytes new <= 1000)%Z.
Proof.
  intros Hmax Hbytes Hdir Hsize Hout Hmk Hnd Hfree.
  set (rl := resolveExtractLimits (Some limits)).
  assert (H1000 : rMaxEntryBytes rl = 1000%Z).
  { subst rl. unfold resolveExtractLimits. simpl. now rewrite Hmax. }
  pose proof (resolved_limits_positive (Some limits)) as (_ & Hentries & _ & _).
  fold rl in Hentries, Hsize.
  set (w1 := {| nodes := m1; calls := (calls w ++ [CMkdir (Path.dirname outPath)])%list |}).
  destruct (write_entry_over host rl outPath (content e) 0 w1)
    as ((err & Herr & Hkind & Htight) & Hgone & (new & Hcalls & Hall & Hwritten)).
  { exact Hfree. }
  { exact Hnd. }
  { subst w1. cbn [nodes]. eapply mkdir_p_is_dir, Hmk. }
  { lia. }
  { lia. }
  assert (Hrun : extractZip host archivePath
             (Some {| zf_size := size; zf_files := Some [e] |})
             destDir stripComponents (Some limits) w
           = (Err err, snd (write_entry host rl outPath (content e) 0 w1))).
  { unfold extractZip. cbv zeta. fold rl. cbn [zf_size zf_files length].
    destruct (Z.ltb_spec (rMaxArchiveBytes rl) size) as [?|_]; [lia|].
    destruct (Z.ltb_spec (rMaxEntries rl) (Z.of_nat 1)) as [?|_]; [lia|].
    cbn [extract_entries]. unfold bind at 1.
    rewrite (extract_entry_file_run host destDir _ rl 0 e outPath w Hdir Hout).
    unfold bind at 1. unfold fs_mkdir. rewrite fs_call_run, Hmk. fold w1.
    unfold bind at 1.
    destruct (write_entry host rl outPath (content e) 0 w1) as [r w2].
    cbn [fst snd] in *. now subst r. }
  cbv zeta. rewrite Hrun. cbn [fst snd]. split; [|split].
  - exists err. repeat split.
    + destruct Hkind as [-> | ->]; reflexivity.
    + intros Hnone. apply Htight. rewrite H1000. subst rl.
      unfold resolveExtractLimits. simpl. rewrite Hnone. simpl. lia.
  - exact Hgone.
  - exists new. rewrite Hcalls. subst w1. cbn [calls]. rewrite <- app_assoc.
    repeat split; [exact Hall | lia].
Qed.

Lemma zip_entry_over_limit_is_removed_witness :
  let host := example_host in
  let e := {| name := "pkg/big.bin"; dir := false; unixPermissions := Some 33188;
              content := Streamed [repeat Byte.x00 500; repeat Byte.x01 501] |} in
  let limits := {| maxArchiveBytes := None; maxEntries := None;
                   maxExtractedBytes := None; maxEntryBytes := Some (of_Z 1000) |} in
  let w := {| nodes := {[ "/dest" := Dir ]}; calls := [] |} in
  let r := extractZip host "plugin.zip" (Some {| zf_size := 300; zf_files := Some [e] |})
             "/dest" (Some (of_Z 1)) (Some limits) w in
  fst r = Err ErrEntrySize /\ nodes (snd r) !! "/dest/big.bin" = None.
Proof.
  cbv zeta.
  destruct (zip_entry_over_limit_is_removed
    example_host
    "plugin.zip" 300
    {| name := "pkg/big.bin"; dir := false; unixPermissions := Some 33188;
       content := Streamed [repeat Byte.x00 500; repeat Byte.x01 501] |}
    "/dest" (Some (of_Z 1))
    {| maxArchiveBytes := None; maxEntries := None;
       maxExtractedBytes := None; maxEntryBytes := Some (of_Z 1000) |}
    {| nodes := {[ "/dest" := Dir ]}; calls := [] |}
    "/dest/big.bin" {[ "/dest" := Dir ]})
    as ((err & Herr & _ & Htight) & Hgone & _).
  - reflexivity.
  - vm_compute. reflexivity.
  - reflexivity.
  - vm_compute. discriminate.
  - vm_compute. reflexivity.
  - vm_compute. reflexivity.
  - vm_compute. discriminate.
  - reflexivity.
  - split; [|exact Hgone]. rewrite Herr. f_equal. now apply Htight.
Defined.

(** ** The permission restore *)

Lemma same_data_lookup (m1 m2 : gmap string node) (p : string) :
  same_data m1 m2 -> erase_mode <$> (m1 !! p) = erase_mode <$> (m2 !! p).
Proof. intros H. rewrite <- !lookup_fmap. unfold same_data in H. now rewrite H. Qed.

Lemma same_data_insert (m1 m2 : gmap string node) (p : string) (n1 n2 : node) :
  same_data m1 m2 -> erase_mode n1 = erase_mode n2 ->
  same_data (<[p := n1]> m1) (<[p := n2]> m2).
Proof. unfold same_data. intros H Hn. rewrite !fmap_insert. now rewrite H, Hn. Qed.

Lemma same_data_delete (m1 m2 : gmap string node) (p : string) :
  same_data m1 m2 -> same_data (delete p m1) (delete p m2).
Proof. unfold same_data. intros H. rewrite !fmap_delete. now rewrite H. Qed.

Lemma same_data_cases (m1 m2 : gmap string node) (p : string) :
  same_data m1 m2 ->
  (exists d mode1 mode2, m1 !! p = Some (File d mode1) /\ m2 !! p = Some (File d mode2))
  \/ (m1 !! p = Some Dir /\ m2 !! p = Some Dir)
  \/ (m1 !! p = None /\ m2 !! p = None).
Proof.
  intros H. apply (same_data_lookup _ _ p) in H.
  destruct (m1 !! p) as [[d1 a1|]|], (m2 !! p) as [[d2 a2|]|]; simpl in H;
    try discriminate H.
  - injection H as ->. left. now eauto.
  - right. now left.
  - right. now right.
Qed.

Lemma same_data_is_file (m1 m2 : gmap string node) (p : string) :
  same_data m1 m2 -> is_file m1 p = is_file m2 p.
Proof.
  intros H. unfold is_file.
  destruct (same_data_cases m1 m2 p H) as [(d & a & b & -> & ->) | [[-> ->] | [-> ->]]];
    reflexivity.
Qed.

Lemma same_data_is_dir (m1 m2 : gmap string node) (p : string) :
  same_data m1 m2 -> is_dir m1 p = is_dir m2 p.
Proof.
  intros H. unfold is_dir.
  destruct (same_data_cases m1 m2 p H) as [(d & a & b & -> & ->) | [[-> ->] | [-> ->]]];
    reflexivity.
Qed.

Lemma blind_mkdir_p (p : string) : blind (fun m => mkdir_p m p) (fun m => mkdir_p m p).
Proof.
  intros m1 m2 H. unfold mkdir_p.
  assert (forall chain, existsb (is_file m1) chain = existsb (is_file m2) chain) as ->.
  { induction chain as [|q chain IH]; simpl; [reflexivity|].
    now rewrite IH, (same_data_is_file m1 m2 q H). }
  destruct (existsb _ _); [exact I|].
  induction (lineage (S (String.length p)) p) as [|q chain IH]; simpl; [exact H|].
  now apply same_data_insert.
Qed.

Lemma blind_open_w (cm : Z) (p : string) data :
  blind (fun m => open_w cm m p data) (fun m => open_w cm m p data).
Proof.
  intros m1 m2 H. unfold open_w. rewrite (same_data_is_dir m1 m2 _ H).
  destruct (same_data_cases m1 m2 p H) as [(d & a & b & -> & ->) | [[-> ->] | [-> ->]]].
  - now apply same_data_insert.
  - exact I.
  - destruct (is_dir m2 _); [now apply same_data_insert | exact I].
Qed.

Lemma blind_append (p : string) chunk :
  blind (fun m => Some (Fs.append m p chunk)) (fun m => Some (Fs.append m p chunk)).
Proof.
  intros m1 m2 H. unfold Fs.append.
  destruct (same_data_cases m1 m2 p H) as [(d & a & b & -> & ->) | [[-> ->] | [-> ->]]];
    [now apply same_data_insert | exact H | exact H].
Qed.

Lemma blind_unlink (denied1 denied2 : string -> bool) (p : string) :
  denied1 p = denied2 p ->
  blind (fun m => unlink denied1 m p) (fun m => unlink denied2 m p).
Proof.
  intros Hd m1 m2 H. unfold unlink. rewrite Hd. destruct (denied2 p); [exact I|].
  destruct (same_data_cases m1 m2 p H) as [(d & a & b & -> & ->) | [[-> ->] | [-> ->]]];
    [now apply same_data_delete | exact I | exact I].
Qed.

Lemma chmod_same_data denied (m : gmap string node) (p : string) (mode : Z) m' :
  chmod denied m p mode = Some m' -> same_data m m'.
Proof.
  unfold chmod. destruct (denied p); [discriminate|].
  destruct (m !! p) as [[d a|]|] eqn:E; intros [= <-].
  - unfold same_data. rewrite fmap_insert. symmetry. apply insert_id.
    now rewrite lookup_fmap, E.
  - reflexivity.
Qed.

Lemma agree_ret {A} (a : A) : agree (ret a) (ret a).
Proof. intros w1 w2 H. now split. Qed.

Lemma agree_throw {A} e : agree (@throw A e) (throw e).
Proof. intros w1 w2 H. now split. Qed.

Lemma agree_lift {A} (r : result A) : agree (lift r) (lift r).
Proof. intros w1 w2 H. now split. Qed.

Lemma agree_bind {A B} (c1 c2 : M A) (k1 k2 : A -> M B) :
  agree c1 c2 -> (forall a, agree (k1 a) (k2 a)) -> agree (bind c1 k1) (bind c2 k2).
Proof.
  intros Hc Hk w1 w2 H. unfold bind. destruct (Hc w1 w2 H) as [Hr Hw].
  destruct (c1 w1) as [[a1|e1] w1'], (c2 w2) as [[a2|e2] w2']; simpl in *;
    try discriminate Hr.
  - injection Hr as ->. now apply Hk.
  - injection Hr as ->. split; [reflexivity | exact Hw].
Qed.

Lemma agree_swallow (c1 c2 : M unit) : agree_world c1 c2 -> agree (swallow c1) (swallow c2).
Proof. intros Hc w1 w2 H. unfold swallow. simpl. split; [reflexivity | now apply Hc]. Qed.

Lemma agree_try_cleanup {A} (b1 b2 : M A) (h1 h2 : M unit) :
  agree b1 b2 -> agree_world h1 h2 -> agree (try_cleanup b1 h1) (try_cleanup b2 h2).
Proof.
  intros Hb Hh w1 w2 H. unfold try_cleanup. destruct (Hb w1 w2 H) as [Hr Hw].
  destruct (b1 w1) as [[a1|e1] w1'], (b2 w2) as [[a2|e2] w2']; simpl in *;
    try discriminate Hr.
  - split; [exact Hr | exact Hw].
  - split; [exact Hr | now apply Hh].
Qed.

Lemma agree_fs_call (c : call) sc tg f1 f2 :
  blind f1 f2 -> agree (fs_call c sc tg f1) (fs_call c sc tg f2).
Proof.
  intros Hf w1 w2 [Hc Hd]. rewrite !fs_call_run. specialize (Hf _ _ Hd).
  destruct (f1 (nodes w1)), (f2 (nodes w2)); try contradiction; simpl;
    (split; [reflexivity | split; simpl; [now rewrite Hc | assumption]]).
Qed.

Lemma agree_world_of_agree {A} (c1 c2 : M A) : agree c1 c2 -> agree_world c1 c2.
Proof. intros H w1 w2 Hw. now apply H. Qed.

Lemma agree_world_chmod (h1 h2 : Host) (p : string) (mode : Z) :
  agree_world (fs_chmod h1 p mode) (fs_chmod h2 p mode).
Proof.
  intros w1 w2 [Hc Hd]. unfold fs_chmod. rewrite !fs_call_run.
  destruct (chmod (chmod_denied h1) (nodes w1) p mode) as [m1|] eqn:E1,
           (chmod (chmod_denied h2) (nodes w2) p mode) as [m2|] eqn:E2;
    simpl; (split; simpl; [now rewrite Hc|]).
  - apply chmod_same_data in E1, E2. unfold same_data in *. congruence.
  - apply chmod_same_data in E1. unfold same_data in *. congruence.
  - apply chmod_same_data in E2. unfold same_data in *. congruence.
  - exact Hd.
Qed.

Lemma agree_pump limits out chunks eb xb :
  agree (pump limits out chunks eb xb) (pump limits out chunks eb xb).
Proof.
  revert eb xb. induction chunks as [|chunk rest IH]; intros eb xb; simpl.
  - apply agree_ret.
  - apply agree_bind; [apply agree_lift|]. intros counts.
    apply agree_bind; [apply agree_fs_call, blind_append|]. intros _. apply IH.
Qed.

Lemma agree_write_entry (h1 h2 : Host) limits out d xb :
  create_mode h1 = create_mode h2 ->
  unlink_denied h1 out = unlink_denied h2 out ->
  agree (write_entry h1 limits out d xb) (write_entry h2 limits out d xb).
Proof.
  intros Hcm Hun. unfold write_entry. apply agree_try_cleanup.
  - destruct d as [chunks|buf].
    + apply agree_bind; [|intros _; apply agree_pump].
      unfold fs_open. rewrite Hcm. apply agree_fs_call, blind_open_w.
    + apply agree_bind; [apply agree_lift|]. intros counts.
      apply agree_bind; [|intros _; apply agree_ret].
      unfold fs_writeFile. rewrite Hcm. apply agree_fs_call, blind_open_w.
  - apply agree_world_of_agree, agree_swallow, agree_world_of_agree.
    apply agree_fs_call, blind_unlink, Hun.
Qed.

Lemma agree_restore_mode (h1 h2 : Host) out e :
  agree (restore_mode h1 out e) (restore_mode h2 out e).
Proof.
  unfold restore_mode. destruct (unixPermissions e) as [u|]; [|apply agree_ret].
  destruct (negb _); [|apply agree_ret].
  apply agree_swallow, agree_world_chmod.
Qed.

Lemma agree_extract_entry (h1 h2 : Host) destDir strip limits xb e :
  cwd h1 = cwd h2 -> create_mode h1 = create_mode h2 ->
  (forall p, unlink_denied h1 p = unlink_denied h2 p) ->
  agree (extract_entry h1 destDir strip limits xb e)
        (extract_entry h2 destDir strip limits xb e).
Proof.
  intros Hcwd Hcm Hun. unfold extract_entry. rewrite Hcwd.
  apply agree_bind; [apply agree_lift|]. intros _.
  destruct (stripArchivePath (name e) strip) as [relPath|]; [|apply agree_ret].
  apply agree_bind; [apply agree_lift|]. intros _.
  apply agree_bind; [apply agree_lift|]. intros outPath.
  destruct (dir e).
  - apply agree_bind; [apply agree_fs_call, blind_mkdir_p | intros _; apply agree_ret].
  - apply agree_bind; [apply agree_fs_call, blind_mkdir_p|]. intros _.
    apply agree_bind; [now apply agree_write_entry|]. intros xb'.
    apply agree_bind; [apply agree_restore_mode | intros _; apply agree_ret].
Qed.

Lemma agree_extract_entries (h1 h2 : Host) destDir strip limits entries xb :
  cwd h1 = cwd h2 -> create_mode h1 = create_mode h2 ->
  (forall p, unlink_denied h1 p = unlink_denied h2 p) ->
  agree (extract_entries h1 destDir strip limits xb entries)
        (extract_entries h2 destDir strip limits xb entries).
Proof.
  intros Hcwd Hcm Hun. revert xb. induction entries as [|e rest IH]; intros xb; simpl.
  - apply agree_ret.
  - apply agree_bind; [now apply agree_extract_entry | intros xb'; apply IH].
Qed.

Lemma agree_extractZip (h1 h2 : Host) archivePath archive destDir strip limits :
  cwd h1 = cwd h2 -> create_mode h1 = create_mode h2 ->
  (forall p, unlink_denied h1 p = unlink_denied h2 p) ->
  agree (extractZip h1 archivePath archive destDir strip limits)
        (extractZip h2 archivePath archive destDir strip limits).
Proof.
  intros Hcwd Hcm Hun. unfold extractZip. destruct archive as [zf|]; [|apply agree_throw].
  destruct (_ <? _)%Z; [apply agree_throw|].
  destruct (zf_files zf) as [entries|]; [|apply agree_throw].
  destruct (_ <? _)%Z; [apply agree_throw|].
  now apply agree_extract_entries.
Qed.

Lemma pump_ok limits out chunks :
  forall eb xb w d mode xb',
    nodes w !! out = Some (File d mode) ->
    fst (pump limits out chunks eb xb w) = Ok xb' ->
    nodes (snd (pump limits out chunks eb xb w)) !! out
    = Some (File (d ++ List.concat chunks) mode).
Proof.
  induction chunks as [|chunk rest IH]; intros eb xb w d mode xb' Hfile Hok.
  - simpl. now rewrite app_nil_r.
  - simpl in *. unfold bind at 1 in Hok. unfold bind at 1.
    unfold lift, onChunkBytes in *.
    destruct (rMaxEntryBytes limits <? eb + byteLength chunk)%Z; [discriminate Hok|].
    destruct (rMaxExtractedBytes limits <? xb + byteLength chunk)%Z; [discriminate Hok|].
    unfold bind at 1 in Hok. unfold bind at 1. unfold fs_write in *.
    rewrite fs_call_run in *. cbn [fst snd] in *.
    rewrite (IH _ _ _ (d ++ chunk)%list mode xb'); [|now apply append_lookup | exact Hok].
    now rewrite <- app_assoc.
Qed.

Lemma open_w_lookup host (m m1 : gmap string node) (p : string) data :
  open_w (create_mode host) m p data = Some m1 ->
  m1 !! p = Some (File data (written_mode host m p)) /\ m !! p <> Some Dir.
Proof.
  unfold open_w, written_mode.
  destruct (m !! p) as [[d0 mode0|]|] eqn:E.
  - intros [= <-]. split; [apply lookup_insert_eq | discriminate].
  - discriminate.
  - destruct (is_dir m _); [|discriminate]. intros [= <-].
    split; [apply lookup_insert_eq | discriminate].
Qed.

(** A write that returns has put the entry's bytes at the output path,
    under the permission bits the write gives. *)
Lemma write_entry_ok host limits out d xb (w : world) xb' :
  fst (write_entry host limits out d xb w) = Ok xb' ->
  nodes (snd (write_entry host limits out d xb w)) !! out
  = Some (File (entry_data d) (written_mode host (nodes w) out))
  /\ nodes w !! out <> Some Dir.
Proof.
  destruct (write_entry host limits out d xb w) as [r w'] eqn:Hrun. cbn [fst snd].
  intros ->. unfold write_entry, try_cleanup in Hrun. destruct d as [chunks|buf].
  - unfold bind in Hrun. unfold fs_open in Hrun. rewrite fs_call_run in Hrun.
    destruct (open_w (create_mode host) (nodes w) out []) as [m1|] eqn:Hopen;
      [|discriminate Hrun].
    apply open_w_lookup in Hopen as [Hm1 Hnd].
    pose proof (pump_ok limits out chunks 0 xb
      {| nodes := m1; calls := (calls w ++ [COpen out])%list |}
      [] (written_mode host (nodes w) out)) as Hpump.
    destruct (pump limits out chunks 0 xb _) as [[a|err] w2]; [|discriminate Hrun].
    injection Hrun as <- <-. cbn [fst snd] in Hpump. split; [|exact Hnd].
    now apply (Hpump a).
  - unfold bind, lift in Hrun.
    destruct (onChunkBytes limits 0 xb (byteLength buf)) as [counts|err];
      [|discriminate Hrun].
    unfold fs_writeFile in Hrun. rewrite fs_call_run in Hrun.
    destruct (open_w (create_mode host) (nodes w) out buf) as [m1|] eqn:Hopen;
      [|discriminate Hrun].
    apply open_w_lookup in Hopen as [Hm1 Hnd].
    injection Hrun as <- <-. cbn [nodes]. now split.
Qed.

Lemma mkdir_p_lookup (m m' : gmap string node) (p q : string) :
  mkdir_p m p = Some m' -> m' !! q = m !! q \/ m' !! q = Some Dir.
Proof.
  unfold mkdir_p. generalize (lineage (S (String.length p)) p). intros chain.
  destruct (existsb _ _); [discriminate|]. intros [= <-].
  induction chain as [|x chain IH]; simpl; [now left|].
  destruct (decide (x = q)) as [->|Hne].
  - right. apply lookup_insert_eq.
  - now rewrite lookup_insert_ne.
Qed.

Lemma restore_mode_skipped host out e (w : world) :
  unixPermissions e = None
  \/ (exists u, unixPermissions e = Some u /\ permission_bits u = 0%Z) ->
  restore_mode host out e w = (Ok tt, w).
Proof.
  unfold restore_mode. intros [-> | (u & -> & Hbits)]; [reflexivity|].
  cbv zeta. now rewrite Hbits.
Qed.

(** C10. In the zip extractor's permission restore, an entry whose
    stored [unixPermissions] is not a number, or is a number whose low
    nine bits are all zero, gets no chmod at all: the restore leaves the
    world as the write left it, so the written file carries the mode the
    write gave it.  Otherwise chmod is attempted once, with the low nine
    bits.  Whether chmod succeeds or is refused changes neither what the
    extraction returns, nor the calls it makes, nor any directory or any
    file's bytes. *)
Theorem chmod_is_best_effort (host : Host) :
  (forall out e w,
     unixPermissions e = None
     \/ (exists u, unixPermissions e = Some u /\ permission_bits u = 0%Z) ->
     restore_mode host out e w = (Ok tt, w))
  /\ (forall destDir strip limits xb e w out,
        dir e = false ->
        entry_out_path host destDir strip (name e) = Some out ->
        unixPermissions e = None
        \/ (exists u, unixPermissions e = Some u /\ permission_bits u = 0%Z) ->
        (exists new,
           calls (snd (extract_entry host destDir strip limits xb e w))
           = (calls w ++ new)%list
           /\ Forall (fun c => is_chmod c = false) new)
        /\ (forall xb',
              fst (extract_entry host destDir strip limits xb e w) = Ok xb' ->
              nodes (snd (extract_entry host destDir strip limits xb e w)) !! out
              = Some (File (entry_data (content e)) (written_mode host (nodes w) out))))
  /\ (forall out e w u,
        unixPermissions e = Some u -> permission_bits u <> 0%Z ->
        fst (restore_mode host out e w) = Ok tt
        /\ calls (snd (restore_mode host out e w))
           = (calls w ++ [CChmod out (permission_bits u)])%list
        /\ same_data (nodes w) (nodes (snd (restore_mode host out e w))))
  /\ (forall host' archivePath archive destDir stripComponents limits w,
        cwd host' = cwd host -> create_mode host' = create_mode host ->
        (forall p, unlink_denied host' p = unlink_denied host p) ->
        fst (extractZip host archivePath archive destDir stripComponents limits w)
        = fst (extractZip host' archivePath archive destDir stripComponents limits w)
        /\ same_world
             (snd (extractZip host archivePath archive destDir stripComponents limits w))
             (snd (extractZip host' archivePath archive destDir stripComponents limits w))).
Proof.
  split; [|split; [|split]].
  - intros. now apply restore_mode_skipped.
  - intros destDir strip limits xb e w out Hdir Hout Hskip.
    assert (Hrun : extract_entry host destDir strip limits xb e w
                   = bind (fs_mkdir (Path.dirname out))
                          (fun _ => write_entry host limits out (content e) xb) w).
    { rewrite (extract_entry_file_run host destDir strip limits xb e out w Hdir Hout).
      apply bind_pointwise. intros _ w1. unfold bind at 1.
      destruct (write_entry host limits out (content e) xb w1) as [[a|err] w2];
        [|reflexivity].
      unfold bind. now rewrite (restore_mode_skipped host out e w2 Hskip). }
    rewrite Hrun. split.
    + apply (logs_bind _ _ (fun c => is_chmod c = false)).
      * now apply logs_fs_call.
      * intros _. apply logs_write_entry. now intros c _ Hc.
    + intros xb'. unfold bind, fs_mkdir. rewrite fs_call_run.
      destruct (mkdir_p (nodes w) (Path.dirname out)) as [m1|] eqn:Hmk; [|discriminate].
      set (w1 := {| nodes := m1; calls := (calls w ++ [CMkdir (Path.dirname out)])%list |}).
      intros Hok. destruct (write_entry_ok host limits out (content e) xb w1 xb' Hok)
        as [Hnode Hnd].
      rewrite Hnode. do 2 f_equal. unfold written_mode. subst w1. cbn [nodes] in *.
      destruct (mkdir_p_lookup _ _ _ out Hmk) as [-> | H]; [reflexivity | contradiction].
  - intros out e w u Hu Hbits. unfold restore_mode. rewrite Hu. cbv zeta.
    apply Z.eqb_neq in Hbits. rewrite Hbits. cbn [negb]. unfold swallow, fs_chmod.
    rewrite fs_call_run. cbn [fst].
    destruct (chmod (chmod_denied host) (nodes w) out (permission_bits u)) as [m1|] eqn:E;
      cbn [snd calls nodes]; repeat split.
    + apply chmod_same_data in E. exact E.
  - intros host' archivePath archive destDir stripComponents limits w Hcwd Hcm Hun.
    apply agree_extractZip; [now symmetry | now symmetry | now symmetry | now split].
Qed.

Lemma chmod_is_best_effort_witness :
  let host := example_host in
  let e := {| name := "pkg/bin/run"; dir := false; unixPermissions := Some 32768;
              content := Streamed [[Byte.x23; Byte.x21]; [Byte.x0a]] |} in
  let w := {| nodes := {[ "/dest" := Dir ]}; calls := [] |} in
  nodes (snd (extract_entry host "/dest" (of_Z 1) (resolveExtractLimits None) 0 e w))
    !! "/dest/bin/run"
  = Some (File [Byte.x23; Byte.x21; Byte.x0a] 420).
Proof.
  cbv zeta.
  refine (proj2 (proj1 (proj2 (chmod_is_best_effort
    example_host))
    "/dest" (of_Z 1) (resolveExtractLimits None) 0%Z
    {| name := "pkg/bin/run"; dir := false; unixPermissions := Some 32768;
       content := Streamed [[Byte.x23; Byte.x21]; [Byte.x0a]] |}
    {| nodes := {[ "/dest" := Dir ]}; calls := [] |}
    "/dest/bin/run" eq_refl _ _) 3%Z _).
  - vm_compute. reflexivity.
  - right. exists 32768%Z. split; reflexivity.
  - vm_compute. reflexivity.
Defined.

(** * Further properties *)

(** ** Splitting and joining *)

Lemma split_aux_app (a b : string) :
  forall cur,
    Js.split_slash_aux cur (a ++ "/" ++ b)
    = (Js.split_slash_aux cur a ++ Js.split_slash b)%list.
Proof.
  induction a as [|c a IH]; intros cur.
  - rewrite append_nil_l. reflexivity.
  - rewrite append_cons. simpl. destruct (Js.is_slash c).
    + now rewrite IH.
    + apply IH.
Qed.

Lemma split_app (a b : string) :
  Js.split_slash (a ++ "/" ++ b) = (Js.split_slash a ++ Js.split_slash b)%list.
Proof. apply split_aux_app. Qed.

Lemma split_aux_slashfree (x : string) :
  forall cur, slashfree x = true -> Js.split_slash_aux cur x = [cur ++ x].
Proof.
  induction x as [|c x IH]; intros cur H.
  - now rewrite append_empty_r.
  - simpl in H. apply andb_true_iff in H as [Hc Hx]. apply negb_true_iff in Hc.
    simpl. rewrite Hc, (IH _ Hx), append_assoc. reflexivity.
Qed.

Lemma split_segment (x : string) : slashfree x = true -> Js.split_slash x = [x].
Proof. intros H. unfold Js.split_slash. now rewrite split_aux_slashfree. Qed.

Lemma split_join (segs : list string) :
  Forall segment segs -> segs <> [] -> Js.split_slash (Js.join_slash segs) = segs.
Proof.
  induction segs as [|x [|y rest] IH]; intros Hall Hne; [congruence| |].
  - inversion Hall as [|? ? [_ Hx] _]; subst. now apply split_segment.
  - inversion Hall as [|? ? [_ Hx] Hrest]; subst.
    rewrite join_slash_cons, split_app, split_segment by assumption.
    rewrite IH by (assumption || discriminate). reflexivity.
Qed.

Lemma split_leading_separator (x : string) :
  Js.split_slash ("/" ++ x) = "" :: Js.split_slash x.
Proof. reflexivity. Qed.

Lemma split_trailing_separator (x : string) :
  Js.split_slash (x ++ "/") = (Js.split_slash x ++ [""])%list.
Proof. now rewrite <- (append_empty_r (x ++ "/")), append_assoc, split_app. Qed.

(** ** The shape of a normalized path *)

Lemma plain_segment (s : string) : plain s -> segment s.
Proof. now intros [H _]. Qed.

Lemma collapse_step_plain (allow : bool) (kept : list string) (s : string) :
  plain s -> Spec.collapse_step allow kept s = s :: kept.
Proof.
  intros [[Hne _] [Hd Hdd]]. unfold Spec.collapse_step.
  apply String.eqb_neq in Hne, Hd, Hdd. now rewrite Hne, Hd, Hdd.
Qed.

Lemma fold_plain (allow : bool) (names : list string) :
  forall kept,
    Forall plain names ->
    fold_left (Spec.collapse_step allow) names kept = (List.rev names ++ kept)%list.
Proof.
  induction names as [|s names IH]; intros kept Hall; [reflexivity|].
  inversion Hall; subst. simpl. rewrite collapse_step_plain, IH by assumption.
  now rewrite <- app_assoc.
Qed.

Lemma repeat_snoc {A} (a : A) (k : nat) :
  (List.repeat a k ++ [a])%list = a :: List.repeat a k.
Proof. induction k; simpl; congruence. Qed.

Lemma rev_repeat {A} (a : A) (k : nat) : List.rev (List.repeat a k) = List.repeat a k.
Proof. induction k; simpl; [reflexivity|]. now rewrite IHk, repeat_snoc. Qed.

Lemma fold_dotdots (k : nat) :
  forall j,
    fold_left (Spec.collapse_step true) (List.repeat ".." k) (List.repeat ".." j)
    = List.repeat ".." (k + j).
Proof.
  induction k as [|k IH]; intros j; [reflexivity|].
  simpl. replace (Spec.collapse_step true (List.repeat ".." j) "..")
    with (List.repeat ".." (S j)) by now destruct j.
  rewrite IH, Nat.add_succ_r. reflexivity.
Qed.

Lemma collapse_climbing (k : nat) (names : list string) :
  Forall plain names -> Spec.collapse true (climbing k names) = climbing k names.
Proof.
  intros Hall. unfold Spec.collapse, climbing.
  rewrite fold_left_app. change (@nil string) with (List.repeat ".." 0).
  rewrite fold_dotdots, fold_plain by assumption.
  rewrite rev_app_distr, rev_involutive, rev_repeat, Nat.add_0_r. reflexivity.
Qed.

Lemma collapse_names (allow : bool) (names : list string) :
  Forall plain names -> Spec.collapse allow names = names.
Proof.
  intros Hall. unfold Spec.collapse. rewrite fold_plain by assumption.
  now rewrite app_nil_r, rev_involutive.
Qed.

Lemma kept_shape_nil (Q : string -> Prop) (allow : bool) : kept_shape Q allow [].
Proof. exists 0%nat, []. repeat split; try constructor. Qed.

Lemma step_shape (Q : string -> Prop) (allow : bool) (kept : list string) (s : string) :
  kept_shape Q allow kept -> slashfree s = true -> Q s ->
  kept_shape Q allow (Spec.collapse_step allow kept s).
Proof.
  intros (k & rnames & -> & Hplain & HQ & Hk) Hs Hq.
  unfold Spec.collapse_step.
  destruct (String.eqb_spec s "") as [->|Hne]; [now exists k, rnames|].
  destruct (String.eqb_spec s ".") as [->|Hd]; [now exists k, rnames|].
  simpl. destruct (String.eqb_spec s "..") as [->|Hdd].
  - destruct rnames as [|top below].
    + destruct k as [|k]; simpl.
      * destruct allow.
        -- exists 1%nat, []. repeat split; try constructor. discriminate.
        -- apply kept_shape_nil.
      * destruct allow.
        -- exists (S (S k)), []. repeat split; try constructor. discriminate.
        -- exists (S k), []. repeat split; try constructor. exact Hk.
    + simpl. inversion Hplain as [|? ? Htop Hbelow]; subst.
      inversion HQ as [|? ? _ HQbelow]; subst.
      destruct Htop as (_ & _ & Htop). apply String.eqb_neq in Htop. rewrite Htop.
      now exists k, below.
  - exists k, (s :: rnames). repeat split; try assumption.
    + constructor; [|assumption]. now repeat split.
    + now constructor.
Qed.

Lemma fold_shape (Q : string -> Prop) (allow : bool) (segs : list string) :
  forall kept,
    kept_shape Q allow kept ->
    Forall (fun s => slashfree s = true /\ Q s) segs ->
    kept_shape Q allow (fold_left (Spec.collapse_step allow) segs kept).
Proof.
  induction segs as [|s segs IH]; intros kept Hk Hall; [exact Hk|].
  inversion Hall as [|? ? [Hs Hq] Hrest]; subst. simpl.
  apply IH; [|assumption]. now apply step_shape.
Qed.

Lemma climbing_segments (k : nat) (names : list string) :
  Forall plain names -> Forall segment (climbing k names).
Proof.
  intros Hall. unfold climbing. apply Forall_app. split.
  - apply List.Forall_forall. intros x Hx. apply repeat_spec in Hx. subst.
    apply segment_dotdot.
  - eapply List.Forall_impl; [|exact Hall]. apply plain_segment.
Qed.

(** The result of the normalizer's loop: climbing segments, names after
    any "..", and no ".." at all below a root. *)
Lemma collapse_shape (Q : string -> Prop) (allow : bool) (segs : list string) :
  Forall (fun s => slashfree s = true /\ Q s) segs ->
  exists k names,
    Spec.collapse allow segs = climbing k names
    /\ Forall plain names /\ Forall Q names
    /\ (allow = false -> k = 0%nat).
Proof.
  intros Hall.
  destruct (fold_shape Q allow segs [] (kept_shape_nil Q allow) Hall)
    as (k & rnames & Heq & Hplain & HQ & Hk).
  exists k, (List.rev rnames). unfold Spec.collapse, climbing. rewrite Heq.
  rewrite rev_app_distr, rev_repeat. repeat split; try assumption.
  - now apply Forall_rev.
  - now apply Forall_rev.
Qed.

Lemma join_segments_nonempty (segs : list string) :
  Forall segment segs -> segs <> [] -> Js.join_slash segs <> "".
Proof. intros Hall Hne H. now apply join_slash_empty in H. Qed.

Lemma join_segments_relative (segs : list string) :
  Forall segment segs -> String.prefix "/" (Js.join_slash segs) = false.
Proof.
  intros Hall. destruct segs as [|x rest]; [reflexivity|].
  destruct (join_slash_first (x :: rest) Hall) as (c & r & -> & Hc); [discriminate|].
  rewrite prefix_cons. destruct (ascii_dec "/" c) as [<-|]; [discriminate | reflexivity].
Qed.

(** Normalizing a relative path given by its segments collapses them. *)
Lemma normalize_of_segments (segs : list string) :
  Forall segment segs ->
  Path.normalize (Js.join_slash segs)
  = match Spec.collapse true segs with
    | [] => "."
    | c => Js.join_slash c
    end.
Proof.
  intros Hall. rewrite normalize_lexical. unfold Spec.lexical_normalize.
  destruct segs as [|x rest]; [reflexivity|].
  pose proof (join_segments_nonempty (x :: rest) Hall) as Hne.
  apply String.eqb_neq in Hne; [|discriminate]. rewrite Hne.
  rewrite join_segments_relative by assumption.
  assert (joined (Js.join_slash (x :: rest))) as Hj by now exists (x :: rest).
  rewrite (joined_no_trailing _ Hj), split_join by (assumption || discriminate).
  simpl negb.
  destruct (collapse_shape (fun _ => True) true (x :: rest)) as (k & names & Hc & Hpl & _).
  { eapply List.Forall_impl; [|exact Hall]. now intros s [_ Hs]. }
  rewrite Hc. pose proof (climbing_segments k names Hpl) as Hseg.
  destruct (climbing k names) as [|c0 cs] eqn:Hcl; [reflexivity|].
  pose proof (join_segments_nonempty (c0 :: cs) Hseg) as Hne'.
  apply String.eqb_neq in Hne'; [|discriminate]. rewrite Hne'.
  now rewrite append_nil_l, append_empty_r.
Qed.

(** A normalized relative path is left alone by the normalizer. *)
Lemma normalize_climbing (k : nat) (names : list string) :
  Forall plain names -> climbing k names <> [] ->
  Path.normalize (Js.join_slash (climbing k names)) = Js.join_slash (climbing k names).
Proof.
  intros Hpl Hne. rewrite normalize_of_segments by now apply climbing_segments.
  rewrite collapse_climbing by assumption.
  destruct (climbing k names); [congruence | reflexivity].
Qed.

(** ** Backslashes *)

Lemma replaceAll_app (a b : ascii) (s t : string) :
  Js.replaceAll a b (s ++ t) = Js.replaceAll a b s ++ Js.replaceAll a b t.
Proof.
  induction s as [|c s IH]; [reflexivity|].
  rewrite append_cons. simpl. now rewrite IH, append_cons.
Qed.

Lemma normalizeArchivePath_idem (p : string) : backslashfree (normalizeArchivePath p).
Proof.
  unfold backslashfree, normalizeArchivePath. induction p as [|c p IH]; [reflexivity|].
  simpl. rewrite IH. f_equal.
  destruct (Ascii.eqb_spec c Js.CHAR_BACKWARD_SLASH) as [->|Hc]; [reflexivity|].
  apply Ascii.eqb_neq in Hc. now rewrite Hc.
Qed.

Lemma backslashfree_app (s t : string) :
  backslashfree (s ++ t) <-> backslashfree s /\ backslashfree t.
Proof.
  unfold backslashfree, normalizeArchivePath. rewrite replaceAll_app. split.
  - induction s as [|c s IH]; intros H.
    + rewrite !append_nil_l in H. now split.
    + simpl in H. rewrite !append_cons in H. injection H as Hc Hrest.
      destruct (IH Hrest) as [Hs Ht]. split; [|exact Ht]. simpl. now rewrite Hc, Hs.
  - now intros [-> ->].
Qed.

Lemma backslashfree_split (s : string) :
  forall cur,
    backslashfree cur -> backslashfree s ->
    Forall backslashfree (Js.split_slash_aux cur s).
Proof.
  induction s as [|c s IH]; intros cur Hcur Hs.
  - now repeat constructor.
  - change (String c s) with (String c "" ++ s) in Hs.
    apply backslashfree_app in Hs as [Hc Hs]. simpl.
    destruct (Js.is_slash c).
    + constructor; [exact Hcur | now apply IH].
    + apply IH; [|exact Hs]. now apply backslashfree_app.
Qed.

Lemma backslashfree_join (segs : list string) :
  Forall backslashfree segs -> backslashfree (Js.join_slash segs).
Proof.
  induction segs as [|x [|y rest] IH]; intros Hall; [reflexivity| |].
  - now inversion Hall.
  - inversion Hall; subst. rewrite join_slash_cons.
    apply backslashfree_app. split; [assumption|].
    apply backslashfree_app. split; [reflexivity | now apply IH].
Qed.

Lemma raw_parts_backslashfree (p : string) : Forall backslashfree (raw_parts p).
Proof.
  unfold raw_parts. apply List.Forall_forall. intros x [Hin _]%filter_In.
  pose proof (backslashfree_split (normalizeArchivePath p) "" eq_refl
                (normalizeArchivePath_idem p)) as Hall.
  rewrite List.Forall_forall in Hall. now apply Hall.
Qed.

Lemma raw_parts_segments (p : string) : Forall segment (raw_parts p).
Proof. apply kept_parts_segments. Qed.

Lemma raw_parts_no_dot (p : string) : Forall (fun s => s <> ".") (raw_parts p).
Proof.
  unfold raw_parts. apply List.Forall_forall. intros x [_ Hkeep]%filter_In.
  unfold keep_part in Hkeep. apply andb_true_iff in Hkeep as [_ H].
  now apply negb_true_iff, String.eqb_neq in H.
Qed.

(** ** What the stripper returns *)

Lemma slice_from_drop {A} (start : number) (l : list A) :
  exists k, slice_from start l = drop k l.
Proof.
  destruct start as [| | |q]; simpl.
  - now exists 0%nat.
  - exists (length l). now rewrite drop_all.
  - now exists 0%nat.
  - destruct (trunc q <? 0)%Z; eauto.
Qed.

(** The stripper drops some number of raw parts and normalizes the
    rest. *)
Lemma stripArchivePath_drops (p : string) (n : number) :
  exists k,
    stripArchivePath p n
    = if is_self_reference (normalizeArchivePath p) then None
      else
        let r := Path.normalize (Js.join_slash (drop k (raw_parts p))) in
        if is_self_reference r then None else Some r.
Proof.
  unfold stripArchivePath. fold (raw_parts p).
  destruct (is_zero (max0 (floor n))).
  - now exists 0%nat.
  - destruct (slice_from_drop (max0 (floor n)) (raw_parts p)) as (k & ->). now exists k.
Qed.

Lemma Forall_drop_of {A} (P : A -> Prop) (k : nat) (l : list A) :
  Forall P l -> Forall P (drop k l).
Proof.
  intros H. apply List.Forall_forall. intros x Hx.
  rewrite List.Forall_forall in H. apply H.
  rewrite <- (take_drop k l). apply in_or_app. now right.
Qed.

Lemma strip_shape (p : string) (n : number) (rel : string) :
  stripArchivePath p n = Some rel ->
  exists j names,
    rel = Js.join_slash (climbing j names)
    /\ Forall plain names /\ Forall backslashfree names
    /\ climbing j names <> []
    /\ is_self_reference rel = false
    /\ exists k, Spec.collapse true (drop k (raw_parts p)) = climbing j names.
Proof.
  intros H. destruct (stripArchivePath_drops p n) as (k & Hk). rewrite Hk in H. clear Hk.
  destruct (is_self_reference (normalizeArchivePath p)); [discriminate|].
  cbv zeta in H.
  pose proof (Forall_drop_of _ k _ (raw_parts_segments p)) as Hseg.
  pose proof (Forall_drop_of _ k _ (raw_parts_backslashfree p)) as Hbs.
  rewrite normalize_of_segments in H by assumption.
  destruct (collapse_shape backslashfree true (drop k (raw_parts p)))
    as (j & names & Hc & Hpl & HQ & _).
  { apply List.Forall_forall. intros x Hx. rewrite List.Forall_forall in Hseg, Hbs.
    split; [now apply Hseg | now apply Hbs]. }
  rewrite Hc in H. exists j, names.
  destruct (climbing j names) as [|c0 cs] eqn:Hcl; [discriminate H|].
  destruct (is_self_reference _) eqn:Hself; [discriminate|]. injection H as <-.
  repeat split; try assumption; [discriminate|]. now exists k.
Qed.

Lemma keep_part_true (s : string) : segment s -> s <> "." -> keep_part s = true.
Proof.
  intros [Hne _] Hd. unfold keep_part.
  apply is_empty_false in Hne. apply String.eqb_neq in Hd. now rewrite Hne, Hd.
Qed.

Lemma filter_keeps_all {A} (f : A -> bool) (l : list A) :
  Forall (fun x => f x = true) l -> List.filter f l = l.
Proof.
  induction l as [|x l IH]; intros H; [reflexivity|].
  inversion H as [|? ? Hx Hl]; subst. simpl. now rewrite Hx, IH.
Qed.

Lemma climbing_kept (k : nat) (names : list string) :
  Forall plain names -> List.filter keep_part (climbing k names) = climbing k names.
Proof.
  intros Hpl. apply filter_keeps_all, Forall_app. split.
  - apply List.Forall_forall. intros x Hx. apply repeat_spec in Hx. now subst.
  - eapply List.Forall_impl; [|exact Hpl]. intros s (Hs & Hd & _). now apply keep_part_true.
Qed.

Lemma climbing_backslashfree (k : nat) (names : list string) :
  Forall backslashfree names -> Forall backslashfree (climbing k names).
Proof.
  intros H. apply Forall_app. split; [|exact H].
  apply List.Forall_forall. intros x Hx. apply repeat_spec in Hx. now subst.
Qed.

Lemma isAbsolute_join (segs : list string) :
  Forall segment segs -> Path.isAbsolute (Js.join_slash segs) = false.
Proof. intros H. rewrite isAbsolute_prefix. now apply join_segments_relative. Qed.

Lemma strip_result_fixed (p : string) (n : number) (rel : string) :
  stripArchivePath p n = Some rel ->
  Path.normalize rel = rel
  /\ normalizeArchivePath rel = rel
  /\ is_self_reference rel = false
  /\ Path.isAbsolute rel = false.
Proof.
  intros H.
  destruct (strip_shape p n rel H) as (j & names & -> & Hpl & Hbs & Hne & Hself & _).
  split; [now apply normalize_climbing|].
  split; [now apply backslashfree_join, climbing_backslashfree|].
  split; [exact Hself|]. now apply isAbsolute_join, climbing_segments.
Qed.

(** X1. Whatever [stripArchivePath] returns is a normalized relative
    path: [path.posix.normalize] leaves it as it is, it neither starts
    nor ends with a separator, it holds no backslash, it is none of "",
    "." and "./", its segments are some number of ".." followed by names
    other than "." and "..", and stripping it by nothing returns it
    unchanged. *)
Theorem stripArchivePath_result_is_normalized (p : string) (n : number) (rel : string) :
  stripArchivePath p n = Some rel ->
  Path.normalize rel = rel
  /\ Path.isAbsolute rel = false
  /\ Js.endsWith_slash rel = false
  /\ normalizeArchivePath rel = rel
  /\ is_self_reference rel = false
  /\ stripArchivePath rel (of_Z 0) = Some rel
  /\ exists k names, rel = Js.join_slash (climbing k names) /\ Forall plain names.
Proof.
  intros H.
  destruct (strip_result_fixed p n rel H) as (Hnorm & Hfree & Hself & Habs).
  destruct (strip_shape p n rel H) as (j & names & -> & Hpl & Hbs & Hne & _ & _).
  pose proof (climbing_segments j names Hpl) as Hseg.
  split; [exact Hnorm|]. split; [exact Habs|]. split; [|split; [exact Hfree|]].
  - apply joined_no_trailing. now exists (climbing j names).
  - split; [exact Hself|]. split; [|now exists j, names].
    unfold stripArchivePath. rewrite Hfree, Hself.
    rewrite split_join, climbing_kept by assumption.
    change (is_zero (max0 (floor (of_Z 0)))) with true. cbv iota.
    now rewrite Hnorm, Hself.
Qed.

Lemma stripArchivePath_result_is_normalized_witness :
  Path.normalize "src/index.js" = "src/index.js"
  /\ stripArchivePath "src/index.js" (of_Z 0) = Some "src/index.js".
Proof.
  destruct (stripArchivePath_result_is_normalized "pkg\.\src//index.js" (of_Z 1)
              "src/index.js" eq_refl) as (H1 & _ & _ & _ & _ & H2 & _).
  now split.
Defined.

(** ** Validation makes the containment check succeed *)

Lemma validated_names (p : string) (n : number) (rel : string) :
  stripArchivePath p n = Some rel ->
  validateArchiveEntryPath rel = Ok tt ->
  exists names, rel = Js.join_slash names /\ Forall plain names /\ names <> [].
Proof.
  intros Hs Hv.
  destruct (strip_result_fixed p n rel Hs) as (Hnorm & Hfree & Hself & _).
  destruct (strip_shape p n rel Hs) as (j & names & Hrel & Hpl & _ & Hne & _ & _).
  unfold validateArchiveEntryPath in Hv. rewrite Hself, Hfree, Hnorm in Hv.
  destruct (isWindowsDrivePath rel); [discriminate|].
  destruct j as [|j].
  - exists names. now repeat split.
  - exfalso. unfold climbing in Hrel. cbn [List.repeat app] in Hrel.
    destruct (List.repeat ".." j ++ names)%list as [|y rest].
    + subst rel. discriminate Hv.
    + rewrite join_slash_cons in Hrel.
      assert (Hpre : Js.startsWith rel "../" = true).
      { subst rel. unfold Js.startsWith.
        change (".." ++ "/" ++ Js.join_slash (y :: rest))
          with ("../" ++ Js.join_slash (y :: rest)).
        apply prefix_app. }
      rewrite Hpre, orb_true_r in Hv. discriminate.
Qed.

Lemma resolve_scan_acc (l : list string) :
  forall acc,
    Path.resolve_scan l acc
    = (fst (Path.resolve_scan l "") ++ acc, snd (Path.resolve_scan l "")).
Proof.
  induction l as [|p l IH]; intros acc; [reflexivity|].
  simpl. destruct (Js.is_empty p); [apply IH|].
  destruct (Path.isAbsolute p).
  - simpl. now rewrite !append_assoc, append_nil_l.
  - rewrite IH, (IH (p ++ "/" ++ "")). simpl.
    now rewrite !append_assoc, append_nil_l.
Qed.

Lemma resolve_scan_ends (l : list string) :
  fst (Path.resolve_scan l "") = ""
  \/ exists Y, fst (Path.resolve_scan l "") = Y ++ "/".
Proof.
  induction l as [|p l IH]; [now left|].
  simpl. destruct (Js.is_empty p); [exact IH|].
  right. destruct (Path.isAbsolute p).
  - exists p. simpl. now rewrite append_empty_r.
  - rewrite resolve_scan_acc. simpl.
    exists (fst (Path.resolve_scan l "") ++ p).
    now rewrite append_empty_r, append_assoc.
Qed.

Lemma resolve_scan_from_absolute (cwd destDir : string) :
  Path.isAbsolute cwd = true -> snd (Path.resolve_scan [destDir; cwd] "") = true.
Proof.
  intros Habs. simpl.
  assert (Js.is_empty cwd = false) as Hne by now destruct cwd.
  destruct (Js.is_empty destDir).
  - now rewrite Hne, Habs.
  - destruct (Path.isAbsolute destDir); [reflexivity|]. now rewrite Hne, Habs.
Qed.

Lemma fold_ignores_empty (allow : bool) (segs : list string) (kept : list string) :
  fold_left (Spec.collapse_step allow) (segs ++ [""]) kept
  = fold_left (Spec.collapse_step allow) segs kept.
Proof. now rewrite fold_left_app. Qed.

Lemma resolve_scan_relative (p : string) (more : list string) (acc : string) :
  Js.is_empty p = false -> Path.isAbsolute p = false ->
  Path.resolve_scan (p :: more) acc = Path.resolve_scan more (p ++ "/" ++ acc).
Proof. intros H1 H2. simpl. now rewrite H1, H2. Qed.

(** In a process whose working directory is absolute, a path made of
    names resolves to the safe base of the destination followed by that
    path. *)
Lemma resolve_under (cwd destDir : string) (names : list string) :
  Path.isAbsolute cwd = true -> Forall plain names -> names <> [] ->
  Path.resolve cwd [destDir; Js.join_slash names]
  = resolveSafeBaseDir cwd destDir ++ Js.join_slash names.
Proof.
  intros Habs Hpl Hne.
  assert (Hseg : Forall segment names).
  { eapply List.Forall_impl; [|exact Hpl]. apply plain_segment. }
  set (rel := Js.join_slash names).
  assert (Hrel : Js.is_empty rel = false).
  { apply is_empty_false. now apply join_segments_nonempty. }
  rewrite resolveSafeBaseDir_cases. unfold Path.resolve.
  change (List.rev [cwd; destDir; rel]) with [rel; destDir; cwd].
  change (List.rev [cwd; destDir]) with [destDir; cwd].
  rewrite resolve_scan_relative by (assumption || now apply isAbsolute_join).
  rewrite resolve_scan_acc.
  pose proof (resolve_scan_from_absolute cwd destDir Habs) as Habs'.
  pose proof (resolve_scan_ends [destDir; cwd]) as Hends.
  destruct (Path.resolve_scan [destDir; cwd] "") as [X abs].
  cbn [fst snd] in *. subst abs. cbn [negb].
  rewrite !normalizeString_collapse.
  assert (Hsplit : exists segs,
            Js.split_slash X = (segs ++ [""])%list
            /\ Js.split_slash (X ++ rel ++ "/" ++ "") = (segs ++ names ++ [""])%list
            /\ Forall (fun s => slashfree s = true /\ True) segs).
  { subst rel. destruct Hends as [->|(Y & ->)].
    - exists []. split; [reflexivity|]. split; [|constructor].
      rewrite append_nil_l, split_app, split_join by assumption. reflexivity.
    - exists (Js.split_slash Y). split; [apply split_trailing_separator|]. split.
      + rewrite append_assoc, split_app, split_app, split_join by assumption.
        reflexivity.
      + eapply List.Forall_impl; [|apply (split_slash_aux_slashfree Y "" eq_refl)].
        now intros. }
  destruct Hsplit as (segs & -> & -> & Hfree).
  unfold Spec.collapse. rewrite app_assoc, !fold_ignores_empty, fold_left_app.
  rewrite fold_plain by assumption.
  destruct (fold_shape (fun _ => True) false segs [] (kept_shape_nil _ _) Hfree)
    as (k & rnames & -> & HKpl & _ & Hk0).
  rewrite (Hk0 eq_refl). cbn [List.repeat]. rewrite app_nil_r.
  rewrite rev_app_distr, rev_involutive.
  assert (HK : Forall segment (List.rev rnames)).
  { apply Forall_rev. eapply List.Forall_impl; [|exact HKpl]. apply plain_segment. }
  destruct (List.rev rnames) as [|d ds] eqn:Hrev.
  - reflexivity.
  - rewrite join_slash_app by (discriminate || assumption).
    pose proof (join_segments_nonempty (d :: ds) HK) as Hne'.
    destruct (Js.join_slash (d :: ds)) as [|c P] eqn:HP; [now contradiction Hne'|].
    change (("/" ++ String c P) =? "/")%string with false. cbv iota.
    now rewrite !append_assoc.
Qed.

(** X2. In a process whose working directory is absolute, an entry
    whose stripped path passes validation always passes the containment
    check: the output path is the safe base of the destination followed
    by the stripped path, and [resolveCheckedOutPath] returns it; both
    extractors therefore give such an entry that output path. *)
Theorem validated_path_is_contained (host : Host) (destDir entryPath : string)
    (strip : number) (relPath : string) :
  Path.isAbsolute (cwd host) = true ->
  stripArchivePath entryPath strip = Some relPath ->
  validateArchiveEntryPath relPath = Ok tt ->
  Path.resolve (cwd host) [destDir; relPath]
  = resolveSafeBaseDir (cwd host) destDir ++ relPath
  /\ resolveCheckedOutPath (cwd host) destDir relPath entryPath
     = Ok (resolveSafeBaseDir (cwd host) destDir ++ relPath)
  /\ (validateArchiveEntryPath entryPath = Ok tt ->
      entry_out_path host destDir strip entryPath
      = Some (resolveSafeBaseDir (cwd host) destDir ++ relPath)).
Proof.
  intros Habs Hs Hv.
  destruct (validated_names entryPath strip relPath Hs Hv) as (names & -> & Hpl & Hne).
  pose proof (resolve_under (cwd host) destDir names Habs Hpl Hne) as Hres.
  assert (Hchk : resolveCheckedOutPath (cwd host) destDir (Js.join_slash names) entryPath
                 = Ok (resolveSafeBaseDir (cwd host) destDir ++ Js.join_slash names)).
  { unfold resolveCheckedOutPath. rewrite Hres. unfold Js.startsWith.
    now rewrite prefix_app. }
  split; [exact Hres|]. split; [exact Hchk|].
  intros Hv0. unfold entry_out_path. now rewrite Hv0, Hs, Hv, Hchk.
Qed.

Lemma validated_path_is_contained_witness :
  resolveCheckedOutPath "/home/u" "out" "lib/a.js" "pkg/lib/a.js" = Ok "/home/u/out/lib/a.js".
Proof.
  exact (proj1 (proj2 (validated_path_is_contained example_host "out" "pkg/lib/a.js"
                         (of_Z 1) "lib/a.js" eq_refl eq_refl eq_refl))).
Defined.

(** ** Separators and strip counts *)

Lemma replaced_unit (c : ascii) :
  (if Ascii.eqb c Js.CHAR_BACKWARD_SLASH then Js.CHAR_FORWARD_SLASH else c)
  <> Js.CHAR_BACKWARD_SLASH.
Proof.
  destruct (Ascii.eqb_spec c Js.CHAR_BACKWARD_SLASH) as [->|Hc]; [discriminate | exact Hc].
Qed.

Lemma isWindowsDrivePath_separators (p : string) :
  isWindowsDrivePath (normalizeArchivePath p) = isWindowsDrivePath p.
Proof.
  destruct p as [|c [|k [|d p]]]; try reflexivity.
  unfold normalizeArchivePath. simpl. f_equal; [f_equal|].
  - destruct (Ascii.eqb_spec c Js.CHAR_BACKWARD_SLASH) as [->|_]; reflexivity.
  - destruct (Ascii.eqb_spec k Js.CHAR_BACKWARD_SLASH) as [->|_]; reflexivity.
  - destruct (Ascii.eqb_spec d Js.CHAR_BACKWARD_SLASH) as [->|Hd]; [reflexivity|].
    apply Ascii.eqb_neq in Hd. now rewrite Hd.
Qed.

Lemma self_reference_separators (p : string) :
  is_self_reference p = false ->
  is_self_reference (normalizeArchivePath p) = true ->
  p = ".\".
Proof.
  intros Hp Hq. apply is_self_reference_iff in Hq.
  assert (Hnot : ~ (p = "" \/ p = "." \/ p = "./")).
  { intros H. apply is_self_reference_iff in H. congruence. }
  unfold normalizeArchivePath in Hq.
  destruct p as [|a [|b [|c p]]]; simpl in Hq.
  - exfalso. apply Hnot. now left.
  - exfalso. destruct Hq as [Hq|[Hq|Hq]]; try discriminate.
    injection Hq as Ha. apply Hnot. right. left.
    destruct (Ascii.eqb_spec a Js.CHAR_BACKWARD_SLASH); [discriminate | now subst].
  - destruct Hq as [Hq|[Hq|Hq]]; try discriminate.
    injection Hq as Ha Hb.
    destruct (Ascii.eqb_spec a Js.CHAR_BACKWARD_SLASH) as [->|_]; [discriminate|]. subst a.
    destruct (Ascii.eqb_spec b Js.CHAR_BACKWARD_SLASH) as [->|_]; [reflexivity|]. subst b.
    exfalso. apply Hnot. now right; right.
  - destruct Hq as [Hq|[Hq|Hq]]; discriminate.
Qed.

(** X3. Backslashes are separators throughout: the validator gives a
    stored path the verdict it gives the same path written with forward
    slashes (the error quoting the path as stored), and the stripper
    returns the same for both. *)
Theorem backslashes_are_separators (p : string) :
  validateArchiveEntryPath p
  = quoting p (validateArchiveEntryPath (normalizeArchivePath p))
  /\ (forall n, stripArchivePath p n = stripArchivePath (normalizeArchivePath p) n).
Proof.
  pose proof (normalizeArchivePath_idem p) as Hidem. unfold backslashfree in Hidem.
  split.
  - unfold validateArchiveEntryPath.
    rewrite isWindowsDrivePath_separators, Hidem.
    destruct (is_self_reference p) eqn:Hp.
    + apply is_self_reference_iff in Hp as [->|[->| ->]]; reflexivity.
    + destruct (is_self_reference (normalizeArchivePath p)) eqn:Hq.
      * rewrite (self_reference_separators p Hp Hq). reflexivity.
      * destruct (isWindowsDrivePath p); [reflexivity|].
        destruct (_ || _); [reflexivity|]. destruct (_ || _); reflexivity.
  - intros n. unfold stripArchivePath. now rewrite Hidem.
Qed.

Lemma max0_of_Z (z : Z) : max0 (of_Z z) = of_Z (Z.max 0 z).
Proof.
  unfold max0, of_Z. destruct (Qle_bool (inject_Z z) 0) eqn:Hq.
  - apply Qle_bool_iff in Hq. change 0%Q with (inject_Z 0) in Hq.
    rewrite <- Zle_Qle in Hq. now rewrite Z.max_l by lia.
  - assert (0 < z)%Z as Hpos.
    { destruct (Z.lt_ge_cases 0 z) as [H|H]; [exact H|]. exfalso.
      assert (Qle_bool (inject_Z z) 0 = true); [|congruence].
      apply Qle_bool_iff. change 0%Q with (inject_Z 0). now rewrite <- Zle_Qle. }
    now rewrite Z.max_r by lia.
Qed.

Lemma max0_floor_fin (q : Q) :
  max0 (floor (Fin q)) = max0 (floor (of_Z (Z.max 0 (Qfloor q)))).
Proof.
  rewrite floor_of_Z. change (floor (Fin q)) with (of_Z (Qfloor q)).
  rewrite !max0_of_Z. f_equal. lia.
Qed.

Lemma max0_floor_idem (x : number) : max0 (floor (max0 (floor x))) = max0 (floor x).
Proof.
  destruct x as [| | |q]; try reflexivity.
  change (floor (Fin q)) with (of_Z (Qfloor q)).
  rewrite max0_of_Z, floor_of_Z, max0_of_Z. f_equal. lia.
Qed.

Lemma stripArchivePath_by_count (p : string) (n m : number) :
  max0 (floor n) = max0 (floor m) -> stripArchivePath p n = stripArchivePath p m.
Proof. intros H. unfold stripArchivePath. now rewrite H. Qed.

(** X4. The strip count is coerced, not checked: NaN and every count
    below 1 (minus infinity included) strip nothing, a fractional count
    strips its floor, plus infinity strips every part so that nothing is
    returned, and the count the extractors have already coerced is not
    changed by the stripper's own coercion. *)
Theorem strip_count_is_coerced (p : string) :
  stripArchivePath p NaN = stripArchivePath p (of_Z 0)
  /\ stripArchivePath p NegInfinity = stripArchivePath p (of_Z 0)
  /\ stripArchivePath p PosInfinity = None
  /\ (forall q, stripArchivePath p (Fin q)
                = stripArchivePath p (of_Z (Z.max 0 (Qfloor q))))
  /\ (forall q, (q < 1)%Q -> stripArchivePath p (Fin q) = stripArchivePath p (of_Z 0))
  /\ (forall s, stripArchivePath p (resolveStrip s)
                = stripArchivePath p (default (of_Z 0) s)).
Proof.
  split; [reflexivity|]. split; [reflexivity|]. split; [|split; [|split]].
  - unfold stripArchivePath. now destruct (is_self_reference _).
  - intros q. apply stripArchivePath_by_count, max0_floor_fin.
  - intros q Hq. apply stripArchivePath_by_count. rewrite max0_floor_fin.
    assert (Qfloor q <= 0)%Z as Hf.
    { destruct (Z.lt_ge_cases 0 (Qfloor q)) as [H|H]; [|lia]. exfalso.
      assert (1 <= q)%Q as H1.
      { apply Qle_trans with (inject_Z (Qfloor q)); [|apply Qfloor_le].
        change 1%Q with (inject_Z 1). rewrite <- Zle_Qle. lia. }
      apply (Qlt_not_le _ _ Hq H1). }
    now rewrite Z.max_l by lia.
  - intros s. apply stripArchivePath_by_count. unfold resolveStrip.
    apply max0_floor_idem.
Qed.

(** ** Stripping paths without ".." *)

Lemma stripArchivePath_tail (p : string) (n : number) :
  stripArchivePath p n
  = if is_self_reference (normalizeArchivePath p) then None
    else strip_tail (raw_parts p) n.
Proof. reflexivity. Qed.

Lemma strip_tail_nat (parts : list string) (n : nat) :
  strip_tail parts (of_Z (Z.of_nat n))
  = let r := Path.normalize (Js.join_slash (drop n parts)) in
    if is_self_reference r then None else Some r.
Proof.
  unfold strip_tail. rewrite floor_of_Z, max0_of_nat, is_zero_of_Z, slice_from_of_nat.
  destruct n; reflexivity.
Qed.

Lemma strip_tail_nil (n : number) : strip_tail [] n = None.
Proof.
  unfold strip_tail. destruct (slice_from_drop (max0 (floor n)) (@nil string)) as (k & ->).
  rewrite drop_nil. now destruct (is_zero _).
Qed.

Lemma no_dotdot_plain (p : string) : no_dotdot p -> Forall plain (raw_parts p).
Proof.
  intros H. unfold no_dotdot in H.
  pose proof (raw_parts_segments p) as Hs. pose proof (raw_parts_no_dot p) as Hd.
  rewrite List.Forall_forall in *. intros x Hx. repeat split; try apply Hs; auto.
  all: try (apply Hs in Hx; apply Hx).
Qed.

Lemma normalize_names (names : list string) :
  Forall plain names -> names <> [] ->
  Path.normalize (Js.join_slash names) = Js.join_slash names.
Proof. intros Hpl Hne. now apply (normalize_climbing 0 names). Qed.

Lemma names_not_self_reference (names : list string) :
  Forall plain names -> names <> [] -> is_self_reference (Js.join_slash names) = false.
Proof.
  intros Hpl Hne.
  assert (Hseg : Forall segment names).
  { eapply List.Forall_impl; [|exact Hpl]. apply plain_segment. }
  rewrite <- (normalize_names names Hpl Hne), stripped_self_reference by assumption.
  rewrite normalize_names by assumption.
  apply String.eqb_neq. intros H.
  destruct names as [|x [|y rest]]; [congruence| |].
  - simpl in H. subst x. inversion Hpl as [|? ? (_ & Hd & _) _]. congruence.
  - rewrite join_slash_cons in H. inversion Hpl as [|? ? ((Hx & _) & _) _]; subst.
    destruct x as [|c [|c' x]]; [congruence | discriminate H | discriminate H].
Qed.

Lemma self_reference_no_parts (p : string) :
  is_self_reference (normalizeArchivePath p) = true -> raw_parts p = [].
Proof.
  intros H. apply is_self_reference_iff in H. unfold raw_parts.
  destruct H as [->|[->| ->]]; reflexivity.
Qed.

(** Without a ".." among them, the parts left after dropping [n] are
    returned as they are. *)
Lemma strip_names (p : string) (n : nat) :
  no_dotdot p ->
  stripArchivePath p (of_Z (Z.of_nat n))
  = match drop n (raw_parts p) with
    | [] => None
    | rest => Some (Js.join_slash rest)
    end.
Proof.
  intros Hnd. rewrite stripArchivePath_tail.
  destruct (is_self_reference (normalizeArchivePath p)) eqn:Hself.
  - rewrite (self_reference_no_parts p Hself). now rewrite drop_nil.
  - rewrite strip_tail_nat. cbv zeta.
    pose proof (Forall_drop_of _ n _ (no_dotdot_plain p Hnd)) as Hpl.
    destruct (drop n (raw_parts p)) as [|x rest] eqn:Hd; [reflexivity|].
    rewrite normalize_names, names_not_self_reference by (assumption || discriminate).
    reflexivity.
Qed.

Lemma raw_parts_of_names (names : list string) :
  Forall plain names -> Forall backslashfree names -> names <> [] ->
  raw_parts (Js.join_slash names) = names.
Proof.
  intros Hpl Hbs Hne. unfold raw_parts.
  rewrite (backslashfree_join names Hbs), split_join; try assumption.
  - apply (climbing_kept 0 names Hpl).
  - eapply List.Forall_impl; [|exact Hpl]. apply plain_segment.
Qed.

(** X5. For a stored path none of whose raw parts is "..", stripping
    composes: the result of stripping [n] parts, stripped of [m] more, is
    the path stripped of [n + m] parts. *)
Theorem stripping_composes (p : string) (n m : nat) (rel : string) :
  no_dotdot p ->
  stripArchivePath p (of_Z (Z.of_nat n)) = Some rel ->
  stripArchivePath rel (of_Z (Z.of_nat m)) = stripArchivePath p (of_Z (Z.of_nat (n + m))).
Proof.
  intros Hnd Hs.
  pose proof (Forall_drop_of _ n _ (no_dotdot_plain p Hnd)) as Hpl.
  pose proof (Forall_drop_of _ n _ (raw_parts_backslashfree p)) as Hbs.
  rewrite strip_names in Hs by assumption.
  destruct (drop n (raw_parts p)) as [|x rest] eqn:Hd; [discriminate|].
  assert (Hrel : rel = Js.join_slash (x :: rest)) by (injection Hs as <-; reflexivity).
  subst rel. clear Hs.
  assert (Hparts : raw_parts (Js.join_slash (x :: rest)) = x :: rest).
  { apply raw_parts_of_names; (assumption || discriminate). }
  rewrite (strip_names p (n + m) Hnd), (strip_names (Js.join_slash (x :: rest)) m).
  - rewrite Hparts, <- Hd, drop_drop. reflexivity.
  - unfold no_dotdot. rewrite Hparts.
    eapply List.Forall_impl; [|exact Hpl]. now intros s (_ & _ & H).
Qed.

Lemma stripping_composes_witness :
  stripArchivePath "b/c/d.txt" (of_Z 1) = stripArchivePath "a\b/./c/d.txt" (of_Z 2).
Proof.
  apply (stripping_composes "a\b/./c/d.txt" 1 1 "b/c/d.txt").
  - unfold no_dotdot. vm_compute. repeat constructor; discriminate.
  - reflexivity.
Defined.

(** ** The earlier stripper *)

Lemma earlier_strip_tail (p : string) (n : number) :
  Earlier.stripArchivePath p n
  = let normalized := Path.normalize (normalizeArchivePath p) in
    if is_self_reference normalized then None
    else strip_tail (List.filter keep_part (Js.split_slash normalized)) n.
Proof. reflexivity. Qed.

Lemma filter_keep_snoc_empty (segs : list string) :
  List.filter keep_part (segs ++ [""]) = List.filter keep_part segs.
Proof. rewrite List.filter_app. simpl. apply app_nil_r. Qed.

(** The parts of a normalized path are the collapsed segments of the
    path. *)
Lemma normalized_parts (raw : string) :
  List.filter keep_part (Js.split_slash (Path.normalize raw))
  = Spec.collapse (negb (Path.isAbsolute raw)) (Js.split_slash raw).
Proof.
  rewrite normalize_lexical. unfold Spec.lexical_normalize.
  destruct (String.eqb_spec raw "") as [->|Hne]; [reflexivity|].
  rewrite <- isAbsolute_prefix.
  destruct (collapse_shape (fun _ => True) (negb (Path.isAbsolute raw)) (Js.split_slash raw))
    as (k & names & Hc & Hpl & _).
  { eapply List.Forall_impl; [|apply (split_slash_aux_slashfree raw "" eq_refl)].
    now intros. }
  rewrite Hc. pose proof (climbing_segments k names Hpl) as Hseg.
  destruct (String.eqb_spec (Js.join_slash (climbing k names)) "") as [He|He].
  - apply join_slash_empty in He; [|assumption]. rewrite He.
    now destruct (Path.isAbsolute raw), (Js.endsWith_slash raw).
  - assert (Hne' : climbing k names <> []) by (intros H; now rewrite H in He).
    destruct (Path.isAbsolute raw), (Js.endsWith_slash raw);
      rewrite ?append_nil_l, ?append_empty_r, ?split_leading_separator,
              ?split_trailing_separator, ?split_join by assumption;
      cbn [List.filter keep_part Js.is_empty negb andb];
      rewrite ?filter_keep_snoc_empty; now apply climbing_kept.
Qed.

Lemma fold_without_dotdot (allow : bool) (segs : list string) :
  forall kept,
    Forall (fun s => s <> "..") (List.filter keep_part segs) ->
    fold_left (Spec.collapse_step allow) segs kept
    = (List.rev (List.filter keep_part segs) ++ kept)%list.
Proof.
  induction segs as [|s segs IH]; intros kept Hall; [reflexivity|].
  simpl in *. rewrite keep_part_segment in *. unfold Spec.collapse_step at 2.
  destruct (String.eqb s ""); [now apply IH|].
  destruct (String.eqb s "."); [now apply IH|].
  simpl in *. inversion Hall as [|? ? Hs Hrest]; subst.
  apply String.eqb_neq in Hs. rewrite Hs, IH by assumption.
  now rewrite <- app_assoc.
Qed.

Lemma collapse_without_dotdot (allow : bool) (segs : list string) :
  Forall (fun s => s <> "..") (List.filter keep_part segs) ->
  Spec.collapse allow segs = List.filter keep_part segs.
Proof.
  intros H. unfold Spec.collapse. rewrite fold_without_dotdot by assumption.
  now rewrite app_nil_r, rev_involutive.
Qed.

Lemma self_reference_splits_to_nothing (s : string) :
  is_self_reference s = true -> List.filter keep_part (Js.split_slash s) = [].
Proof.
  intros H. apply is_self_reference_iff in H. destruct H as [->|[->| ->]]; reflexivity.
Qed.

Lemma earlier_strip_agrees (p : string) (n : number) :
  no_dotdot p -> Earlier.stripArchivePath p n = stripArchivePath p n.
Proof.
  intros Hnd. rewrite earlier_strip_tail, stripArchivePath_tail. cbv zeta.
  rewrite normalized_parts.
  rewrite (collapse_without_dotdot _ (Js.split_slash (normalizeArchivePath p)) Hnd).
  fold (raw_parts p).
  destruct (raw_parts p) as [|x rest] eqn:Hparts.
  - rewrite strip_tail_nil. now destruct (is_self_reference _), (is_self_reference _).
  - destruct (is_self_reference (normalizeArchivePath p)) eqn:Hraw.
    { apply self_reference_no_parts in Hraw. congruence. }
    destruct (is_self_reference (Path.normalize (normalizeArchivePath p))) eqn:HN;
      [|reflexivity].
    apply self_reference_splits_to_nothing in HN.
    rewrite normalized_parts in HN.
    rewrite (collapse_without_dotdot _ (Js.split_slash (normalizeArchivePath p)) Hnd) in HN.
    fold (raw_parts p) in HN. congruence.
Qed.

(** X6. The earlier variant of the stripper, which normalizes the path
    before splitting it, returns what the present one returns for every
    stored path none of whose raw parts is "..", whatever the count; the
    two part ways on "a/../b" stripped of one part, which the earlier
    one drops as empty and the present one returns as "../b". *)
Theorem earlier_stripper_agrees_without_dotdot :
  (forall p n, no_dotdot p -> Earlier.stripArchivePath p n = stripArchivePath p n)
  /\ Earlier.stripArchivePath "a/../b" (of_Z 1) = None
  /\ stripArchivePath "a/../b" (of_Z 1) = Some "../b".
Proof.
  split; [|split; reflexivity]. intros p n. apply earlier_strip_agrees.
Qed.

Lemma names_do_not_climb (names : list string) :
  Forall plain names -> names <> [] ->
  String.eqb (Js.join_slash names) ".." = false
  /\ Js.startsWith (Js.join_slash names) "../" = false
  /\ Js.startsWith (Js.join_slash names) "//" = false.
Proof.
  intros Hpl Hne. destruct names as [|x rest]; [congruence|].
  inversion Hpl as [|? ? ((Hx & Hfree) & Hd & Hdd) Hrest]; subst.
  assert (Hseg : Forall segment (x :: rest)).
  { eapply List.Forall_impl; [|exact Hpl]. apply plain_segment. }
  split; [|split].
  - apply String.eqb_neq. intros H. destruct rest as [|y rest].
    + now simpl in H.
    + rewrite join_slash_cons in H. symmetry in H.
      now apply (slashfree_without_separator ".." x _ eq_refl) in H.
  - unfold Js.startsWith. destruct (String.prefix "../" _) eqn:Hp; [|reflexivity].
    exfalso. apply prefix_split in Hp as (r & Hr).
    change ("../" ++ r) with (".." ++ "/" ++ r) in Hr. destruct rest as [|y rest].
    + simpl in Hr. now apply (slashfree_without_separator x ".." r Hfree) in Hr.
    + rewrite join_slash_cons in Hr.
      apply first_separator_unique in Hr as [Hr _]; [congruence | assumption | reflexivity].
  - unfold Js.startsWith.
    destruct (join_slash_first (x :: rest) Hseg Hne) as (c & r & -> & Hc).
    rewrite prefix_cons. destruct (ascii_dec "/" c) as [<-|]; [discriminate | reflexivity].
Qed.

(** A path made of names is accepted by the validator unless it begins
    like a Windows drive. *)
Lemma validate_names (names : list string) :
  Forall plain names -> Forall backslashfree names -> names <> [] ->
  validateArchiveEntryPath (Js.join_slash names)
  = if isWindowsDrivePath (Js.join_slash names)
    then Err (ErrDrivePath (Js.join_slash names))
    else Ok tt.
Proof.
  intros Hpl Hbs Hne. unfold validateArchiveEntryPath.
  rewrite names_not_self_reference by assumption.
  destruct (isWindowsDrivePath _); [reflexivity|].
  rewrite (backslashfree_join names Hbs), normalize_names by assumption.
  destruct (names_do_not_climb names Hpl Hne) as (-> & -> & ->).
  rewrite isAbsolute_join; [reflexivity|].
  eapply List.Forall_impl; [|exact Hpl]. apply plain_segment.
Qed.

Lemma strip_tail_names (names : list string) (n : number) (rel : string) :
  Forall plain names -> Forall backslashfree names ->
  strip_tail names n = Some rel ->
  exists rest, rel = Js.join_slash rest /\ Forall plain rest
               /\ Forall backslashfree rest /\ rest <> [].
Proof.
  intros Hpl Hbs H. unfold strip_tail in H.
  assert (exists k, Some rel
                    = let r := Path.normalize (Js.join_slash (drop k names)) in
                      if is_self_reference r then None else Some r) as (k & Hk).
  { destruct (is_zero (max0 (floor n))).
    - now exists 0%nat.
    - destruct (slice_from_drop (max0 (floor n)) names) as (k & Heq).
      rewrite Heq in H. now exists k. }
  clear H. cbv zeta in Hk.
  pose proof (Forall_drop_of _ k _ Hpl) as Hpl'.
  pose proof (Forall_drop_of _ k _ Hbs) as Hbs'.
  destruct (drop k names) as [|x rest]; [discriminate|].
  rewrite normalize_names, names_not_self_reference in Hk by (assumption || discriminate).
  injection Hk as ->. exists (x :: rest). now repeat split.
Qed.

(** The segments a path is normalized to when the validator accepts
    it: names only. *)
Lemma validated_collapse (p : string) :
  validateArchiveEntryPath p = Ok tt ->
  is_self_reference p = true
  \/ exists names,
       Spec.collapse (negb (Path.isAbsolute (normalizeArchivePath p)))
                     (Js.split_slash (normalizeArchivePath p)) = names
       /\ Forall plain names /\ Forall backslashfree names.
Proof.
  intros Hv. unfold validateArchiveEntryPath in Hv.
  destruct (is_self_reference p); [now left|]. right.
  destruct (isWindowsDrivePath p); [discriminate|].
  set (raw := normalizeArchivePath p) in *.
  destruct (String.eqb _ ".." || Js.startsWith _ "../") eqn:Hup; [discriminate|].
  destruct (Path.isAbsolute (Path.normalize raw) || _) eqn:Habs; [discriminate|].
  apply orb_false_iff in Hup as [Hdd Hpre]. apply orb_false_iff in Habs as [Habs _].
  destruct (collapse_shape backslashfree (negb (Path.isAbsolute raw)) (Js.split_slash raw))
    as (k & names & Hc & Hpl & Hbs & Hk).
  { pose proof (split_slash_aux_slashfree raw "" eq_refl) as H1.
    pose proof (backslashfree_split raw "" eq_refl (normalizeArchivePath_idem p)) as H2.
    rewrite List.Forall_forall in *. intros x Hx. split; [now apply H1 | now apply H2]. }
  exists (climbing k names). split; [exact Hc|].
  destruct k as [|k]; [now split|]. exfalso.
  rewrite normalize_lexical in Hdd, Hpre, Habs. unfold Spec.lexical_normalize in *.
  destruct (String.eqb_spec raw "") as [E|_]; [rewrite E in Hc; discriminate Hc|].
  rewrite <- isAbsolute_prefix in *. rewrite Hc in *.
  destruct (Path.isAbsolute raw); [now specialize (Hk eq_refl)|].
  pose proof (climbing_segments (S k) names Hpl) as Hseg.
  pose proof (join_segments_nonempty (climbing (S k) names) Hseg) as Hne.
  apply String.eqb_neq in Hne; [|discriminate]. rewrite Hne, append_nil_l in *.
  unfold climbing in *. cbn [List.repeat app] in *.
  destruct (List.repeat ".." k ++ names)%list as [|y rest].
  - simpl in *. destruct (Js.endsWith_slash raw); discriminate.
  - rewrite join_slash_cons, !append_assoc in Hpre.
    change (".." ++ "/" ++ Js.join_slash (y :: rest) ++ ?x)
      with ("../" ++ Js.join_slash (y :: rest) ++ x) in Hpre.
    unfold Js.startsWith in Hpre. now rewrite prefix_app in Hpre.
Qed.

(** X7. In the earlier variant stripping cannot turn an accepted path
    into an escaping one: for a stored path the validator accepts,
    whatever the earlier stripper returns is a path of names, and the
    validator accepts it again unless it now begins like a Windows
    drive. *)
Theorem earlier_stripped_path_never_escapes (p : string) (n : number) (rel : string) :
  validateArchiveEntryPath p = Ok tt ->
  Earlier.stripArchivePath p n = Some rel ->
  (exists names, rel = Js.join_slash names /\ Forall plain names /\ names <> [])
  /\ (validateArchiveEntryPath rel = Ok tt
      \/ (isWindowsDrivePath rel = true
          /\ validateArchiveEntryPath rel = Err (ErrDrivePath rel))).
Proof.
  intros Hv Hs. rewrite earlier_strip_tail in Hs. cbv zeta in Hs.
  destruct (validated_collapse p Hv) as [Hself|(names & Hc & Hpl & Hbs)].
  - apply is_self_reference_iff in Hself. destruct Hself as [->|[->| ->]]; discriminate Hs.
  - destruct (is_self_reference _); [discriminate|].
    rewrite normalized_parts, Hc in Hs.
    destruct (strip_tail_names names n rel Hpl Hbs Hs) as (rest & -> & Hpl' & Hbs' & Hne).
    split; [now exists rest|].
    rewrite validate_names by assumption.
    destruct (isWindowsDrivePath _); [right; now split | now left].
Qed.

Lemma earlier_stripped_path_never_escapes_witness :
  validateArchiveEntryPath "pkg/C:/x" = Ok tt
  /\ validateArchiveEntryPath "C:/x" = Err (ErrDrivePath "C:/x").
Proof.
  split; [reflexivity|].
  destruct (earlier_stripped_path_never_escapes "pkg/C:/x" (of_Z 1) "C:/x" eq_refl eq_refl)
    as (_ & [H|[_ H]]); [discriminate H | exact H].
Defined.

(** ** The archive kind *)

Lemma toLowerCase_app (s t : string) :
  Js.toLowerCase (s ++ t) = Js.toLowerCase s ++ Js.toLowerCase t.
Proof.
  induction s as [|c s IH]; [reflexivity|].
  rewrite append_cons. simpl. now rewrite IH, append_cons.
Qed.

Lemma toLowerCase_unit_idem (c : ascii) :
  Js.toLowerCase_unit (Js.toLowerCase_unit c) = Js.toLowerCase_unit c.
Proof. destruct c as [[] [] [] [] [] [] [] []]; reflexivity. Qed.

Lemma toLowerCase_idem (s : string) : Js.toLowerCase (Js.toLowerCase s) = Js.toLowerCase s.
Proof. induction s as [|c s IH]; simpl; [reflexivity|]. now rewrite toLowerCase_unit_idem, IH. Qed.

Lemma substring_past (a b : string) (k m : nat) :
  String.substring (String.length a + k) m (a ++ b) = String.substring k m b.
Proof. induction a as [|c a IH]; [reflexivity|]. rewrite append_cons. exact IH. Qed.

Lemma substring_whole (s : string) : String.substring 0 (String.length s) s = s.
Proof. induction s as [|c s IH]; simpl; congruence. Qed.

Lemma substring_cut (s : string) :
  forall k, (k <= String.length s)%nat ->
    s = String.substring 0 k s ++ String.substring k (String.length s - k) s.
Proof.
  induction s as [|c s IH]; intros k Hk.
  - simpl in Hk. assert (k = 0%nat) as -> by lia. reflexivity.
  - destruct k as [|k].
    + simpl. now rewrite append_nil_l, substring_whole.
    + simpl in Hk. simpl. rewrite append_cons. f_equal. apply IH. lia.
Qed.

(** [s.endsWith(t)] holds exactly when [s] is something followed by
    [t]. *)
Lemma endsWith_iff (s t : string) :
  Js.endsWith s t = true <-> exists pre, s = pre ++ t.
Proof.
  unfold Js.endsWith. split.
  - intros H. apply andb_true_iff in H as [Hle Heq].
    apply Nat.leb_le in Hle. apply String.eqb_eq in Heq.
    exists (String.substring 0 (String.length s - String.length t) s).
    remember (String.length t) as m eqn:Hm. rewrite <- Heq.
    pose proof (substring_cut s (String.length s - m)) as Hcut.
    replace (String.length s - (String.length s - m))%nat with m in Hcut by lia.
    apply Hcut. lia.
  - intros (pre & ->). rewrite length_append. apply andb_true_iff. split.
    + apply Nat.leb_le. lia.
    + replace (String.length pre + String.length t - String.length t)%nat
        with (String.length pre + 0)%nat by lia.
      rewrite substring_past, substring_whole. apply String.eqb_refl.
Qed.

Lemma endsWith_app (a b : string) : Js.endsWith (a ++ b) b = true.
Proof. apply endsWith_iff. now exists a. Qed.

Lemma endsWith_short (a b t : string) :
  (String.length t <= String.length b)%nat ->
  Js.endsWith (a ++ b) t = Js.endsWith b t.
Proof.
  intros Hle. unfold Js.endsWith. rewrite length_append.
  replace (String.length a + String.length b - String.length t)%nat
    with (String.length a + (String.length b - String.length t))%nat by lia.
  rewrite substring_past. f_equal.
  apply Nat.leb_le in Hle as Hle'. rewrite Hle'. apply Nat.leb_le. lia.
Qed.

Lemma substring_across_separator (a b : string) :
  forall k m,
    (k <= String.length a)%nat -> (String.length a < k + m)%nat ->
    slashfree (String.substring k m (a ++ "/" ++ b)) = false.
Proof.
  induction a as [|c a IH]; intros k m Hk Hm; simpl in Hk, Hm.
  - assert (k = 0%nat) as -> by lia. destruct m as [|m]; [lia|]. reflexivity.
  - rewrite append_cons. destruct k as [|k].
    + destruct m as [|m]; [lia|]. simpl. rewrite (IH 0%nat m) by lia.
      apply andb_false_r.
    + simpl. apply IH; lia.
Qed.

(** A suffix without a separator is looked for in the base name only. *)
Lemma endsWith_after_separator (a b t : string) :
  slashfree t = true -> Js.endsWith (a ++ "/" ++ b) t = Js.endsWith b t.
Proof.
  intros Ht. destruct (Nat.le_gt_cases (String.length t) (String.length b)) as [Hle|Hgt].
  - rewrite <- append_assoc. now apply endsWith_short.
  - transitivity false.
    + unfold Js.endsWith. destruct (_ <=? _)%nat eqn:Hlen; [|reflexivity].
      apply Nat.leb_le in Hlen. rewrite !length_append in Hlen. simpl in Hlen.
      apply String.eqb_neq. intros Heq. rewrite <- Heq in Ht.
      rewrite substring_across_separator in Ht; [discriminate| |];
        rewrite !length_append; simpl; lia.
    + symmetry. unfold Js.endsWith.
      apply Nat.leb_gt in Hgt. now rewrite Hgt.
Qed.

(** X8. The kind of an archive is read off the end of its path without
    regard to letter case: any spelling of ".zip" makes it a zip archive
    and any spelling of ".tgz", ".tar.gz" or ".tar" a tar archive,
    whatever comes before; the answer for a path is the answer for the
    path in lower case. *)
Theorem resolveArchiveKind_ignores_case :
  (forall stem ext,
     Js.toLowerCase ext = ".zip" -> resolveArchiveKind (stem ++ ext) = Some Zip)
  /\ (forall stem ext,
        In (Js.toLowerCase ext) TAR_SUFFIXES -> resolveArchiveKind (stem ++ ext) = Some Tar)
  /\ (forall filePath,
        resolveArchiveKind (Js.toLowerCase filePath) = resolveArchiveKind filePath).
Proof.
  split; [|split].
  - intros stem ext H. unfold resolveArchiveKind. rewrite toLowerCase_app, H.
    now rewrite endsWith_app.
  - intros stem ext H. unfold resolveArchiveKind. rewrite toLowerCase_app.
    assert (Js.endsWith (Js.toLowerCase stem ++ Js.toLowerCase ext) ".zip" = false) as ->.
    { simpl in H. destruct H as [<-|[<-|[<-|[]]]];
        rewrite endsWith_short by (simpl; lia); reflexivity. }
    assert (existsb (fun suffix => Js.endsWith (Js.toLowerCase stem ++ Js.toLowerCase ext)
                                     suffix) TAR_SUFFIXES = true) as ->; [|reflexivity].
    apply existsb_exists. exists (Js.toLowerCase ext). split; [exact H|].
    apply endsWith_app.
  - intros filePath. unfold resolveArchiveKind. now rewrite toLowerCase_idem.
Qed.

Lemma resolveArchiveKind_ignores_case_witness :
  resolveArchiveKind "/tmp/Plugin-1.0.TAR.GZ" = Some Tar
  /\ resolveArchiveKind "C:\Downloads\Plugin.Zip" = Some Zip.
Proof.
  split.
  - apply (proj1 (proj2 resolveArchiveKind_ignores_case) "/tmp/Plugin-1.0" ".TAR.GZ").
    right. left. reflexivity.
  - apply (proj1 resolveArchiveKind_ignores_case "C:\Downloads\Plugin" ".Zip").
    reflexivity.
Defined.

(** X9. Only the base name decides the kind: what stands before the
    last separator of the path, a directory named "backup.zip" say, is
    never looked at. *)
Theorem resolveArchiveKind_reads_base_name (dir file : string) :
  resolveArchiveKind (dir ++ "/" ++ file) = resolveArchiveKind file.
Proof.
  unfold resolveArchiveKind, TAR_SUFFIXES. rewrite !toLowerCase_app.
  change (Js.toLowerCase "/") with "/". cbn [existsb].
  now rewrite !endsWith_after_separator.
Qed.

(** ** What a run adds to the log *)

Lemma adds_ret {A} (a : A) (R : result A -> list call -> Prop) :
  R (Ok a) [] -> adds (ret a) R.
Proof. intros H w. exists []. simpl. now rewrite app_nil_r. Qed.

Lemma adds_lift {A} (r : result A) (R : result A -> list call -> Prop) :
  R r [] -> adds (lift r) R.
Proof. intros H w. exists []. simpl. now rewrite app_nil_r. Qed.

Lemma adds_throw {A} (e : ArchiveError) (R : result A -> list call -> Prop) :
  R (Err e) [] -> adds (throw e) R.
Proof. intros H w. exists []. simpl. now rewrite app_nil_r. Qed.

Lemma adds_bind {A B} (c : M A) (k : A -> M B)
    (R1 : result A -> list call -> Prop) (R2 : A -> result B -> list call -> Prop)
    (R : result B -> list call -> Prop) :
  adds c R1 -> (forall a, adds (k a) (R2 a)) ->
  (forall a n1 r n2, R1 (Ok a) n1 -> R2 a r n2 -> R r (n1 ++ n2)%list) ->
  (forall e n1, R1 (Err e) n1 -> R (Err e) n1) ->
  adds (bind c k) R.
Proof.
  intros Hc Hk Hok Herr w. unfold bind. destruct (Hc w) as (n1 & E1 & H1).
  destruct (c w) as [[a|e] w1]; cbn [fst snd] in *.
  - destruct (Hk a w1) as (n2 & E2 & H2). exists (n1 ++ n2)%list.
    rewrite E2, E1, app_assoc. split; [reflexivity | now apply (Hok a)].
  - exists n1. split; [exact E1 | now apply Herr].
Qed.

Lemma adds_fs_call (c : call) sc tg f (R : result unit -> list call -> Prop) :
  (forall r, R r [c]) -> adds (fs_call c sc tg f) R.
Proof.
  intros H w. exists [c]. rewrite fs_call_run.
  destruct (f (nodes w)); (split; [reflexivity | apply H]).
Qed.

Lemma adds_mono {A} (c : M A) (R R' : result A -> list call -> Prop) :
  (forall r new, R r new -> R' r new) -> adds c R -> adds c R'.
Proof. intros H Hc w. destruct (Hc w) as (new & E & HR). exists new. auto. Qed.

(** The cleanup of the guarded write: on failure one [unlink] more. *)
Lemma adds_cleanup {A} (host : Host) (body : M A) (out : string)
    (R R' : result A -> list call -> Prop) :
  adds body R ->
  (forall a new, R (Ok a) new -> R' (Ok a) new) ->
  (forall e new, R (Err e) new -> R' (Err e) (new ++ [CUnlink out])%list) ->
  adds (try_cleanup body (swallow (fs_unlink host out))) R'.
Proof.
  intros Hb Hok Herr w. unfold try_cleanup. destruct (Hb w) as (new & E & HR).
  destruct (body w) as [[a|e] w1]; cbn [fst snd] in *.
  - exists new. split; [exact E | now apply Hok].
  - exists (new ++ [CUnlink out])%list. split; [|now apply Herr].
    unfold swallow, fs_unlink. cbn [snd]. rewrite fs_call_run.
    destruct (unlink _ _ _); cbn [snd calls]; now rewrite E, app_assoc.
Qed.

Lemma adds_restore_mode (host : Host) (out : string) (e : ZipEntry)
    (R : result unit -> list call -> Prop) :
  R (Ok tt) [] ->
  (forall u, unixPermissions e = Some u -> permission_bits u <> 0%Z ->
             R (Ok tt) [CChmod out (permission_bits u)]) ->
  adds (restore_mode host out e) R.
Proof.
  intros Hnone Hsome w. unfold restore_mode.
  destruct (unixPermissions e) as [u|]; [|now apply adds_ret].
  destruct (Z.eqb_spec (permission_bits u) 0) as [Hz|Hz]; cbn [negb].
  - now apply adds_ret.
  - exists [CChmod out (permission_bits u)]. unfold swallow, fs_chmod. cbn [fst snd].
    rewrite fs_call_run. split; [|now apply Hsome].
    now destruct (chmod _ _ _ _).
Qed.

(** ** The byte budget of the zip extractor *)

Lemma within_budget_nothing limits eb xb : within_budget limits eb xb (Ok xb) [].
Proof. repeat split; simpl; try lia. intros x H. inversion H. lia. Qed.

Lemma within_budget_failed limits eb xb e : within_budget limits eb xb (Err e) [].
Proof. repeat split; simpl; try lia. discriminate. Qed.

Lemma written_bytes_write (out : string) (chunk : list Byte.byte) (new : list call) :
  written_bytes (CWrite out chunk :: new) = (byteLength chunk + written_bytes new)%Z.
Proof. reflexivity. Qed.

Lemma pump_within_budget limits out chunks :
  forall eb xb, adds (pump limits out chunks eb xb) (within_budget limits eb xb).
Proof.
  induction chunks as [|chunk rest IH]; intros eb xb w.
  - exists []. simpl. rewrite app_nil_r. split; [reflexivity | apply within_budget_nothing].
  - simpl. unfold bind at 1. unfold lift, onChunkBytes.
    destruct (Z.ltb_spec (rMaxEntryBytes limits) (eb + byteLength chunk)) as [H1|H1].
    { exists []. simpl. rewrite app_nil_r. split; [reflexivity | apply within_budget_failed]. }
    destruct (Z.ltb_spec (rMaxExtractedBytes limits) (xb + byteLength chunk)) as [H2|H2].
    { exists []. simpl. rewrite app_nil_r. split; [reflexivity | apply within_budget_failed]. }
    unfold bind at 1. unfold fs_write. rewrite fs_call_run. cbn [fst snd].
    set (w1 := {| nodes := Fs.append (nodes w) out chunk;
                  calls := (calls w ++ [CWrite out chunk])%list |}).
    destruct (IH (eb + byteLength chunk)%Z (xb + byteLength chunk)%Z w1)
      as (new & Hc & Hb1 & Hb2 & Hb3).
    exists (CWrite out chunk :: new). rewrite Hc. subst w1. cbn [calls].
    rewrite <- app_assoc. split; [reflexivity|].
    pose proof (byteLength_nonneg chunk) as Hlen.
    unfold within_budget. rewrite written_bytes_write. repeat split.
    + intros _. specialize (Hb1 H1). lia.
    + intros _. specialize (Hb2 H2). lia.
    + intros x Hx. rewrite (Hb3 x Hx). lia.
Qed.

Lemma adds_bind_lift {A B} (r : result A) (k : A -> M B)
    (R : result B -> list call -> Prop) :
  (forall e, r = Err e -> R (Err e) []) ->
  (forall a, r = Ok a -> adds (k a) R) ->
  adds (bind (lift r) k) R.
Proof.
  intros Herr Hok w. unfold bind, lift. destruct r as [a|e].
  - now apply Hok.
  - exists []. cbn. rewrite app_nil_r. split; [reflexivity | now apply Herr].
Qed.

Lemma adds_bind_call {B} (c : call) sc tg f (k : unit -> M B)
    (R R' : result B -> list call -> Prop) :
  (forall e, R (Err e) [c]) ->
  adds (k tt) R' ->
  (forall r new, R' r new -> R r (c :: new)) ->
  adds (bind (fs_call c sc tg f) k) R.
Proof.
  intros Herr Hk Hcons w. unfold bind. rewrite fs_call_run.
  destruct (f (nodes w)) as [m'|].
  - destruct (Hk {| nodes := m'; calls := (calls w ++ [c])%list |}) as (new & E & HR).
    exists (c :: new). rewrite E. cbn [calls]. rewrite <- app_assoc.
    split; [reflexivity | now apply Hcons].
  - exists [c]. cbn. split; [reflexivity | apply Herr].
Qed.

Lemma within_budget_quiet limits eb xb (r : result Z) (c : call) (new : list call) :
  written_bytes [c] = 0%Z ->
  within_budget limits eb xb r new -> within_budget limits eb xb r (c :: new).
Proof.
  intros Hc H. unfold within_budget in *.
  change (c :: new) with ([c] ++ new)%list. rewrite written_bytes_app, Hc. exact H.
Qed.

Lemma within_budget_quiet_end limits eb xb (r : result Z) (c : call) (new : list call) :
  written_bytes [c] = 0%Z ->
  within_budget limits eb xb r new -> within_budget limits eb xb r (new ++ [c])%list.
Proof.
  intros Hc H. unfold within_budget in *. rewrite written_bytes_app, Hc, Z.add_0_r.
  exact H.
Qed.

Lemma within_budget_fails limits eb xb (e e' : ArchiveError) (new : list call) :
  within_budget limits eb xb (Err e) new -> within_budget limits eb xb (Err e') new.
Proof. intros (H1 & H2 & _). repeat split; try assumption. discriminate. Qed.

Lemma write_entry_within_budget host limits out d xb :
  adds (write_entry host limits out d xb) (within_budget limits 0 xb).
Proof.
  unfold write_entry. eapply adds_cleanup with (R := within_budget limits 0 xb).
  - destruct d as [chunks|buf].
    + unfold fs_open. eapply adds_bind_call.
      * intros e. apply within_budget_failed.
      * apply pump_within_budget.
      * intros r new. now apply within_budget_quiet.
    + apply adds_bind_lift.
      * intros e _. apply within_budget_failed.
      * intros [eb' xb'] Hcounts. unfold onChunkBytes in Hcounts.
        destruct (Z.ltb_spec (rMaxEntryBytes limits) (0 + byteLength buf)) as [H1|H1];
          [discriminate|].
        destruct (Z.ltb_spec (rMaxExtractedBytes limits) (xb + byteLength buf)) as [H2|H2];
          [discriminate|].
        injection Hcounts as <- <-. unfold fs_writeFile.
        eapply adds_bind_call with
          (R' := fun r new => new = [] /\ r = Ok (xb + byteLength buf)%Z).
        -- intros e. unfold within_budget. cbn. repeat split; try lia. discriminate.
        -- apply adds_ret. now split.
        -- intros r new [-> ->]. unfold within_budget. cbn.
           repeat split; try lia. intros x Hx. inversion Hx. lia.
  - auto.
  - intros e new. now apply within_budget_quiet_end.
Qed.

Lemma adds_restore_then_ret {A} (host : Host) (out : string) (e : ZipEntry) (a : A)
    (R : result A -> list call -> Prop) :
  R (Ok a) [] ->
  (forall u, unixPermissions e = Some u -> permission_bits u <> 0%Z ->
             R (Ok a) [CChmod out (permission_bits u)]) ->
  adds (bind (restore_mode host out e) (fun _ => ret a)) R.
Proof.
  intros Hnone Hsome w. unfold bind.
  destruct (adds_restore_mode host out e
              (fun r new => r = Ok tt /\ R (Ok a) new)) with (w := w)
    as (new & E & Hr & HR).
  { now split. }
  { intros u Hu Hz. split; [reflexivity | now apply Hsome]. }
  destruct (restore_mode host out e w) as [r w1]. cbn [fst snd] in *. subst r.
  exists new. cbn. now split.
Qed.

Lemma extract_entry_within_budget host destDir strip limits xb e :
  adds (extract_entry host destDir strip limits xb e) (within_budget limits 0 xb).
Proof.
  unfold extract_entry.
  apply adds_bind_lift; [intros; apply within_budget_failed|]. intros _ _.
  destruct (stripArchivePath (name e) strip) as [relPath|];
    [|apply adds_ret, within_budget_nothing].
  apply adds_bind_lift; [intros; apply within_budget_failed|]. intros _ _.
  apply adds_bind_lift; [intros; apply within_budget_failed|]. intros outPath _.
  destruct (dir e).
  - unfold fs_mkdir. eapply adds_bind_call.
    + intros err. apply within_budget_failed.
    + apply adds_ret, within_budget_nothing.
    + intros r new. now apply within_budget_quiet.
  - unfold fs_mkdir. eapply adds_bind_call with (R' := within_budget limits 0 xb).
    + intros err. apply within_budget_failed.
    + apply adds_bind with
        (R1 := within_budget limits 0 xb)
        (R2 := fun xb' r new => r = Ok xb' /\ written_bytes new = 0%Z).
      * apply write_entry_within_budget.
      * intros xb'. apply adds_restore_then_ret; now split.
      * intros xb' n1 r n2 (H1 & H2 & H3) [-> Hn2].
        unfold within_budget. rewrite written_bytes_app, Hn2, Z.add_0_r.
        split; [exact H1|]. split; [exact H2|].
        intros x Hx. inversion Hx; subst. now apply H3.
      * intros err n1 H. exact H.
    + intros r new. now apply within_budget_quiet.
Qed.

Lemma extract_entries_within_budget host destDir strip limits entries :
  forall xb,
    adds (extract_entries host destDir strip limits xb entries)
         (fun _ new =>
            (xb <= rMaxExtractedBytes limits)%Z ->
            (xb + written_bytes new <= rMaxExtractedBytes limits)%Z).
Proof.
  induction entries as [|e rest IH]; intros xb.
  - apply adds_ret. simpl. lia.
  - cbn [extract_entries]. eapply adds_bind.
    + apply extract_entry_within_budget.
    + intros xb'. apply IH.
    + cbn beta. intros xb' n1 r n2 (_ & H2 & H3) Hrest Hxb.
      rewrite written_bytes_app. specialize (H3 xb' eq_refl). specialize (H2 Hxb). lia.
    + cbn beta. intros err n1 (_ & H2 & _). exact H2.
Qed.

(** X10. Whatever the archive holds and however the extraction ends,
    the bytes [extractZip] hands to the file system in one run never add
    up to more than [maxExtractedBytes] as resolved, and the bytes handed
    over for one entry never to more than [maxEntryBytes]; when an entry
    is extracted, the count carried to the next entry has grown by
    exactly the bytes handed over. *)
Theorem zip_writes_stay_within_budget (host : Host) :
  (forall archivePath archive destDir stripComponents limits w,
     exists new,
       calls (snd (extractZip host archivePath archive destDir stripComponents limits w))
       = (calls w ++ new)%list
       /\ (written_bytes new <= rMaxExtractedBytes (resolveExtractLimits limits))%Z)
  /\ (forall destDir strip limits extractedBytes e w,
        (0 <= rMaxEntryBytes limits)%Z ->
        exists new,
          calls (snd (extract_entry host destDir strip limits extractedBytes e w))
          = (calls w ++ new)%list
          /\ (written_bytes new <= rMaxEntryBytes limits)%Z
          /\ (forall extractedBytes',
                fst (extract_entry host destDir strip limits extractedBytes e w)
                = Ok extractedBytes' ->
                extractedBytes' = (extractedBytes + written_bytes new)%Z)).
Proof.
  split.
  - intros archivePath archive destDir stripComponents limits w.
    pose proof (resolved_limits_positive limits) as (_ & _ & Hpos & _).
    unfold extractZip. cbv zeta.
    assert (Hnone : forall err, exists new,
              calls (snd (@throw unit err w)) = (calls w ++ new)%list
              /\ (written_bytes new <= rMaxExtractedBytes (resolveExtractLimits limits))%Z).
    { intros err. exists []. unfold throw. cbn [snd]. rewrite app_nil_r.
      split; [reflexivity|]. change (written_bytes []) with 0%Z. lia. }
    destruct archive as [zf|]; [|apply Hnone].
    destruct (_ <? _)%Z; [apply Hnone|].
    destruct (zf_files zf) as [entries|]; [|apply Hnone].
    destruct (_ <? _)%Z; [apply Hnone|].
    destruct (extract_entries_within_budget host destDir (resolveStrip stripComponents)
                (resolveExtractLimits limits) entries 0 w) as (new & E & H).
    exists new. split; [exact E|]. cbn beta in H. lia.
  - intros destDir strip limits xb e w Hpos.
    destruct (extract_entry_within_budget host destDir strip limits xb e w)
      as (new & E & H1 & _ & H3).
    exists new. split; [exact E|]. split; [|exact H3]. specialize (H1 Hpos). lia.
Qed.

(** ** What the zip extractor deletes *)

Lemma deletes_last_nothing {A} (r : result A) : deletes_last r [].
Proof.
  destruct r; simpl; [constructor|]. exists [], []. repeat split; [constructor | now left].
Qed.

Lemma deletes_last_cons {A} (c : call) (r : result A) (new : list call) :
  is_unlink c = false -> deletes_last r new -> deletes_last r (c :: new).
Proof.
  intros Hc H. destruct r; simpl in *.
  - now constructor.
  - destruct H as (init & last & -> & Hinit & Hlast). exists (c :: init), last.
    repeat split; [now constructor | exact Hlast].
Qed.

Lemma deletes_last_seq {A B} (a : A) (r : result B) (n1 n2 : list call) :
  deletes_last (Ok a) n1 -> deletes_last r n2 -> deletes_last r (n1 ++ n2)%list.
Proof.
  intros H1 H2. simpl in H1. induction H1 as [|c n1 Hc _ IH]; [exact H2|].
  simpl. now apply deletes_last_cons.
Qed.

Lemma adds_bind_deletes {A B} (c : M A) (k : A -> M B) :
  adds c deletes_last -> (forall a, adds (k a) deletes_last) ->
  adds (bind c k) deletes_last.
Proof.
  intros Hc Hk. eapply adds_bind; [exact Hc | exact Hk | |].
  - intros a n1 r n2. apply deletes_last_seq.
  - now intros.
Qed.

Lemma write_entry_deletes_last host limits out d xb :
  adds (write_entry host limits out d xb) deletes_last.
Proof.
  unfold write_entry.
  eapply adds_cleanup with (R := fun _ new => Forall (fun c => is_unlink c = false) new).
  - change (logs match d with
                 | Buffered buf =>
                     let! counts := lift (onChunkBytes limits 0 xb (byteLength buf)) in
                     run! fs_writeFile host out buf in ret (snd counts)
                 | Streamed chunks =>
                     run! fs_open host out in pump limits out chunks 0 xb
                 end (fun c => is_unlink c = false)).
    destruct d as [chunks|buf].
    + apply logs_bind; [now apply logs_fs_call|]. intros _. now apply logs_pump.
    + apply logs_bind; [apply logs_lift|]. intros counts.
      apply logs_bind; [now apply logs_fs_call|]. intros _. apply logs_ret.
  - now intros.
  - intros e new H. exists new, [CUnlink out]. repeat split; [exact H|]. right. now exists out.
Qed.

Lemma extract_entry_deletes_last host destDir strip limits xb e :
  adds (extract_entry host destDir strip limits xb e) deletes_last.
Proof.
  unfold extract_entry.
  apply adds_bind_lift; [intros; apply deletes_last_nothing|]. intros _ _.
  destruct (stripArchivePath (name e) strip) as [relPath|];
    [|apply adds_ret, deletes_last_nothing].
  apply adds_bind_lift; [intros; apply deletes_last_nothing|]. intros _ _.
  apply adds_bind_lift; [intros; apply deletes_last_nothing|]. intros outPath _.
  destruct (dir e).
  - unfold fs_mkdir. eapply adds_bind_call with (R' := deletes_last).
    + intros err. apply deletes_last_cons; [reflexivity | apply deletes_last_nothing].
    + apply adds_ret, deletes_last_nothing.
    + intros r new. now apply deletes_last_cons.
  - unfold fs_mkdir. eapply adds_bind_call with (R' := deletes_last).
    + intros err. apply deletes_last_cons; [reflexivity | apply deletes_last_nothing].
    + apply adds_bind_deletes; [apply write_entry_deletes_last|].
      intros xb'. apply adds_restore_then_ret; simpl; repeat constructor.
    + intros r new. now apply deletes_last_cons.
Qed.

Lemma extract_entries_deletes_last host destDir strip limits entries :
  forall xb, adds (extract_entries host destDir strip limits xb entries) deletes_last.
Proof.
  induction entries as [|e rest IH]; intros xb.
  - apply adds_ret, deletes_last_nothing.
  - cbn [extract_entries]. apply adds_bind_deletes; [apply extract_entry_deletes_last|].
    intros xb'. apply IH.
Qed.

Lemma cleanup_unlink_more host destDir strip (l1 l2 : list ZipEntry) (c : call) :
  (forall e, In e l1 -> In e l2) ->
  cleanup_unlink host destDir strip l1 c -> cleanup_unlink host destDir strip l2 c.
Proof.
  intros Hsub. destruct c; simpl; trivial.
  intros (e & Hin & Hrest). exists e. split; auto.
Qed.

Lemma logs_cleanup_entry host destDir strip limits xb e :
  logs (extract_entry host destDir strip limits xb e)
       (cleanup_unlink host destDir strip [e]).
Proof.
  unfold extract_entry.
  apply logs_bind_lift. intros [] Hv1.
  destruct (stripArchivePath (name e) strip) as [relPath|] eqn:Hstrip; [|apply logs_ret].
  apply logs_bind_lift. intros [] Hv2.
  apply logs_bind_lift. intros outPath Hout.
  destruct (dir e) eqn:Hdir.
  - apply logs_bind; [|intros; apply logs_ret]. now apply logs_fs_call.
  - assert (Hat : forall c, call_target c = outPath ->
                    cleanup_unlink host destDir strip [e] c).
    { intros c Hc. destruct c; simpl; trivial. simpl in Hc. subst p.
      exists e. split; [now left|]. split; [exact Hdir|].
      unfold entry_out_path. now rewrite Hv1, Hstrip, Hv2, Hout. }
    apply logs_bind; [now apply logs_fs_call|]. intros _.
    apply logs_bind; [apply logs_write_entry; intros c Hc _; now apply Hat|].
    intros xb'. apply logs_bind; [|intros; apply logs_ret].
    now apply logs_restore_mode.
Qed.

Lemma logs_cleanup_entries host destDir strip limits entries :
  forall xb,
    logs (extract_entries host destDir strip limits xb entries)
         (cleanup_unlink host destDir strip entries).
Proof.
  induction entries as [|e rest IH]; intros xb; [apply logs_ret|].
  cbn [extract_entries]. apply logs_bind.
  - eapply logs_mono; [|apply logs_cleanup_entry].
    intros c. apply cleanup_unlink_more. intros e' [<-|[]]. now left.
  - intros xb'. eapply logs_mono; [|apply IH].
    intros c. apply cleanup_unlink_more. intros e' He'. now right.
Qed.

(** X11. [extractZip] issues no [unlink] when it succeeds.  When it
    fails it issues at most one, as the last call it makes, and that one
    is aimed at the output path of a file entry of the archive: it is the
    cleanup of the guarded write.  The cleanup does not ask what was at
    the path before: when an earlier entry of the same archive was
    written to the same output path, it is that entry's file that is
    removed (x/a.txt, then a y/a.txt over the entry limit, under
    [stripComponents = 1]). *)
Theorem zip_deletes_only_after_a_failed_write (host : Host) (archivePath : string)
    (archive : option ZipFile) (destDir : string) (stripComponents : option number)
    (limits : option ArchiveExtractLimits) (w : world) :
  let r := extractZip host archivePath archive destDir stripComponents limits w in
  (exists new,
     calls (snd r) = (calls w ++ new)%list
     /\ (fst r = Ok tt -> Forall (fun c => is_unlink c = false) new)
     /\ (forall err, fst r = Err err ->
           exists init last,
             new = (init ++ last)%list
             /\ Forall (fun c => is_unlink c = false) init
             /\ (last = []
                 \/ exists e out,
                      In e (zip_entries archive) /\ dir e = false
                      /\ entry_out_path host destDir (resolveStrip stripComponents) (name e)
                         = Some out
                      /\ last = [CUnlink out])))
  /\ (let first := {| name := "x/a.txt"; dir := false; unixPermissions := None;
                      content := Buffered [Byte.x31; Byte.x32; Byte.x33] |} in
      let second := {| name := "y/a.txt"; dir := false; unixPermissions := None;
                       content := Buffered (List.repeat Byte.x00 1001) |} in
      let small := Some {| maxArchiveBytes := None; maxEntries := None;
                           maxExtractedBytes := None;
                           maxEntryBytes := Some (of_Z 1000) |} in
      let w0 := {| nodes := {[ "/dest" := Dir ]}; calls := [] |} in
      let alone := extractZip example_host "p.zip"
                     (Some {| zf_size := 2048; zf_files := Some [first] |})
                     "/dest" (Some (of_Z 1)) small w0 in
      let both := extractZip example_host "p.zip"
                    (Some {| zf_size := 2048; zf_files := Some [first; second] |})
                    "/dest" (Some (of_Z 1)) small w0 in
      fst alone = Ok tt
      /\ nodes (snd alone) !! "/dest/a.txt"
         = Some (File [Byte.x31; Byte.x32; Byte.x33] 420)
      /\ fst both = Err ErrEntrySize
      /\ calls (snd both)
         = [ CMkdir "/dest"; CWriteFile "/dest/a.txt" [Byte.x31; Byte.x32; Byte.x33];
             CMkdir "/dest"; CUnlink "/dest/a.txt" ]
      /\ nodes (snd both) !! "/dest/a.txt" = None).
Proof.
  cbv zeta. split.
  - assert (H : adds (extractZip host archivePath archive destDir stripComponents limits)
                     deletes_last).
    { unfold extractZip. cbv zeta.
      destruct archive as [zf|]; [|apply adds_throw, deletes_last_nothing].
      destruct (_ <? _)%Z; [apply adds_throw, deletes_last_nothing|].
      destruct (zf_files zf) as [entries|]; [|apply adds_throw, deletes_last_nothing].
      destruct (_ <? _)%Z; [apply adds_throw, deletes_last_nothing|].
      apply extract_entries_deletes_last. }
    assert (Hat : logs (extractZip host archivePath archive destDir stripComponents limits)
                       (cleanup_unlink host destDir (resolveStrip stripComponents)
                                       (zip_entries archive))).
    { unfold extractZip. cbv zeta.
      destruct archive as [zf|]; [|apply logs_throw].
      destruct (_ <? _)%Z; [apply logs_throw|].
      unfold zip_entries.
      destruct (zf_files zf) as [entries|]; [|apply logs_throw].
      destruct (_ <? _)%Z; [apply logs_throw|].
      apply logs_cleanup_entries. }
    destruct (H w) as (new & E & Hd). destruct (Hat w) as (new' & E' & Hall).
    assert (new' = new) as -> by (rewrite E in E'; now apply app_inv_head in E').
    exists new. split; [exact E|].
    destruct (fst (extractZip _ _ _ _ _ _ w)) as [[]|err0]; simpl in Hd.
    + split; [now intros | discriminate].
    + split; [discriminate|]. intros err _.
      destruct Hd as (init & last & -> & Hinit & Hlast).
      exists init, last. split; [reflexivity|]. split; [exact Hinit|].
      destruct Hlast as [->|(p & ->)]; [now left | right].
      apply Forall_app in Hall as [_ Hlast]. inversion Hlast as [|? ? Hp _]; subst.
      simpl in Hp. destruct Hp as (e & Hin & Hdir & Hout). now exists e, p.
  - split; [|split; [|split; [|split]]]; vm_compute; reflexivity.
Qed.

(** ** The modes the zip extractor sets *)

Lemma land_permission_bits (x : Z) : Z.land x 511 = (x mod 512)%Z.
Proof. change 511%Z with (Z.ones 9). now rewrite Z.land_ones by lia. Qed.

Lemma permission_bits_range (u : Z) : (0 <= permission_bits u <= 511)%Z.
Proof.
  unfold permission_bits. rewrite land_permission_bits.
  pose proof (Z.mod_pos_bound (ToInt32 u) 512 ltac:(lia)). lia.
Qed.

Lemma modest_chmod_other host destDir strip entries (c : call) :
  is_chmod c = false -> modest_chmod host destDir strip entries c.
Proof. destruct c; simpl; trivial. discriminate. Qed.

Lemma modest_chmod_more host destDir strip (l1 l2 : list ZipEntry) (c : call) :
  (forall e, In e l1 -> In e l2) ->
  modest_chmod host destDir strip l1 c -> modest_chmod host destDir strip l2 c.
Proof.
  intros Hsub. destruct c; simpl; trivial.
  intros (Hmode & e & Hin & Hrest). split; [exact Hmode|]. exists e. split; auto.
Qed.

Lemma logs_modest_entry host destDir strip limits xb e :
  logs (extract_entry host destDir strip limits xb e)
       (modest_chmod host destDir strip [e]).
Proof.
  unfold extract_entry.
  apply logs_bind_lift. intros [] Hv1.
  destruct (stripArchivePath (name e) strip) as [relPath|] eqn:Hstrip; [|apply logs_ret].
  apply logs_bind_lift. intros [] Hv2.
  apply logs_bind_lift. intros outPath Hout.
  destruct (dir e) eqn:Hdir.
  - apply logs_bind; [|intros; apply logs_ret]. now apply logs_fs_call.
  - apply logs_bind; [now apply logs_fs_call|]. intros _.
    apply logs_bind.
    { apply logs_write_entry. intros c _ Hc. now apply modest_chmod_other. }
    intros xb'. apply logs_bind; [|intros; apply logs_ret].
    unfold restore_mode. destruct (unixPermissions e) as [u|]; [|apply logs_ret].
    destruct (Z.eqb_spec (permission_bits u) 0) as [Hz|Hz]; cbn [negb]; [apply logs_ret|].
    apply logs_swallow, logs_fs_call. simpl. split.
    + pose proof (permission_bits_range u). lia.
    + exists e. split; [now left|]. split; [exact Hdir|].
      unfold entry_out_path. now rewrite Hv1, Hstrip, Hv2, Hout.
Qed.

Lemma logs_modest_entries host destDir strip limits entries :
  forall xb,
    logs (extract_entries host destDir strip limits xb entries)
         (modest_chmod host destDir strip entries).
Proof.
  induction entries as [|e rest IH]; intros xb; [apply logs_ret|].
  cbn [extract_entries]. apply logs_bind.
  - eapply logs_mono; [|apply logs_modest_entry].
    intros c. apply modest_chmod_more. intros e' [<-|[]]. now left.
  - intros xb'. eapply logs_mono; [|apply IH].
    intros c. apply modest_chmod_more. intros e' He'. now right.
Qed.

(** X12. Every [chmod] the zip extractor issues sets a mode between 1
    and 0o777, so none of the setuid, setgid and sticky bits an archive
    may store, and is aimed at the output path of a file entry of the
    archive: directories are never given a mode. *)
Theorem zip_sets_permission_bits_only (host : Host) (archivePath : string)
    (archive : option ZipFile) (destDir : string) (stripComponents : option number)
    (limits : option ArchiveExtractLimits) (w : world) :
  exists new,
    calls (snd (extractZip host archivePath archive destDir stripComponents limits w))
    = (calls w ++ new)%list
    /\ Forall (fun c =>
                 forall p mode, c = CChmod p mode ->
                   (1 <= mode <= 511)%Z
                   /\ Z.land mode 511 = mode
                   /\ exists e,
                        In e (zip_entries archive) /\ dir e = false
                        /\ entry_out_path host destDir (resolveStrip stripComponents)
                             (name e) = Some p)
              new.
Proof.
  assert (H : logs (extractZip host archivePath archive destDir stripComponents limits)
                   (modest_chmod host destDir (resolveStrip stripComponents)
                                 (zip_entries archive))).
  { unfold extractZip. cbv zeta.
    destruct archive as [zf|]; [|apply logs_throw].
    destruct (_ <? _)%Z; [apply logs_throw|].
    unfold zip_entries.
    destruct (zf_files zf) as [entries|]; [|apply logs_throw].
    destruct (_ <? _)%Z; [apply logs_throw|].
    apply logs_modest_entries. }
  destruct (H w) as (new & E & Hall). exists new. split; [exact E|].
  eapply List.Forall_impl; [|exact Hall].
  intros c Hc p mode ->. simpl in Hc. destruct Hc as (Hmode & He).
  split; [exact Hmode|]. split; [|exact He].
  rewrite land_permission_bits. apply Z.mod_small. lia.
Qed.

(** ** The zip loop stops at the first failure *)




(** ** The run of one entry *)

Lemma open_w_elsewhere cm (m m' : gmap string node) (p q : string) data :
  q <> p -> open_w cm m p data = Some m' -> m' !! q = m !! q.
Proof.
  intros Hq H. unfold open_w in H.
  destruct (m !! p) as [[d0 mode0|]|]; [| discriminate |].
  - injection H as <-. now apply lookup_insert_ne.
  - destruct (is_dir m (Path.dirname p)); [|discriminate].
    injection H as <-. now apply lookup_insert_ne.
Qed.

Lemma append_elsewhere (m : gmap string node) (p q : string) chunk :
  q <> p -> Fs.append m p chunk !! q = m !! q.
Proof.
  intros Hq. unfold Fs.append. destruct (m !! p) as [[d0 mode0|]|]; try reflexivity.
  now apply lookup_insert_ne.
Qed.

Lemma unlink_elsewhere denied (m m' : gmap string node) (p q : string) :
  q <> p -> unlink denied m p = Some m' -> m' !! q = m !! q.
Proof.
  intros Hq H. unfold unlink in H. destruct (denied p); [discriminate|].
  destruct (m !! p) as [[d0 mode0|]|]; try discriminate.
  injection H as <-. now apply lookup_delete_ne.
Qed.

Lemma chmod_elsewhere denied (m m' : gmap string node) (p q : string) mode :
  q <> p -> chmod denied m p mode = Some m' -> m' !! q = m !! q.
Proof.
  intros Hq H. unfold chmod in H. destruct (denied p); [discriminate|].
  destruct (m !! p) as [[d0 mode0|]|]; try discriminate.
  - injection H as <-. now apply lookup_insert_ne.
  - now injection H as <-.
Qed.

Lemma extract_entry_dir_run host destDir strip limits xb e out (w : world) :
  dir e = true ->
  entry_out_path host destDir strip (name e) = Some out ->
  extract_entry host destDir strip limits xb e w
  = bind (fs_mkdir out) (fun _ => ret xb) w.
Proof.
  intros Hdir Hout. unfold entry_out_path in Hout. unfold extract_entry.
  destruct (validateArchiveEntryPath (name e)) as [[]|]; [|discriminate].
  destruct (stripArchivePath (name e) strip) as [relPath|]; [|discriminate].
  destruct (validateArchiveEntryPath relPath) as [[]|]; [|discriminate].
  destruct (resolveCheckedOutPath _ _ _ _) as [o|]; [|discriminate].
  injection Hout as ->. now rewrite Hdir.
Qed.

Lemma extract_entry_no_path host destDir strip limits xb e (w : world) :
  entry_out_path host destDir strip (name e) = None ->
  snd (extract_entry host destDir strip limits xb e w) = w.
Proof.
  intros Hout. unfold entry_out_path in Hout. unfold extract_entry, bind, lift.
  destruct (validateArchiveEntryPath (name e)) as [[]|]; [|reflexivity].
  destruct (stripArchivePath (name e) strip) as [relPath|]; [|reflexivity].
  destruct (validateArchiveEntryPath relPath) as [[]|]; [|reflexivity].
  destruct (resolveCheckedOutPath _ _ _ _) as [o|]; [discriminate | reflexivity].
Qed.

Lemma extract_entries_reach host destDir strip limits (before rest : list ZipEntry) :
  forall xb w,
    fst (extract_entries host destDir strip limits xb (before ++ rest)%list w) = Ok tt ->
    exists xb1 w1,
      extract_entries host destDir strip limits xb (before ++ rest)%list w
      = extract_entries host destDir strip limits xb1 rest w1.
Proof.
  induction before as [|e before IH]; intros xb w Hok; [now exists xb, w|].
  cbn [extract_entries app] in *. unfold bind in *.
  destruct (extract_entry host destDir strip limits xb e w) as [[xb'|err] w1];
    [|discriminate Hok].
  now apply IH.
Qed.

(** ** The log of a successful zip extraction *)

Lemma pump_success_log limits out chunks :
  forall eb xb (w : world) x,
    fst (pump limits out chunks eb xb w) = Ok x ->
    calls (snd (pump limits out chunks eb xb w))
    = (calls w ++ List.map (CWrite out) chunks)%list.
Proof.
  induction chunks as [|chunk rest IH]; intros eb xb w x Hok.
  - simpl. now rewrite app_nil_r.
  - cbn [pump] in *. unfold bind at 1. unfold bind at 1 in Hok. unfold lift in *.
    destruct (onChunkBytes limits eb xb (byteLength chunk)) as [counts|err];
      [|discriminate Hok].
    unfold bind, fs_write in *. rewrite fs_call_run in *.
    rewrite (IH _ _ _ x Hok). cbn [calls List.map]. now rewrite <- app_assoc.
Qed.

Lemma write_entry_success_log host limits out d xb (w : world) x :
  fst (write_entry host limits out d xb w) = Ok x ->
  calls (snd (write_entry host limits out d xb w))
  = (calls w ++ content_calls out d)%list.
Proof.
  unfold write_entry, try_cleanup. destruct d as [chunks|buf]; cbn [content_calls].
  - unfold bind, fs_open. rewrite fs_call_run.
    destruct (open_w _ _ _ _) as [m1|]; [|discriminate].
    set (w1 := {| nodes := m1; calls := (calls w ++ [COpen out])%list |}).
    pose proof (pump_success_log limits out chunks 0 xb w1) as Hpump.
    destruct (pump limits out chunks 0 xb w1) as [[x'|err] w2]; [|discriminate].
    intros _. cbn [fst snd] in *. rewrite (Hpump x' eq_refl). subst w1. cbn [calls].
    now rewrite <- app_assoc.
  - unfold bind at 1. unfold lift.
    destruct (onChunkBytes limits 0 xb (byteLength buf)) as [counts|err]; [|discriminate].
    unfold bind, fs_writeFile. rewrite fs_call_run.
    destruct (open_w _ _ _ _) as [m1|]; [|discriminate]. now intros _.
Qed.

Lemma restore_mode_log host out e (w : world) :
  fst (restore_mode host out e w) = Ok tt
  /\ calls (snd (restore_mode host out e w)) = (calls w ++ mode_calls out e)%list.
Proof.
  unfold restore_mode, mode_calls. destruct (unixPermissions e) as [u|].
  - destruct (negb (permission_bits u =? 0)%Z).
    + unfold swallow, fs_chmod. cbn [fst snd]. rewrite fs_call_run.
      split; [reflexivity|]. now destruct (chmod _ _ _ _).
    + cbn. now rewrite app_nil_r.
  - cbn. now rewrite app_nil_r.
Qed.

Lemma extract_entry_success_log host destDir strip limits xb e (w : world) xb' :
  fst (extract_entry host destDir strip limits xb e w) = Ok xb' ->
  calls (snd (extract_entry host destDir strip limits xb e w))
  = (calls w ++ entry_calls host destDir strip e)%list.
Proof.
  intros Hok. unfold entry_calls.
  destruct (entry_out_path host destDir strip (name e)) as [out|] eqn:Hout.
  - destruct (dir e) eqn:Hdir.
    + rewrite (extract_entry_dir_run _ _ _ _ _ _ out w Hdir Hout) in *.
      unfold bind, fs_mkdir in *. rewrite fs_call_run in *.
      now destruct (mkdir_p (nodes w) out).
    + rewrite (extract_entry_file_run _ _ _ _ _ _ out w Hdir Hout) in *.
      unfold bind at 1. unfold bind at 1 in Hok. unfold fs_mkdir in *.
      rewrite fs_call_run in *.
      destruct (mkdir_p (nodes w) (Path.dirname out)) as [m1|]; [|discriminate Hok].
      set (w1 := {| nodes := m1; calls := (calls w ++ [CMkdir (Path.dirname out)])%list |})
        in *.
      unfold bind at 1. unfold bind at 1 in Hok.
      pose proof (write_entry_success_log host limits out (content e) xb w1) as Hw.
      destruct (write_entry host limits out (content e) xb w1) as [[x|err] w2];
        [|discriminate Hok].
      specialize (Hw x eq_refl). cbn [snd] in Hw.
      unfold bind. destruct (restore_mode_log host out e w2) as [Hr Hlog].
      destruct (restore_mode host out e w2) as [r w3]. cbn [fst snd] in *. subst r.
      cbn [snd ret]. rewrite Hlog, Hw. subst w1. cbn [calls].
      now rewrite <- !app_assoc.
  - rewrite extract_entry_no_path by exact Hout. now rewrite app_nil_r.
Qed.

Lemma extract_entries_success_log host destDir strip limits entries :
  forall xb (w : world),
    fst (extract_entries host destDir strip limits xb entries w) = Ok tt ->
    calls (snd (extract_entries host destDir strip limits xb entries w))
    = (calls w ++ List.concat (List.map (entry_calls host destDir strip) entries))%list.
Proof.
  induction entries as [|e rest IH]; intros xb w Hok.
  - simpl. now rewrite app_nil_r.
  - cbn [extract_entries List.map List.concat] in *. unfold bind in *.
    pose proof (extract_entry_success_log host destDir strip limits xb e w) as He.
    destruct (extract_entry host destDir strip limits xb e w) as [[xb'|err] w1];
      [|discriminate Hok].
    rewrite (IH xb' w1 Hok). cbn [fst snd] in He. rewrite (He xb' eq_refl).
    now rewrite <- app_assoc.
Qed.

Lemma bytes_handed_app (l1 l2 : list call) :
  bytes_handed (l1 ++ l2) = (bytes_handed l1 ++ bytes_handed l2)%list.
Proof.
  induction l1 as [|c l1 IH]; [reflexivity|].
  destruct c; cbn [app bytes_handed fold_right] in *; fold (bytes_handed (l1 ++ l2));
    fold (bytes_handed l1); rewrite IH; try reflexivity; apply app_assoc.
Qed.

Lemma bytes_handed_content (out : string) (d : EntryData) :
  bytes_handed (content_calls out d) = entry_data d.
Proof.
  destruct d as [chunks|buf]; cbn [content_calls entry_data bytes_handed fold_right].
  - induction chunks as [|chunk rest IH]; [reflexivity|].
    cbn [List.map fold_right List.concat]. now rewrite IH.
  - apply app_nil_r.
Qed.

(** X14. When [extractZip] succeeds, what it has handed to [node:fs] is,
    entry by entry in the order of the archive: nothing for an entry
    whose path strips to nothing; one recursive [mkdir] of the output path
    for a directory entry; for a file entry the [mkdir] of the parent
    directory, then the entry's content at its output path (one
    [writeFile] of a buffer, or an open and one write for every chunk of a
    stream, in order), then one [chmod] if the stored mode has permission
    bits.  The bytes handed over for a file entry are the entry's bytes,
    complete and in order; nothing is left out, repeated or deleted. *)
Theorem zip_success_log (host : Host) (archivePath : string) (size : Z)
    (entries : list ZipEntry) (destDir : string) (stripComponents : option number)
    (limits : option ArchiveExtractLimits) (w : world) :
  let r := extractZip host archivePath
             (Some {| zf_size := size; zf_files := Some entries |})
             destDir stripComponents limits w in
  fst r = Ok tt ->
  calls (snd r)
  = (calls w
     ++ List.concat (List.map (entry_calls host destDir (resolveStrip stripComponents))
                              entries))%list
  /\ Forall (fun e =>
               dir e = false ->
               forall out,
                 entry_out_path host destDir (resolveStrip stripComponents) (name e)
                 = Some out ->
                 bytes_handed (entry_calls host destDir (resolveStrip stripComponents) e)
                 = entry_data (content e))
            entries.
Proof.
  cbv zeta. intros Hok. split.
  - unfold extractZip in *. cbv zeta in *. cbn [zf_size zf_files] in *.
    destruct (_ <? size)%Z; [discriminate Hok|].
    destruct (_ <? Z.of_nat _)%Z; [discriminate Hok|].
    now apply extract_entries_success_log.
  - apply List.Forall_forall. intros e _ Hdir out Hout.
    unfold entry_calls. rewrite Hout, Hdir.
    cbn [bytes_handed fold_right]. fold (bytes_handed (content_calls out (content e)
                                                       ++ mode_calls out e)).
    rewrite bytes_handed_app, bytes_handed_content.
    unfold mode_calls. destruct (unixPermissions e) as [u|]; [|apply app_nil_r].
    destruct (negb _); apply app_nil_r.
Qed.

Lemma zip_success_log_witness :
  let top := {| name := "pkg/"; dir := true; unixPermissions := None;
                content := Buffered [] |} in
  let lib := {| name := "pkg/lib/"; dir := true; unixPermissions := Some 16877;
                content := Buffered [] |} in
  let a := {| name := "pkg/lib/a.js"; dir := false; unixPermissions := Some 33188;
              content := Streamed [[Byte.x31; Byte.x32]; [Byte.x33]] |} in
  let b := {| name := "pkg/b.txt"; dir := false; unixPermissions := None;
              content := Buffered [Byte.x34] |} in
  let w := {| nodes := {[ "/dest" := Dir ]}; calls := [] |} in
  calls (snd (extractZip example_host "p.zip"
                (Some {| zf_size := 64; zf_files := Some [top; lib; a; b] |})
                "/dest" (Some (of_Z 1)) None w))
  = [ CMkdir "/dest/lib";
      CMkdir "/dest/lib"; COpen "/dest/lib/a.js";
      CWrite "/dest/lib/a.js" [Byte.x31; Byte.x32]; CWrite "/dest/lib/a.js" [Byte.x33];
      CChmod "/dest/lib/a.js" 420;
      CMkdir "/dest"; CWriteFile "/dest/b.txt" [Byte.x34] ].
Proof.
  cbv zeta.
  refine (eq_trans (proj1 (zip_success_log example_host "p.zip" 64
           [ {| name := "pkg/"; dir := true; unixPermissions := None;
                content := Buffered [] |};
             {| name := "pkg/lib/"; dir := true; unixPermissions := Some 16877;
                content := Buffered [] |};
             {| name := "pkg/lib/a.js"; dir := false; unixPermissions := Some 33188;
                content := Streamed [[Byte.x31; Byte.x32]; [Byte.x33]] |};
             {| name := "pkg/b.txt"; dir := false; unixPermissions := None;
                content := Buffered [Byte.x34] |} ]
           "/dest" (Some (of_Z 1)) None
           {| nodes := {[ "/dest" := Dir ]}; calls := [] |} _)) _).
  - vm_compute. reflexivity.
  - vm_compute. reflexivity.
Defined.

(** ** The byte budget of the tar hook *)

Lemma archiveEntrySize_nonneg (e : TarEntry) : (0 <= archiveEntrySize e)%Z.
Proof. unfold archiveEntrySize. destruct (size e) as [[| | |q]|]; lia. Qed.

Lemma onReadEntry_counts host destDir strip limits c e c' v :
  onReadEntry host destDir strip limits c e = (c', v) ->
  match v with
  | Passed =>
      (archiveEntrySize e <= rMaxEntryBytes limits)%Z
      /\ tarExtractedBytes c' = double_add (tarExtractedBytes c) (archiveEntrySize e)
      /\ (tarExtractedBytes c' <= rMaxExtractedBytes limits)%Z
  | Skipped => c' = c
  | Aborted _ => True
  end.
Proof.
  unfold onReadEntry.
  destruct (validateArchiveEntryPath (path e)); [|now intros [= <- <-]].
  destruct (stripArchivePath (path e) strip); [|now intros [= <- <-]].
  destruct (validateArchiveEntryPath _); [|now intros [= <- <-]].
  destruct (resolveCheckedOutPath _ _ _ _); [|now intros [= <- <-]].
  destruct (is_link_like _); [now intros [= <- <-]|].
  cbn [entryCount tarExtractedBytes].
  destruct (Z.ltb_spec (rMaxEntries limits) (double_add (entryCount c) 1));
    [now intros [= <- <-]|].
  destruct (Z.ltb_spec (rMaxEntryBytes limits) (archiveEntrySize e));
    [now intros [= <- <-]|].
  destruct (Z.ltb_spec (rMaxExtractedBytes limits)
              (double_add (tarExtractedBytes c) (archiveEntrySize e)));
    [now intros [= <- <-]|].
  intros [= <- <-]. cbn [tarExtractedBytes]. repeat split; lia.
Qed.

Lemma run_hook_budget host destDir strip limits entries :
  (rMaxExtractedBytes limits < 2 ^ 53)%Z ->
  forall c,
    (0 <= tarExtractedBytes c <= rMaxExtractedBytes limits)%Z ->
    (tarExtractedBytes c + passed_bytes (fst (run_hook host destDir strip limits c entries))
     <= rMaxExtractedBytes limits)%Z.
Proof.
  intros Hlimit. induction entries as [|e rest IH]; intros c Hc.
  - simpl. lia.
  - cbn [run_hook].
    pose proof (onReadEntry_counts host destDir strip limits c e) as Hstep.
    destruct (onReadEntry host destDir strip limits c e) as [c' v].
    specialize (Hstep c' v eq_refl).
    destruct v as [| |err].
    + subst c'. specialize (IH c Hc).
      destruct (run_hook host destDir strip limits c rest) as [seen r].
      cbn [fst] in *. cbn [passed_bytes fold_right is_passed snd]. exact IH.
    + destruct Hstep as (_ & Hsum & Hmax).
      pose proof (archiveEntrySize_nonneg e) as Hsize.
      assert (Hexact : tarExtractedBytes c'
                       = (tarExtractedBytes c + archiveEntrySize e)%Z).
      { rewrite Hsum. apply (double_add_within _ _ (rMaxExtractedBytes limits));
          [lia | exact Hlimit | now rewrite <- Hsum]. }
      specialize (IH c' ltac:(lia)).
      destruct (run_hook host destDir strip limits c' rest) as [seen r].
      cbn [fst] in *. cbn [passed_bytes fold_right is_passed snd fst].
      fold (passed_bytes seen). lia.
    + simpl. lia.
Qed.

Lemma run_hook_entry_sizes host destDir strip limits entries :
  forall c,
    Forall (fun ev => snd ev = Passed ->
                      (archiveEntrySize (fst ev) <= rMaxEntryBytes limits)%Z)
           (fst (run_hook host destDir strip limits c entries)).
Proof.
  intros c. eapply List.Forall_impl; [|apply run_hook_seen].
  intros [e v] (c1 & c2 & Hhook) Hv. cbn [fst snd] in *. subst v.
  now apply onReadEntry_counts in Hhook as (H & _).
Qed.

(** X15. The tar hook budgets the sizes the entries declare.  It passes
    an entry only if its declared size is within [maxEntryBytes].  Its
    running total is a double: the sum of the total so far and the
    declared size, rounded, and that is what it compares with
    [maxExtractedBytes].  Under a limit below 2^53, as the default is,
    the declared sizes of the entries passed in one run add up to no more
    than the limit; under the limit 2^53 they can add up to more: declared
    sizes 2 and 2^53-1 are both passed.  A size that is missing, not a
    number, infinite or below 1 counts as 0, any other as its floor. *)
Theorem tar_hook_budgets_declared_sizes (host : Host) (destDir : string) :
  (forall strip limits c e c',
     onReadEntry host destDir strip limits c e = (c', Passed) ->
     (0 <= archiveEntrySize e <= rMaxEntryBytes limits)%Z
     /\ tarExtractedBytes c' = double_add (tarExtractedBytes c) (archiveEntrySize e)
     /\ (tarExtractedBytes c' <= rMaxExtractedBytes limits)%Z)
  /\ (forall entries stripComponents limits,
        Forall (fun ev => snd ev = Passed ->
                  (archiveEntrySize (fst ev)
                   <= rMaxEntryBytes (resolveExtractLimits limits))%Z)
               (fst (extractTar host entries destDir stripComponents limits)))
  /\ (forall entries stripComponents limits,
        (rMaxExtractedBytes (resolveExtractLimits limits) < 2 ^ 53)%Z ->
        (passed_bytes (fst (extractTar host entries destDir stripComponents limits))
         <= rMaxExtractedBytes (resolveExtractLimits limits))%Z)
  /\ (rMaxExtractedBytes (resolveExtractLimits None) < 2 ^ 53)%Z
  /\ (let limits := Some {| maxArchiveBytes := None; maxEntries := None;
                            maxExtractedBytes := Some (of_Z (2 ^ 53));
                            maxEntryBytes := Some (of_Z (2 ^ 53)) |} in
      let entries := [ {| path := "a"; type := "File"; size := Some (of_Z 2) |};
                       {| path := "b"; type := "File";
                          size := Some (of_Z (2 ^ 53 - 1)) |} ] in
      let run := extractTar example_host entries "/dest" None limits in
      rMaxExtractedBytes (resolveExtractLimits limits) = (2 ^ 53)%Z
      /\ List.map snd (fst run) = [Passed; Passed]
      /\ snd run = Ok tt
      /\ passed_bytes (fst run) = (2 ^ 53 + 1)%Z)
  /\ (forall e, (forall q, size e = Some (Fin q) -> (q < 1)%Q) -> archiveEntrySize e = 0%Z)
  /\ (forall e q, size e = Some (Fin q) -> (1 <= q)%Q -> archiveEntrySize e = Qfloor q).
Proof.
  split; [|split; [|split; [|split; [|split; [|split]]]]].
  - intros strip limits c e c' H.
    pose proof (onReadEntry_counts _ _ _ _ _ _ _ _ H) as (H1 & H2 & H3).
    pose proof (archiveEntrySize_nonneg e). repeat split; assumption || lia.
  - intros entries stripComponents limits. apply run_hook_entry_sizes.
  - intros entries stripComponents limits Hlimit. unfold extractTar.
    pose proof (resolved_limits_positive limits) as (_ & _ & Hpos & _).
    pose proof (run_hook_budget host destDir (resolveStrip stripComponents)
                  (resolveExtractLimits limits) entries Hlimit
                  {| entryCount := 0; tarExtractedBytes := 0 |}) as H.
    cbn [tarExtractedBytes] in H. lia.
  - vm_compute. reflexivity.
  - cbv zeta. split; [|split; [|split]]; vm_compute; reflexivity.
  - intros e Hsmall. unfold archiveEntrySize.
    destruct (size e) as [[| | |q]|]; try reflexivity.
    specialize (Hsmall q eq_refl).
    assert (Qfloor q <= 0)%Z; [|lia].
    destruct (Z.lt_ge_cases 0 (Qfloor q)) as [H|H]; [|lia]. exfalso.
    apply Z.ltb_lt, Qfloor_pos_iff in H. apply (Qlt_not_le _ _ Hsmall H).
  - intros e q Hq Hbig. unfold archiveEntrySize. rewrite Hq.
    apply Qfloor_pos_iff, Z.ltb_lt in Hbig. lia.
Qed.

(** ** The earlier tar callback *)

Lemma earlier_filter_all_cons host destDir strip firstError entryPath entry rest :
  Earlier.filter_all host destDir strip firstError ((entryPath, entry) :: rest)
  = let '(firstError', answer) :=
      Earlier.filter host destDir strip firstError entryPath entry in
    let '(final, answers) := Earlier.filter_all host destDir strip firstError' rest in
    (final, answer :: answers).
Proof. reflexivity. Qed.

Lemma earlier_filter_run host destDir strip (entries : list (string * Earlier.FilterEntry)) :
  forall firstError,
    Earlier.filter_all host destDir strip firstError entries
    = (match firstError with
       | Some err => Some err
       | None => first_thrown host destDir strip entries
       end,
       List.map (lets_through host destDir strip) entries).
Proof.
  induction entries as [|[entryPath entry] rest IH]; intros firstError.
  - now destruct firstError.
  - rewrite earlier_filter_all_cons. unfold Earlier.filter.
    cbn [List.map first_thrown]. unfold thrown at 1, lets_through at 1. cbn [fst snd].
    destruct (Earlier.filter_checks host destDir strip entryPath entry) as [answer|err];
      rewrite IH; now destruct firstError.
Qed.

Lemma first_thrown_skips host destDir strip (before rest : list (string * Earlier.FilterEntry)) :
  Forall (fun i => thrown host destDir strip i = None) before ->
  first_thrown host destDir strip (before ++ rest)%list = first_thrown host destDir strip rest.
Proof.
  intros Hbefore. induction Hbefore as [|i before Hi _ IH]; [reflexivity|].
  cbn [app first_thrown]. now rewrite Hi.
Qed.

(** X16. The callback of the earlier tar branch never stops the
    unpacker: every entry is answered on its own merits, so entries
    after a rejected one are still let through, and of the errors thrown on
    the way only the first is kept, to be thrown when the unpacker is
    done. *)
Theorem earlier_filter_keeps_first_error (host : Host) (destDir : string) (strip : number)
    (entries : list (string * Earlier.FilterEntry)) :
  snd (Earlier.filter_all host destDir strip None entries)
  = List.map (lets_through host destDir strip) entries
  /\ (forall err, fst (Earlier.filter_all host destDir strip (Some err) entries) = Some err)
  /\ (Forall (fun i => thrown host destDir strip i = None) entries ->
      fst (Earlier.filter_all host destDir strip None entries) = None)
  /\ (forall before item after err,
        entries = (before ++ item :: after)%list ->
        Forall (fun i => thrown host destDir strip i = None) before ->
        thrown host destDir strip item = Some err ->
        fst (Earlier.filter_all host destDir strip None entries) = Some err).
Proof.
  rewrite !earlier_filter_run. cbn [fst snd].
  split; [reflexivity|]. split; [|split].
  - intros err. now rewrite earlier_filter_run.
  - intros Hall. rewrite <- (app_nil_r entries), first_thrown_skips by assumption.
    reflexivity.
  - intros before item after err -> Hbefore Hitem.
    rewrite first_thrown_skips by assumption. cbn [first_thrown]. now rewrite Hitem.
Qed.

Lemma earlier_filter_keeps_first_error_witness :
  Earlier.filter_all example_host "/dest" (of_Z 1) None
    [ ("pkg/a.txt", {| Earlier.f_type := Some "File"; Earlier.f_isSymbolicLink := None |});
      ("pkg/evil", {| Earlier.f_type := Some "SymbolicLink";
                      Earlier.f_isSymbolicLink := None |});
      ("pkg/../../x", {| Earlier.f_type := Some "File"; Earlier.f_isSymbolicLink := None |});
      ("pkg/b.txt", {| Earlier.f_type := Some "File"; Earlier.f_isSymbolicLink := None |}) ]
  = (Some (ErrLink "pkg/evil"), [true; false; false; true]).
Proof.
  apply injective_projections.
  - apply (proj2 (proj2 (proj2 (earlier_filter_keeps_first_error example_host "/dest" (of_Z 1)
             _)))
             [ ("pkg/a.txt", {| Earlier.f_type := Some "File";
                                Earlier.f_isSymbolicLink := None |}) ]
             ("pkg/evil", {| Earlier.f_type := Some "SymbolicLink";
                             Earlier.f_isSymbolicLink := None |})
             [ ("pkg/../../x", {| Earlier.f_type := Some "File";
                                  Earlier.f_isSymbolicLink := None |});
               ("pkg/b.txt", {| Earlier.f_type := Some "File";
                                Earlier.f_isSymbolicLink := None |}) ]).
    + reflexivity.
    + repeat constructor.
    + reflexivity.
  - reflexivity.
Defined.

(** ** The errors of the extractors *)

Lemma raises_ret {A} (a : A) P : raises (ret a) P.
Proof. intros w err H. discriminate H. Qed.

Lemma raises_lift {A} (r : result A) (P : ArchiveError -> Prop) :
  (forall err, r = Err err -> P err) -> raises (lift r) P.
Proof. intros H w err Hr. now apply H. Qed.

Lemma raises_bind {A B} (c : M A) (k : A -> M B) P :
  raises c P -> (forall a, raises (k a) P) -> raises (bind c k) P.
Proof.
  intros Hc Hk w err. unfold bind. specialize (Hc w).
  destruct (c w) as [[a|e] w1]; cbn [fst] in *.
  - apply Hk.
  - intros [= <-]. now apply Hc.
Qed.

Lemma raises_swallow (c : M unit) P : raises (swallow c) P.
Proof. intros w err H. discriminate H. Qed.

Lemma raises_try_cleanup {A} (body : M A) (handler : M unit) P :
  raises body P -> raises (try_cleanup body handler) P.
Proof.
  intros Hb w err. unfold try_cleanup. specialize (Hb w).
  destruct (body w) as [[a|e] w1]; cbn [fst] in *; [discriminate|].
  intros [= <-]. now apply Hb.
Qed.

Lemma raises_fs_call (c : call) sc tg f (P : ArchiveError -> Prop) :
  P (ErrHost sc tg) -> raises (fs_call c sc tg f) P.
Proof.
  intros H w err. rewrite fs_call_run. destruct (f (nodes w)); [discriminate|].
  now intros [= <-].
Qed.

Lemma validate_raises_path_error (p : string) (err : ArchiveError) :
  validateArchiveEntryPath p = Err err -> error_kind err = PathEscape.
Proof.
  unfold validateArchiveEntryPath.
  destruct (is_self_reference p); [discriminate|].
  destruct (isWindowsDrivePath p); [now intros [= <-]|].
  destruct (_ || _); [now intros [= <-]|].
  destruct (_ || _); [now intros [= <-] | discriminate].
Qed.

Lemma checked_raises_path_error cwd destDir relPath original (err : ArchiveError) :
  resolveCheckedOutPath cwd destDir relPath original = Err err ->
  error_kind err = PathEscape.
Proof.
  unfold resolveCheckedOutPath. destruct (negb _); [now intros [= <-] | discriminate].
Qed.

Lemma onChunkBytes_raises limits eb xb bytes (err : ArchiveError) :
  onChunkBytes limits eb xb bytes = Err err -> err = ErrEntrySize \/ err = ErrExtractedSize.
Proof.
  unfold onChunkBytes. destruct (_ <? _)%Z; [intros [= <-]; now left|].
  destruct (_ <? _)%Z; [intros [= <-]; now right | discriminate].
Qed.

Lemma host_failure_is_loop_error sc tg : loop_error (ErrHost sc tg).
Proof. right. now left. Qed.

Lemma raises_pump limits out chunks :
  forall eb xb, raises (pump limits out chunks eb xb) loop_error.
Proof.
  induction chunks as [|chunk rest IH]; intros eb xb; [apply raises_ret|].
  cbn [pump]. apply raises_bind.
  - apply raises_lift. intros err H. apply onChunkBytes_raises in H. right. now right.
  - intros counts. apply raises_bind; [|intros _; apply IH].
    apply raises_fs_call, host_failure_is_loop_error.
Qed.

Lemma raises_extract_entry host destDir strip limits xb e :
  raises (extract_entry host destDir strip limits xb e) loop_error.
Proof.
  unfold extract_entry. apply raises_bind.
  { apply raises_lift. intros err H. left. now apply validate_raises_path_error in H. }
  intros _. destruct (stripArchivePath (name e) strip) as [relPath|]; [|apply raises_ret].
  apply raises_bind.
  { apply raises_lift. intros err H. left. now apply validate_raises_path_error in H. }
  intros _. apply raises_bind.
  { apply raises_lift. intros err H. left. now apply checked_raises_path_error in H. }
  intros outPath. destruct (dir e).
  - apply raises_bind; [|intros; apply raises_ret].
    apply raises_fs_call, host_failure_is_loop_error.
  - apply raises_bind; [apply raises_fs_call, host_failure_is_loop_error|]. intros _.
    apply raises_bind.
    + unfold write_entry. apply raises_try_cleanup. destruct (content e) as [chunks|buf].
      * apply raises_bind; [apply raises_fs_call, host_failure_is_loop_error|].
        intros _. apply raises_pump.
      * apply raises_bind.
        { apply raises_lift. intros err H. apply onChunkBytes_raises in H.
          right. now right. }
        intros counts. apply raises_bind; [|intros; apply raises_ret].
        apply raises_fs_call, host_failure_is_loop_error.
    + intros xb'. apply raises_bind; [|intros; apply raises_ret].
      unfold restore_mode. destruct (unixPermissions e); [|apply raises_ret].
      destruct (negb _); [apply raises_swallow | apply raises_ret].
Qed.

Lemma raises_extract_entries host destDir strip limits entries :
  forall xb, raises (extract_entries host destDir strip limits xb entries) loop_error.
Proof.
  induction entries as [|e rest IH]; intros xb; [apply raises_ret|].
  cbn [extract_entries]. apply raises_bind; [apply raises_extract_entry | intros; apply IH].
Qed.

(** X17. The errors each extractor can end with.  [extractZip] fails
    with a path error, a limit error or a failure of the host, never with
    the error for link-like entries; and when it fails on the size of the
    archive or on its number of entries, it has touched nothing.  The tar
    hook aborts with a path error, the link error or a limit error, and
    with a path error whenever the stored path does not pass the
    validator, whatever the entry's type. *)
Theorem extractor_error_classes (host : Host) (destDir : string) :
  (forall archivePath archive stripComponents limits w err,
     fst (extractZip host archivePath archive destDir stripComponents limits w) = Err err ->
     (error_kind err = PathEscape \/ error_kind err = LimitExceeded
      \/ error_kind err = HostFailure)
     /\ (err = ErrArchiveSize \/ err = ErrEntryCount ->
         snd (extractZip host archivePath archive destDir stripComponents limits w) = w))
  /\ (forall strip limits c e c' err,
        onReadEntry host destDir strip limits c e = (c', Aborted err) ->
        error_kind err = PathEscape \/ error_kind err = DisallowedEntryType
        \/ error_kind err = LimitExceeded)
  /\ (forall strip limits c e err,
        validateArchiveEntryPath (path e) = Err err ->
        onReadEntry host destDir strip limits c e = (c, Aborted err)
        /\ error_kind err = PathEscape).
Proof.
  split; [|split].
  - intros archivePath archive stripComponents limits w err.
    unfold extractZip. cbv zeta.
    destruct archive as [zf|]; [|intros [= <-]; split; [auto | now intros [|]]].
    destruct (_ <? _)%Z; [intros [= <-]; split; [auto | reflexivity]|].
    destruct (zf_files zf) as [entries|]; [|intros [= <-]; split; [auto | now intros [|]]].
    destruct (_ <? _)%Z; [intros [= <-]; split; [auto | reflexivity]|].
    intros H. apply raises_extract_entries in H.
    destruct H as [H|[H|[H|H]]].
    + split; [now left | intros [E|E]; rewrite E in H; discriminate H].
    + split; [now right; right | intros [E|E]; rewrite E in H; discriminate H].
    + rewrite H. split; [right; now left | intros [E|E]; discriminate E].
    + rewrite H. split; [right; now left | intros [E|E]; discriminate E].
  - intros strip limits c e c' err. unfold onReadEntry.
    destruct (validateArchiveEntryPath (path e)) as [[]|e1] eqn:H1.
    2:{ intros [= <- <-]. left. now apply validate_raises_path_error in H1. }
    destruct (stripArchivePath (path e) strip) as [relPath|]; [|discriminate].
    destruct (validateArchiveEntryPath relPath) as [[]|e2] eqn:H2.
    2:{ intros [= <- <-]. left. now apply validate_raises_path_error in H2. }
    destruct (resolveCheckedOutPath _ _ _ _) as [o|e3] eqn:H3.
    2:{ intros [= <- <-]. left. now apply checked_raises_path_error in H3. }
    destruct (is_link_like _); [intros [= <- <-]; right; now left|].
    destruct (_ <? _)%Z; [intros [= <- <-]; right; now right|].
    destruct (_ <? _)%Z; [intros [= <- <-]; right; now right|].
    destruct (_ <? _)%Z; [intros [= <- <-]; right; now right | discriminate].
  - intros strip limits c e err H. split.
    + unfold onReadEntry. now rewrite H.
    + now apply validate_raises_path_error in H.
Qed.

(** ** The earlier zip loop and the present one *)

Lemma open_w_shape cm (m m' : gmap string node) (p : string) data :
  open_w cm m p data = Some m' ->
  exists mode,
    m' = <[p := File data mode]> m
    /\ forall data', open_w cm m p data' = Some (<[p := File data' mode]> m).
Proof.
  unfold open_w. destruct (m !! p) as [[d0 mode0|]|]; [| discriminate |].
  - intros [= <-]. now exists mode0.
  - destruct (is_dir m (Path.dirname p)); [|discriminate].
    intros [= <-]. now exists cm.
Qed.

Lemma append_to_written (base : gmap string node) (out : string) d mode chunk :
  Fs.append (<[out := File d mode]> base) out chunk
  = <[out := File (d ++ chunk) mode]> base.
Proof. unfold Fs.append. now rewrite lookup_insert_eq, insert_insert_eq. Qed.

Lemma pump_nodes limits out chunks (base : gmap string node) mode :
  forall eb xb w d x,
    nodes w = <[out := File d mode]> base ->
    fst (pump limits out chunks eb xb w) = Ok x ->
    nodes (snd (pump limits out chunks eb xb w))
    = <[out := File (d ++ List.concat chunks) mode]> base.
Proof.
  induction chunks as [|chunk rest IH]; intros eb xb w d x Hw Hok.
  - simpl. now rewrite app_nil_r.
  - cbn [pump] in *. unfold bind at 1. unfold bind at 1 in Hok. unfold lift in *.
    destruct (onChunkBytes limits eb xb (byteLength chunk)) as [counts|err];
      [|discriminate Hok].
    unfold bind at 1. unfold bind at 1 in Hok. unfold fs_write in *.
    rewrite fs_call_run in *. cbn [concat].
    rewrite app_assoc. apply (IH _ _ _ (d ++ chunk)%list x); [|exact Hok].
    cbn [nodes]. rewrite Hw. apply append_to_written.
Qed.

(** A write that succeeds leaves what writing all the bytes at once
    leaves. *)
Lemma write_entry_as_writeFile host limits out d xb (w : world) x :
  fst (write_entry host limits out d xb w) = Ok x ->
  open_w (create_mode host) (nodes w) out (Earlier.nodebuffer d)
  = Some (nodes (snd (write_entry host limits out d xb w))).
Proof.
  unfold write_entry, try_cleanup. destruct d as [chunks|buf].
  - unfold bind, fs_open. rewrite fs_call_run.
    destruct (open_w (create_mode host) (nodes w) out []) as [m1|] eqn:Hopen;
      [|discriminate].
    destruct (open_w_shape _ _ _ _ _ Hopen) as (mode & -> & Hany).
    pose proof (pump_nodes limits out chunks (nodes w) mode 0 xb
                  {| nodes := <[out := File [] mode]> (nodes w);
                     calls := (calls w ++ [COpen out])%list |} []) as Hp.
    destruct (pump limits out chunks 0 xb _) as [[a|err] w2]; [|discriminate].
    intros _. cbn [fst snd] in *. rewrite (Hp a eq_refl eq_refl). apply Hany.
  - unfold bind, lift.
    destruct (onChunkBytes limits 0 xb (byteLength buf)) as [counts|err]; [|discriminate].
    unfold fs_writeFile. rewrite fs_call_run. cbn [Earlier.nodebuffer].
    destruct (open_w (create_mode host) (nodes w) out buf) as [m1|]; [|discriminate].
    reflexivity.
Qed.

Lemma restore_mode_by_nodes host out e (w w' : world) :
  nodes w' = nodes w ->
  fst (restore_mode host out e w') = Ok tt
  /\ fst (restore_mode host out e w) = Ok tt
  /\ nodes (snd (restore_mode host out e w')) = nodes (snd (restore_mode host out e w)).
Proof.
  intros Hw. unfold restore_mode. destruct (unixPermissions e) as [u|]; [|now auto].
  destruct (negb _); [|now auto].
  unfold swallow, fs_chmod. cbn [fst snd]. rewrite !fs_call_run, Hw.
  now destruct (chmod _ _ _ _).
Qed.

Lemma earlier_entry_dir_run host destDir strip e out (w : world) :
  no_dotdot (name e) -> dir e = true ->
  entry_out_path host destDir strip (name e) = Some out ->
  Earlier.extract_entry host destDir strip e w = fs_mkdir out w.
Proof.
  intros Hnd Hdir Hout. unfold entry_out_path in Hout. unfold Earlier.extract_entry.
  rewrite (earlier_strip_agrees _ _ Hnd).
  destruct (validateArchiveEntryPath (name e)) as [[]|]; [|discriminate].
  destruct (stripArchivePath (name e) strip) as [relPath|]; [|discriminate].
  destruct (validateArchiveEntryPath relPath) as [[]|]; [|discriminate].
  destruct (resolveCheckedOutPath _ _ _ _) as [o|]; [|discriminate].
  injection Hout as ->. now rewrite Hdir.
Qed.

Lemma earlier_entry_file_run host destDir strip e out (w : world) :
  no_dotdot (name e) -> dir e = false ->
  entry_out_path host destDir strip (name e) = Some out ->
  Earlier.extract_entry host destDir strip e w
  = bind (fs_mkdir (Path.dirname out))
      (fun _ => bind (fs_writeFile host out (Earlier.nodebuffer (content e)))
                     (fun _ => restore_mode host out e)) w.
Proof.
  intros Hnd Hdir Hout. unfold entry_out_path in Hout. unfold Earlier.extract_entry.
  rewrite (earlier_strip_agrees _ _ Hnd).
  destruct (validateArchiveEntryPath (name e)) as [[]|]; [|discriminate].
  destruct (stripArchivePath (name e) strip) as [relPath|]; [|discriminate].
  destruct (validateArchiveEntryPath relPath) as [[]|]; [|discriminate].
  destruct (resolveCheckedOutPath _ _ _ _) as [o|]; [|discriminate].
  injection Hout as ->. now rewrite Hdir.
Qed.

Lemma earlier_entry_skipped host destDir strip limits xb e (w w' : world) xb' :
  no_dotdot (name e) ->
  entry_out_path host destDir strip (name e) = None ->
  fst (extract_entry host destDir strip limits xb e w) = Ok xb' ->
  Earlier.extract_entry host destDir strip e w' = (Ok tt, w').
Proof.
  intros Hnd Hout. unfold entry_out_path in Hout.
  unfold extract_entry, Earlier.extract_entry, bind, lift.
  rewrite (earlier_strip_agrees _ _ Hnd).
  destruct (validateArchiveEntryPath (name e)) as [[]|]; [|discriminate].
  destruct (stripArchivePath (name e) strip) as [relPath|]; [|reflexivity].
  destruct (validateArchiveEntryPath relPath) as [[]|]; [|discriminate].
  destruct (resolveCheckedOutPath _ _ _ _) as [o|]; discriminate.
Qed.

Lemma extract_entry_file_ok host destDir strip limits xb e out (w : world) xb' :
  dir e = false ->
  entry_out_path host destDir strip (name e) = Some out ->
  fst (extract_entry host destDir strip limits xb e w) = Ok xb' ->
  exists m1 x w2,
    mkdir_p (nodes w) (Path.dirname out) = Some m1
    /\ write_entry host limits out (content e) xb
         {| nodes := m1; calls := (calls w ++ [CMkdir (Path.dirname out)])%list |}
       = (Ok x, w2)
    /\ nodes (snd (extract_entry host destDir strip limits xb e w))
       = nodes (snd (restore_mode host out e w2)).
Proof.
  intros Hdir Hout Hok.
  rewrite (extract_entry_file_run _ _ _ _ _ _ out w Hdir Hout) in *.
  unfold bind, fs_mkdir in *. rewrite fs_call_run in *.
  destruct (mkdir_p (nodes w) (Path.dirname out)) as [m1|]; [|discriminate Hok].
  exists m1.
  destruct (write_entry host limits out (content e) xb _) as [[x|err] w2];
    [|discriminate Hok].
  exists x, w2. split; [reflexivity|]. split; [reflexivity|].
  now destruct (restore_mode host out e w2) as [[[]|err] w3].
Qed.

Lemma earlier_entry_follows host destDir strip limits xb e (w w' : world) xb' :
  no_dotdot (name e) ->
  nodes w' = nodes w ->
  fst (extract_entry host destDir strip limits xb e w) = Ok xb' ->
  fst (Earlier.extract_entry host destDir strip e w') = Ok tt
  /\ nodes (snd (Earlier.extract_entry host destDir strip e w'))
     = nodes (snd (extract_entry host destDir strip limits xb e w)).
Proof.
  intros Hnd Hw Hok.
  destruct (entry_out_path host destDir strip (name e)) as [out|] eqn:Hout.
  2:{ rewrite (earlier_entry_skipped _ _ _ _ _ _ w w' xb' Hnd Hout Hok).
      rewrite extract_entry_no_path by assumption. now split. }
  destruct (dir e) eqn:Hdir.
  - rewrite (earlier_entry_dir_run _ _ _ _ out w' Hnd Hdir Hout).
    rewrite (extract_entry_dir_run _ _ _ _ _ _ out w Hdir Hout) in *.
    unfold bind, fs_mkdir in *. rewrite !fs_call_run in *. rewrite Hw.
    destruct (mkdir_p (nodes w) out); [now split | discriminate Hok].
  - destruct (extract_entry_file_ok _ _ _ _ _ _ out w xb' Hdir Hout Hok)
      as (m1 & x & w2 & Hmk & Hwrite & ->).
    rewrite (earlier_entry_file_run _ _ _ _ out w' Hnd Hdir Hout).
    unfold bind, fs_mkdir, fs_writeFile. rewrite fs_call_run, Hw, Hmk, fs_call_run.
    cbn [nodes calls].
    pose proof (write_entry_as_writeFile host limits out (content e) xb
                  {| nodes := m1;
                     calls := (calls w ++ [CMkdir (Path.dirname out)])%list |} x) as Hopen.
    rewrite Hwrite in Hopen. cbn [fst snd nodes] in Hopen. rewrite (Hopen eq_refl).
    match goal with
    | |- context [restore_mode host out e ?w0] =>
        destruct (restore_mode_by_nodes host out e w2 w0 eq_refl) as (H1 & _ & H3)
    end.
    now split.
Qed.

Lemma earlier_entries_follow host destDir strip limits entries :
  forall xb (w w' : world),
    Forall (fun e => no_dotdot (name e)) entries ->
    nodes w' = nodes w ->
    fst (extract_entries host destDir strip limits xb entries w) = Ok tt ->
    fst (Earlier.extract_entries host destDir strip entries w') = Ok tt
    /\ nodes (snd (Earlier.extract_entries host destDir strip entries w'))
       = nodes (snd (extract_entries host destDir strip limits xb entries w)).
Proof.
  induction entries as [|e rest IH]; intros xb w w' Hall Hw Hok; [now split|].
  inversion Hall as [|? ? He Hrest]; subst.
  cbn [extract_entries Earlier.extract_entries] in *. unfold bind in *.
  pose proof (earlier_entry_follows host destDir strip limits xb e w w') as Hstep.
  destruct (extract_entry host destDir strip limits xb e w) as [[xb'|err] w1];
    [|discriminate Hok].
  destruct (Hstep xb' He Hw eq_refl) as [H1 H2].
  destruct (Earlier.extract_entry host destDir strip e w') as [r w1'].
  cbn [fst snd] in *. subst r. now apply (IH xb').
Qed.

(** X18. The present zip extractor refines the earlier one: on an
    archive none of whose entry paths has a ".." among its raw parts,
    whenever the present extractor succeeds the earlier one succeeds too
    and leaves the same directories and the same files, with the same
    bytes and modes. *)
Theorem limits_refine_earlier_extractZip (host : Host) (archivePath : string)
    (archive : option ZipFile) (destDir : string) (stripComponents : option number)
    (limits : option ArchiveExtractLimits) (w : world) :
  Forall (fun e => no_dotdot (name e)) (zip_entries archive) ->
  fst (extractZip host archivePath archive destDir stripComponents limits w) = Ok tt ->
  fst (Earlier.extractZip host archivePath archive destDir stripComponents w) = Ok tt
  /\ nodes (snd (Earlier.extractZip host archivePath archive destDir stripComponents w))
     = nodes (snd (extractZip host archivePath archive destDir stripComponents limits w)).
Proof.
  unfold extractZip, Earlier.extractZip, zip_entries. cbv zeta.
  destruct archive as [zf|]; [|discriminate].
  destruct (_ <? _)%Z; [discriminate|].
  destruct (zf_files zf) as [entries|]; [|discriminate].
  destruct (_ <? _)%Z; [discriminate|].
  intros Hall Hok. now apply (earlier_entries_follow _ _ _ _ _ 0 w w).
Qed.

Lemma limits_refine_earlier_extractZip_witness :
  let archive :=
    Some {| zf_size := 64;
            zf_files := Some
              [ {| name := "pkg/"; dir := true; unixPermissions := None;
                   content := Buffered [] |};
                {| name := "pkg\bin\run"; dir := false; unixPermissions := Some 33261;
                   content := Streamed [[Byte.x23]; [Byte.x21]] |} ] |} in
  let w := {| nodes := {[ "/dest" := Dir ]}; calls := [] |} in
  fst (Earlier.extractZip example_host "p.zip" archive "/dest" (Some (of_Z 1)) w) = Ok tt
  /\ nodes (snd (Earlier.extractZip example_host "p.zip" archive "/dest" (Some (of_Z 1)) w))
       !! "/dest/bin/run"
     = Some (File [Byte.x23; Byte.x21] 493).
Proof.
  cbv zeta.
  destruct (limits_refine_earlier_extractZip example_host "p.zip"
    (Some {| zf_size := 64;
             zf_files := Some
               [ {| name := "pkg/"; dir := true; unixPermissions := None;
                    content := Buffered [] |};
                 {| name := "pkg\bin\run"; dir := false; unixPermissions := Some 33261;
                    content := Streamed [[Byte.x23]; [Byte.x21]] |} ] |})
    "/dest" (Some (of_Z 1)) None {| nodes := {[ "/dest" := Dir ]}; calls := [] |})
    as [H1 H2].
  - unfold no_dotdot. vm_compute. repeat constructor; discriminate.
  - vm_compute. reflexivity.
  - split; [exact H1|]. rewrite H2. vm_compute. reflexivity.
Defined.

(** ** The verdicts of the second validation *)

(** X19. On a path the stripper has returned the validator needs no
    normalization and has two ways to fail only: the path begins like a
    Windows drive, or it is ".." or begins with "../"; it never finds
    such a path absolute. *)
Theorem second_validation_verdicts (p : string) (n : number) (rel : string) :
  stripArchivePath p n = Some rel ->
  validateArchiveEntryPath rel
  = if isWindowsDrivePath rel then Err (ErrDrivePath rel)
    else if String.eqb rel ".." || Js.startsWith rel "../" then Err (ErrEscapes rel)
    else Ok tt.
Proof.
  intros H. destruct (strip_result_fixed p n rel H) as (Hnorm & Hfree & Hself & Habs).
  unfold validateArchiveEntryPath. rewrite Hself, Hfree, Hnorm, Habs.
  destruct (isWindowsDrivePath rel); [reflexivity|].
  destruct (_ || _); [reflexivity|].
  assert (Js.startsWith rel "//" = false) as ->; [|reflexivity].
  unfold Js.startsWith. destruct rel as [|c r]; [reflexivity|].
  rewrite prefix_cons. destruct (ascii_dec "/" c) as [<-|]; [discriminate Habs | reflexivity].
Qed.

Lemma second_validation_verdicts_witness :
  validateArchiveEntryPath "../../x" = Err (ErrEscapes "../../x")
  /\ validateArchiveEntryPath "D:/x" = Err (ErrDrivePath "D:/x").
Proof.
  split.
  - exact (second_validation_verdicts "pkg/lib/../../../x" (of_Z 1) "../../x" eq_refl).
  - reflexivity.
Defined.

(** ** The directories the zip extractor finds *)

Lemma preserves_ret I {A} (a : A) : preserves I (ret a).
Proof. now intros w. Qed.

Lemma preserves_lift I {A} (r : result A) : preserves I (lift r).
Proof. now intros w. Qed.

Lemma preserves_throw I {A} (e : ArchiveError) : preserves I (@throw A e).
Proof. now intros w. Qed.

Lemma preserves_bind I {A B} (c : M A) (k : A -> M B) :
  preserves I c -> (forall a, preserves I (k a)) -> preserves I (bind c k).
Proof.
  intros Hc Hk w Hw. unfold bind. specialize (Hc w Hw).
  destruct (c w) as [[a|e] w1]; cbn [snd] in *; [|exact Hc]. now apply Hk.
Qed.

Lemma preserves_swallow I (c : M unit) : preserves I c -> preserves I (swallow c).
Proof. intros Hc w. apply Hc. Qed.

Lemma preserves_try_cleanup I {A} (body : M A) (handler : M unit) :
  preserves I body -> preserves I handler -> preserves I (try_cleanup body handler).
Proof.
  intros Hb Hh w Hw. unfold try_cleanup. specialize (Hb w Hw).
  destruct (body w) as [[a|e] w1]; cbn [snd] in *; [exact Hb|]. now apply Hh.
Qed.

Lemma preserves_fs_call (I : gmap string node -> Prop) (c : call) sc tg f :
  (forall m m', f m = Some m' -> I m -> I m') -> preserves I (fs_call c sc tg f).
Proof.
  intros Hf w Hw. rewrite fs_call_run. destruct (f (nodes w)) as [m'|] eqn:E; cbn [snd nodes].
  - now apply (Hf (nodes w)).
  - exact Hw.
Qed.

Lemma preserves_restore_mode I host out e :
  (forall m m' mode, chmod (chmod_denied host) m out mode = Some m' -> I m -> I m') ->
  preserves I (restore_mode host out e).
Proof.
  intros H. unfold restore_mode. destruct (unixPermissions e) as [u|]; [|apply preserves_ret].
  destruct (negb _); [|apply preserves_ret].
  apply preserves_swallow, preserves_fs_call. intros m m'. apply H.
Qed.

Lemma preserves_pump I limits out chunks :
  (forall m chunk, I m -> I (Fs.append m out chunk)) ->
  forall eb xb, preserves I (pump limits out chunks eb xb).
Proof.
  intros H. induction chunks as [|chunk rest IH]; intros eb xb; [apply preserves_ret|].
  cbn [pump]. apply preserves_bind; [apply preserves_lift|]. intros counts.
  apply preserves_bind; [|intros _; apply IH].
  apply preserves_fs_call. intros m m' [= <-]. apply H.
Qed.

Lemma preserves_write_entry I host limits out d xb :
  (forall m m' data, open_w (create_mode host) m out data = Some m' -> I m -> I m') ->
  (forall m chunk, I m -> I (Fs.append m out chunk)) ->
  (forall m m', unlink (unlink_denied host) m out = Some m' -> I m -> I m') ->
  preserves I (write_entry host limits out d xb).
Proof.
  intros Hopen Happend Hunlink. unfold write_entry. apply preserves_try_cleanup.
  - destruct d as [chunks|buf].
    + apply preserves_bind; [|intros _; now apply preserves_pump].
      apply preserves_fs_call. intros m m'. apply Hopen.
    + apply preserves_bind; [apply preserves_lift|]. intros counts.
      apply preserves_bind; [|intros _; apply preserves_ret].
      apply preserves_fs_call. intros m m'. apply Hopen.
  - apply preserves_swallow, preserves_fs_call. intros m m'. apply Hunlink.
Qed.

Lemma mkdir_p_keeps_dirs (m m' : gmap string node) (p q : string) :
  mkdir_p m p = Some m' -> m !! q = Some Dir -> m' !! q = Some Dir.
Proof.
  intros H Hq. destruct (mkdir_p_lookup m m' p q H) as [E|E]; [now rewrite E | exact E].
Qed.

Lemma open_w_keeps_dirs cm (m m' : gmap string node) (p q : string) data :
  open_w cm m p data = Some m' -> m !! q = Some Dir -> m' !! q = Some Dir.
Proof.
  intros H Hq. destruct (string_dec q p) as [->|Hne].
  - unfold open_w in H. rewrite Hq in H. discriminate.
  - now rewrite (open_w_elsewhere _ _ _ _ _ _ Hne H).
Qed.

Lemma append_keeps_dirs (m : gmap string node) (p q : string) chunk :
  m !! q = Some Dir -> Fs.append m p chunk !! q = Some Dir.
Proof.
  intros Hq. destruct (string_dec q p) as [->|Hne].
  - unfold Fs.append. now rewrite Hq.
  - now rewrite append_elsewhere.
Qed.

Lemma unlink_keeps_dirs denied (m m' : gmap string node) (p q : string) :
  unlink denied m p = Some m' -> m !! q = Some Dir -> m' !! q = Some Dir.
Proof.
  intros H Hq. destruct (string_dec q p) as [->|Hne].
  - unfold unlink in H. rewrite Hq in H. now destruct (denied p).
  - now rewrite (unlink_elsewhere _ _ _ _ _ Hne H).
Qed.

Lemma chmod_keeps_dirs denied (m m' : gmap string node) (p q : string) mode :
  chmod denied m p mode = Some m' -> m !! q = Some Dir -> m' !! q = Some Dir.
Proof.
  intros H Hq. destruct (string_dec q p) as [->|Hne].
  - unfold chmod in H. rewrite Hq in H. destruct (denied p); [discriminate|].
    now injection H as <-.
  - now rewrite (chmod_elsewhere _ _ _ _ _ _ Hne H).
Qed.

Lemma extract_entry_keeps_dirs host destDir strip limits xb e q :
  preserves (fun m => m !! q = Some Dir) (extract_entry host destDir strip limits xb e).
Proof.
  unfold extract_entry.
  apply preserves_bind; [apply preserves_lift|]. intros _.
  destruct (stripArchivePath (name e) strip) as [relPath|]; [|apply preserves_ret].
  apply preserves_bind; [apply preserves_lift|]. intros _.
  apply preserves_bind; [apply preserves_lift|]. intros outPath.
  assert (Hmk : forall p, preserves (fun m => m !! q = Some Dir) (fs_mkdir p)).
  { intros p. apply preserves_fs_call. intros m m'. apply mkdir_p_keeps_dirs. }
  destruct (dir e).
  - apply preserves_bind; [apply Hmk | intros; apply preserves_ret].
  - apply preserves_bind; [apply Hmk|]. intros _.
    apply preserves_bind.
    + apply preserves_write_entry.
      * intros m m' data. apply open_w_keeps_dirs.
      * intros m chunk. apply append_keeps_dirs.
      * intros m m'. apply unlink_keeps_dirs.
    + intros xb'. apply preserves_bind; [|intros; apply preserves_ret].
      apply preserves_restore_mode. intros m m' mode. apply chmod_keeps_dirs.
Qed.

Lemma extract_entries_preserve (I : gmap string node -> Prop) host destDir strip limits
    entries :
  Forall (fun e => forall xb, preserves I (extract_entry host destDir strip limits xb e))
         entries ->
  forall xb, preserves I (extract_entries host destDir strip limits xb entries).
Proof.
  intros Hall. induction Hall as [|e rest He _ IH]; intros xb; [apply preserves_ret|].
  cbn [extract_entries]. apply preserves_bind; [apply He | intros xb'; apply IH].
Qed.

Lemma extractZip_preserves (I : gmap string node -> Prop) host archivePath archive destDir
    stripComponents limits :
  Forall (fun e => forall xb,
            preserves I (extract_entry host destDir (resolveStrip stripComponents)
                           (resolveExtractLimits limits) xb e))
         (zip_entries archive) ->
  preserves I (extractZip host archivePath archive destDir stripComponents limits).
Proof.
  intros Hall. unfold extractZip, zip_entries in *. cbv zeta.
  destruct archive as [zf|]; [|apply preserves_throw].
  destruct (_ <? _)%Z; [apply preserves_throw|].
  destruct (zf_files zf) as [entries|]; [|apply preserves_throw].
  destruct (_ <? _)%Z; [apply preserves_throw|].
  now apply extract_entries_preserve.
Qed.

(** X20. [extractZip] never removes or replaces a directory: a
    directory that exists before the run is still a directory afterwards,
    however the run ends, also when it is the output path of a file entry
    (the write fails on it, and so does the cleanup). *)
Theorem zip_keeps_directories (host : Host) (archivePath : string)
    (archive : option ZipFile) (destDir : string) (stripComponents : option number)
    (limits : option ArchiveExtractLimits) (w : world) (q : string) :
  nodes w !! q = Some Dir ->
  nodes (snd (extractZip host archivePath archive destDir stripComponents limits w)) !! q
  = Some Dir.
Proof.
  apply (extractZip_preserves (fun m => m !! q = Some Dir)).
  apply List.Forall_forall. intros e _ xb. apply extract_entry_keeps_dirs.
Qed.

Lemma zip_keeps_directories_witness :
  let e := {| name := "pkg/lib"; dir := false; unixPermissions := Some 420;
              content := Buffered [Byte.x31] |} in
  let w := {| nodes := {[ "/dest" := Dir; "/dest/lib" := Dir ]}; calls := [] |} in
  let r := extractZip example_host "p.zip" (Some {| zf_size := 64; zf_files := Some [e] |})
             "/dest" (Some (of_Z 1)) None w in
  fst r = Err (ErrHost "open" "/dest/lib")
  /\ calls (snd r)
     = [ CMkdir "/dest"; CWriteFile "/dest/lib" [Byte.x31]; CUnlink "/dest/lib" ]
  /\ nodes (snd r) !! "/dest/lib" = Some Dir.
Proof.
  cbv zeta. split; [vm_compute; reflexivity|]. split; [vm_compute; reflexivity|].
  apply (zip_keeps_directories example_host "p.zip"
           (Some {| zf_size := 64;
                    zf_files := Some [ {| name := "pkg/lib"; dir := false;
                                          unixPermissions := Some 420;
                                          content := Buffered [Byte.x31] |} ] |})
           "/dest" (Some (of_Z 1)) None
           {| nodes := {[ "/dest" := Dir; "/dest/lib" := Dir ]}; calls := [] |}
           "/dest/lib").
  vm_compute. reflexivity.
Defined.

(** ** The directories of a successful zip extraction *)

Lemma preserves_is_dir q {A} (c : M A) :
  preserves (fun m => m !! q = Some Dir) c ->
  preserves (fun m => is_dir m q = true) c.
Proof.
  intros Hc w. unfold is_dir. destruct (is_root q); [reflexivity|]. cbn [orb].
  intros Hq. specialize (Hc w). cbv beta in Hc.
  destruct (nodes w !! q) as [[d mode|]|] eqn:Hw; try discriminate Hq.
  now rewrite (Hc eq_refl).
Qed.

Lemma write_and_restore_keep_dirs host limits out e xb q :
  preserves (fun m => m !! q = Some Dir)
    (bind (write_entry host limits out (content e) xb)
          (fun xb' => bind (restore_mode host out e) (fun _ => ret xb'))).
Proof.
  apply preserves_bind.
  - apply preserves_write_entry.
    + intros m m' data. apply open_w_keeps_dirs.
    + intros m chunk. apply append_keeps_dirs.
    + intros m m'. apply unlink_keeps_dirs.
  - intros xb'. apply preserves_bind; [|intros; apply preserves_ret].
    apply preserves_restore_mode. intros m m' mode. apply chmod_keeps_dirs.
Qed.

Lemma extract_entry_makes_directory host destDir strip limits xb e out (w : world) xb' :
  entry_out_path host destDir strip (name e) = Some out ->
  fst (extract_entry host destDir strip limits xb e w) = Ok xb' ->
  is_dir (nodes (snd (extract_entry host destDir strip limits xb e w)))
         (if dir e then out else Path.dirname out) = true.
Proof.
  intros Hout Hok. destruct (dir e) eqn:Hdir.
  - rewrite (extract_entry_dir_run _ _ _ _ _ _ out w Hdir Hout) in *.
    unfold bind, fs_mkdir in *. rewrite fs_call_run in *.
    destruct (mkdir_p (nodes w) out) as [m1|] eqn:Hmk; [|discriminate Hok].
    cbn [snd nodes ret]. now apply (mkdir_p_is_dir (nodes w)).
  - rewrite (extract_entry_file_run _ _ _ _ _ _ out w Hdir Hout) in *.
    unfold bind at 1. unfold bind at 1 in Hok. unfold fs_mkdir in *.
    rewrite fs_call_run in *.
    destruct (mkdir_p (nodes w) (Path.dirname out)) as [m1|] eqn:Hmk; [|discriminate Hok].
    apply (preserves_is_dir (Path.dirname out) _
             (write_and_restore_keep_dirs host limits out e xb (Path.dirname out))).
    cbn [nodes]. now apply (mkdir_p_is_dir (nodes w)).
Qed.

(** X21. When [extractZip] succeeds, every entry that has an output
    path has its directory afterwards: the output path itself for a
    directory entry, the parent of the output path for a file entry. *)
Theorem zip_success_makes_directories (host : Host) (archivePath : string) (size : Z)
    (before : list ZipEntry) (e : ZipEntry) (after : list ZipEntry)
    (destDir : string) (stripComponents : option number)
    (limits : option ArchiveExtractLimits) (w : world) (out : string) :
  let r := extractZip host archivePath
             (Some {| zf_size := size; zf_files := Some (before ++ e :: after)%list |})
             destDir stripComponents limits w in
  fst r = Ok tt ->
  entry_out_path host destDir (resolveStrip stripComponents) (name e) = Some out ->
  is_dir (nodes (snd r)) (if dir e then out else Path.dirname out) = true.
Proof.
  cbv zeta. intros Hok Hout.
  unfold extractZip in *. cbv zeta in *. cbn [zf_size zf_files] in *.
  destruct (_ <? size)%Z; [discriminate Hok|].
  destruct (_ <? Z.of_nat _)%Z; [discriminate Hok|].
  destruct (extract_entries_reach host destDir (resolveStrip stripComponents)
              (resolveExtractLimits limits) before (e :: after) 0 w Hok)
    as (xb1 & w1 & Hrun).
  rewrite Hrun in *. clear Hrun. cbn [extract_entries] in *. unfold bind in *.
  pose proof (extract_entry_makes_directory host destDir (resolveStrip stripComponents)
                (resolveExtractLimits limits) xb1 e out w1) as Hmade.
  destruct (extract_entry host destDir (resolveStrip stripComponents)
              (resolveExtractLimits limits) xb1 e w1) as [[xb2|err] w2];
    [|discriminate Hok].
  specialize (Hmade xb2 Hout eq_refl). cbn [snd] in Hmade.
  set (target := if dir e then out else Path.dirname out) in *.
  assert (Hrest : preserves (fun m => m !! target = Some Dir)
                    (extract_entries host destDir (resolveStrip stripComponents)
                       (resolveExtractLimits limits) xb2 after)).
  { apply extract_entries_preserve. apply List.Forall_forall.
    intros e' _ xb'. apply extract_entry_keeps_dirs. }
  apply (preserves_is_dir target _ Hrest). exact Hmade.
Qed.

Lemma zip_success_makes_directories_witness :
  let e := {| name := "pkg/lib/util/a.js"; dir := false; unixPermissions := None;
              content := Buffered [Byte.x31] |} in
  let w := {| nodes := {[ "/dest" := Dir ]}; calls := [] |} in
  is_dir (nodes (snd (extractZip example_host "p.zip"
                        (Some {| zf_size := 64; zf_files := Some [e] |})
                        "/dest" (Some (of_Z 1)) None w))) "/dest/lib/util" = true.
Proof.
  cbv zeta.
  apply (zip_success_makes_directories example_host "p.zip" 64 []
           {| name := "pkg/lib/util/a.js"; dir := false; unixPermissions := None;
              content := Buffered [Byte.x31] |} []
           "/dest" (Some (of_Z 1)) None
           {| nodes := {[ "/dest" := Dir ]}; calls := [] |} "/dest/lib/util/a.js").
  - vm_compute. reflexivity.
  - vm_compute. reflexivity.
Defined.
